(** * crowdcompute/cc-go-sdk: the JSON-RPC client and the upload client

    A shallow embedding of [crowdcompute/client.go] and
    [crowdcompute/file_upload_client.go].

    - Go strings and byte slices are [string]s (sequences of 8-bit [ascii]).
    - [encoding/json], [unicode/utf8], [net/http], [oauth2], [mime/multipart]
      and [os] are library code; the parts the clients use are modelled
      below (the modules [Utf8] and [JSON], the [world] record), after the
      Go sources of the time the repository was written (2019).
    - A method with a pointer receiver is a computation in a state monad
      over the receiver; [log.Fatalf] ends the computation ([Exits]). *)

From Stdlib Require Import Bool List ZArith NArith Ascii String Lia.
From Stdlib Require Import DecimalFacts DecimalN.
From Stdlib Require QArith Qcanon.
Import ListNotations.
Set Warnings "-register-all".
Local Open Scope list_scope.
Local Open Scope string_scope.

(** ** Bytes and strings *)

Definition byte (c : ascii) : N := N_of_ascii c.
(** Go's [byte(x)]: the low eight bits. *)
Definition chr (n : N) : ascii := ascii_of_N (n mod 256).

Definition dquote : ascii := "034"%char.
Definition backslash : ascii := "\"%char.

Definition str1 (c : ascii) : string := String c EmptyString.

Fixpoint take (n : nat) (s : string) : string :=
  match n, s with
  | S n', String c s' => String c (take n' s')
  | _, _ => EmptyString
  end.

Fixpoint drop (n : nat) (s : string) : string :=
  match n, s with
  | S n', String _ s' => drop n' s'
  | _, _ => s
  end.

(** ** unicode/utf8 *)
Module Utf8.

Definition RuneError : N := 0xFFFD.
Definition MaxRune : N := 0x10FFFF.

(** The table [first] of unicode/utf8 with its accept ranges: what a leading
    byte announces. *)
Inductive leading :=
| AsciiByte
| InvalidByte
| Lead (size : nat) (lo hi : N).

Definition first (b : N) : leading :=
  if (b <? 0x80)%N then AsciiByte
  else if (b <? 0xC2)%N then InvalidByte
  else if (b <? 0xE0)%N then Lead 2 0x80 0xBF
  else if (b =? 0xE0)%N then Lead 3 0xA0 0xBF
  else if (b <? 0xED)%N then Lead 3 0x80 0xBF
  else if (b =? 0xED)%N then Lead 3 0x80 0x9F
  else if (b <? 0xF0)%N then Lead 3 0x80 0xBF
  else if (b =? 0xF0)%N then Lead 4 0x90 0xBF
  else if (b <? 0xF4)%N then Lead 4 0x80 0xBF
  else if (b =? 0xF4)%N then Lead 4 0x80 0x8F
  else InvalidByte.

Definition outside (lo hi b : N) : bool := (b <? lo)%N || (hi <? b)%N.

Definition locb : N := 0x80.
Definition hicb : N := 0xBF.
Definition maskx : N := 0x3F.

(** [utf8.DecodeRuneInString]: the first rune of [s] and its width in bytes;
    [(RuneError, 1)] for an encoding that is not valid. *)
Definition DecodeRune (s : string) : N * nat :=
  match s with
  | EmptyString => (RuneError, 0)
  | String c0 t0 =>
    let s0 := byte c0 in
    match first s0 with
    | AsciiByte => (s0, 1)
    | InvalidByte => (RuneError, 1)
    | Lead sz lo hi =>
      if (String.length s <? sz)%nat then (RuneError, 1) else
      match t0 with
      | EmptyString => (RuneError, 1)
      | String c1 t1 =>
        let s1 := byte c1 in
        if outside lo hi s1 then (RuneError, 1) else
        if (sz <=? 2)%nat then
          (N.lor (N.shiftl (N.land s0 0x1F) 6) (N.land s1 maskx), 2)
        else
        match t1 with
        | EmptyString => (RuneError, 1)
        | String c2 t2 =>
          let s2 := byte c2 in
          if outside locb hicb s2 then (RuneError, 1) else
          if (sz <=? 3)%nat then
            (N.lor (N.lor (N.shiftl (N.land s0 0x0F) 12)
                          (N.shiftl (N.land s1 maskx) 6))
                   (N.land s2 maskx), 3)
          else
          match t2 with
          | EmptyString => (RuneError, 1)
          | String c3 _ =>
            let s3 := byte c3 in
            if outside locb hicb s3 then (RuneError, 1) else
            (N.lor (N.lor (N.lor (N.shiftl (N.land s0 0x07) 18)
                                 (N.shiftl (N.land s1 maskx) 12))
                          (N.shiftl (N.land s2 maskx) 6))
                   (N.land s3 maskx), 4)
          end
        end
      end
    end
  end.

Definition tail3 (r : N) : string :=
  String (chr (N.lor 0xE0 (N.shiftr r 12)))
 (String (chr (N.lor 0x80 (N.land (N.shiftr r 6) maskx)))
 (String (chr (N.lor 0x80 (N.land r maskx))) EmptyString)).

(** [utf8.EncodeRune]: surrogates and values above [MaxRune] are written as
    [RuneError]. *)
Definition EncodeRune (r : N) : string :=
  if (r <=? 0x7F)%N then str1 (chr r)
  else if (r <=? 0x7FF)%N then
    String (chr (N.lor 0xC0 (N.shiftr r 6)))
   (String (chr (N.lor 0x80 (N.land r maskx))) EmptyString)
  else if (MaxRune <? r)%N || ((0xD800 <=? r)%N && (r <=? 0xDFFF)%N) then
    tail3 RuneError
  else if (r <=? 0xFFFF)%N then tail3 r
  else
    String (chr (N.lor 0xF0 (N.shiftr r 18)))
   (String (chr (N.lor 0x80 (N.land (N.shiftr r 12) maskx)))
   (String (chr (N.lor 0x80 (N.land (N.shiftr r 6) maskx)))
   (String (chr (N.lor 0x80 (N.land r maskx))) EmptyString))).

(** [utf8.ValidString], by the decoder: no position decodes to
    [(RuneError, 1)]. The fuel is the length of the string. *)
Fixpoint validFrom (fuel : nat) (s : string) : bool :=
  match fuel with
  | O => match s with EmptyString => true | _ => false end
  | S fuel' =>
    match s with
    | EmptyString => true
    | String _ _ =>
      let (r, size) := DecodeRune s in
      if (r =? RuneError)%N && (size =? 1)%nat then false
      else validFrom fuel' (drop size s)
    end
  end.

Definition ValidString (s : string) : bool := validFrom (String.length s) s.


(** *** The valid encodings of two, three and four bytes, and their runes *)

Definition cont (c : ascii) : Prop := (0x80 <= byte c <= 0xBF)%N.

Definition valid2 (c0 c1 : ascii) : Prop :=
  (0xC2 <= byte c0 < 0xE0)%N /\ cont c1.

Definition valid3 (c0 c1 c2 : ascii) : Prop :=
  (0xE0 <= byte c0 <= 0xEF)%N /\ cont c1 /\ cont c2
  /\ (byte c0 = 0xE0 -> 0xA0 <= byte c1)%N /\ (byte c0 = 0xED -> byte c1 <= 0x9F)%N.

Definition valid4 (c0 c1 c2 c3 : ascii) : Prop :=
  (0xF0 <= byte c0 <= 0xF4)%N /\ cont c1 /\ cont c2 /\ cont c3
  /\ (byte c0 = 0xF0 -> 0x90 <= byte c1)%N /\ (byte c0 = 0xF4 -> byte c1 <= 0x8F)%N.

Definition rune2 (c0 c1 : ascii) : N :=
  N.lor (N.shiftl (N.land (byte c0) 0x1F) 6) (N.land (byte c1) maskx).

Definition rune3 (c0 c1 c2 : ascii) : N :=
  N.lor (N.lor (N.shiftl (N.land (byte c0) 0x0F) 12)
               (N.shiftl (N.land (byte c1) maskx) 6))
        (N.land (byte c2) maskx).

Definition rune4 (c0 c1 c2 c3 : ascii) : N :=
  N.lor (N.lor (N.lor (N.shiftl (N.land (byte c0) 0x07) 18)
                      (N.shiftl (N.land (byte c1) maskx) 12))
               (N.shiftl (N.land (byte c2) maskx) 6))
        (N.land (byte c3) maskx).

(** What a decoding that starts at a byte above ASCII can be. *)
Inductive decoded (s : string) (r : N) (size : nat) : Prop :=
| decoded_invalid : r = RuneError -> size = 1 -> decoded s r size
| decoded2 c0 c1 t :
    s = String c0 (String c1 t) -> valid2 c0 c1 -> r = rune2 c0 c1 -> size = 2 ->
    decoded s r size
| decoded3 c0 c1 c2 t :
    s = String c0 (String c1 (String c2 t)) -> valid3 c0 c1 c2 ->
    r = rune3 c0 c1 c2 -> size = 3 -> decoded s r size
| decoded4 c0 c1 c2 c3 t :
    s = String c0 (String c1 (String c2 (String c3 t))) -> valid4 c0 c1 c2 c3 ->
    r = rune4 c0 c1 c2 c3 -> size = 4 -> decoded s r size.

End Utf8.

(** ** encoding/json *)
Module JSON.

(** A JSON document. A number literal without fraction and exponent is kept
    by its integer value; any other number literal is kept as written
    (floating point is outside the model). *)
Inductive value :=
| Null
| Bool (b : bool)
| Int (z : Z)
| Float (lit : string)
| Str (s : string)
| Arr (vs : list value)
| Obj (kvs : list (string * value)).

(** *** Encoding *)

Definition hexDigit (n : N) : ascii :=
  match String.get (N.to_nat n) "0123456789abcdef" with
  | Some c => c
  | None => "0"%char
  end.

(** [htmlSafeSet]: the ASCII bytes written as they are. *)
Definition htmlSafe (b : N) : bool :=
  (0x20 <=? b)%N && (b <? 0x80)%N &&
  negb ((b =? 34)%N || (b =? 38)%N || (b =? 60)%N || (b =? 62)%N || (b =? 92)%N).

Definition escapeByte (c : ascii) : string :=
  let b := byte c in
  if (b =? 92)%N || (b =? 34)%N then String backslash (str1 c)
  else if (b =? 10)%N then String backslash "n"
  else if (b =? 13)%N then String backslash "r"
  else if (b =? 9)%N then String backslash "t"
  else String backslash
         ("u00" ++ String (hexDigit (N.shiftr b 4)) (str1 (hexDigit (N.land b 0xF)))).

(** The loop of [encodeState.string] (with HTML escaping, as [json.Marshal]
    runs it): one step per rune; a byte that starts no valid encoding is
    replaced by U+FFFD, U+2028 and U+2029 are escaped. *)
Fixpoint encodeRunes (fuel : nat) (s : string) : string :=
  match fuel, s with
  | S fuel', String c tl =>
    let b := byte c in
    if (b <? 0x80)%N then
      (if htmlSafe b then str1 c else escapeByte c) ++ encodeRunes fuel' tl
    else
      let (r, size) := Utf8.DecodeRune s in
      if (r =? Utf8.RuneError)%N && (size =? 1)%nat then
        String backslash "ufffd" ++ encodeRunes fuel' tl
      else if (r =? 0x2028)%N || (r =? 0x2029)%N then
        String backslash "u202" ++ str1 (hexDigit (N.land r 0xF))
          ++ encodeRunes fuel' (drop size s)
      else take size s ++ encodeRunes fuel' (drop size s)
  | _, _ => EmptyString
  end.

Definition encodeString (s : string) : string :=
  String dquote (encodeRunes (String.length s) s ++ str1 dquote).

Fixpoint digits (d : Decimal.uint) : string :=
  match d with
  | Decimal.Nil => EmptyString
  | Decimal.D0 d => String "0" (digits d)
  | Decimal.D1 d => String "1" (digits d)
  | Decimal.D2 d => String "2" (digits d)
  | Decimal.D3 d => String "3" (digits d)
  | Decimal.D4 d => String "4" (digits d)
  | Decimal.D5 d => String "5" (digits d)
  | Decimal.D6 d => String "6" (digits d)
  | Decimal.D7 d => String "7" (digits d)
  | Decimal.D8 d => String "8" (digits d)
  | Decimal.D9 d => String "9" (digits d)
  end.

(** [strconv.AppendInt] in base 10. *)
Definition encodeInt (z : Z) : string :=
  match z with
  | Zneg p => String "-" (digits (N.to_uint (Npos p)))
  | _ => digits (N.to_uint (Z.to_N z))
  end.

Fixpoint encode (v : value) : string :=
  match v with
  | Null => "null"
  | Bool true => "true"
  | Bool false => "false"
  | Int z => encodeInt z
  | Float lit => lit
  | Str s => encodeString s
  | Arr vs =>
    let fix elements (vs : list value) : string :=
      match vs with
      | [] => EmptyString
      | [v] => encode v
      | v :: vs' => encode v ++ "," ++ elements vs'
      end in
    "[" ++ elements vs ++ "]"
  | Obj kvs =>
    let fix members (kvs : list (string * value)) : string :=
      match kvs with
      | [] => EmptyString
      | [(k, v)] => encodeString k ++ ":" ++ encode v
      | (k, v) :: kvs' => encodeString k ++ ":" ++ encode v ++ "," ++ members kvs'
      end in
    "{" ++ members kvs ++ "}"
  end.

(** *** Decoding *)

Definition isSpace (c : ascii) : bool :=
  let b := byte c in (b =? 32)%N || (b =? 9)%N || (b =? 13)%N || (b =? 10)%N.

Fixpoint skipSpace (s : string) : string :=
  match s with
  | String c s' => if isSpace c then skipSpace s' else s
  | EmptyString => s
  end.

Definition hexVal (c : ascii) : option N :=
  let b := byte c in
  if (48 <=? b)%N && (b <=? 57)%N then Some (b - 48)%N
  else if (97 <=? b)%N && (b <=? 102)%N then Some (b - 97 + 10)%N
  else if (65 <=? b)%N && (b <=? 70)%N then Some (b - 65 + 10)%N
  else None.

(** Four hexadecimal digits. *)
Definition hex4 (s : string) : option (N * string) :=
  match s with
  | String c1 (String c2 (String c3 (String c4 r))) =>
    match hexVal c1, hexVal c2, hexVal c3, hexVal c4 with
    | Some h1, Some h2, Some h3, Some h4 =>
      Some ((((h1 * 16 + h2) * 16 + h3) * 16 + h4)%N, r)
    | _, _, _, _ => None
    end
  | _ => None
  end.

(** [getu4]: the rune of a leading [\uXXXX]. *)
Definition getu4 (s : string) : option (N * string) :=
  match s with
  | String c0 (String c1 r) =>
    if ((c0 =? backslash) && (c1 =? "u"))%char then hex4 r else None
  | _ => None
  end.

(** [utf16.IsSurrogate] and [utf16.DecodeRune]. *)
Definition IsSurrogate (r : N) : bool := (0xD800 <=? r)%N && (r <? 0xE000)%N.

Definition DecodeSurrogates (r1 r2 : N) : N :=
  if (0xD800 <=? r1)%N && (r1 <? 0xDC00)%N && (0xDC00 <=? r2)%N && (r2 <? 0xE000)%N
  then (N.lor (N.shiftl (r1 - 0xD800) 10) (r2 - 0xDC00) + 0x10000)%N
  else Utf8.RuneError.

Definition simpleEscape (e : ascii) : option ascii :=
  let b := byte e in
  if (b =? 34)%N || (b =? 92)%N || (b =? 47)%N then Some e
  else if (b =? 98)%N then Some (chr 8)
  else if (b =? 102)%N then Some (chr 12)
  else if (b =? 110)%N then Some (chr 10)
  else if (b =? 114)%N then Some (chr 13)
  else if (b =? 116)%N then Some (chr 9)
  else None.

Definition prepend (x : string) (o : option (string * string)) :
  option (string * string) :=
  match o with
  | Some (d, r) => Some (x ++ d, r)
  | None => None
  end.

(** The body of a string literal, after its opening quote: what the scanner
    accepts, decoded as [unquote] does. The result is the decoded string and
    the text after the closing quote. *)
Fixpoint unquote (fuel : nat) (s : string) : option (string * string) :=
  match fuel with
  | O => None
  | S fuel' =>
    match s with
    | EmptyString => None
    | String c tl =>
      let b := byte c in
      if (b =? 34)%N then Some (EmptyString, tl)
      else if (b =? 92)%N then
        match tl with
        | EmptyString => None
        | String e tl' =>
          match simpleEscape e with
          | Some x => prepend (str1 x) (unquote fuel' tl')
          | None =>
            if (e =? "u")%char then
              match hex4 tl' with
              | None => None
              | Some (rr, tl2) =>
                if IsSurrogate rr then
                  match getu4 tl2 with
                  | Some (rr1, tl3) =>
                    let dec := DecodeSurrogates rr rr1 in
                    if (dec =? Utf8.RuneError)%N
                    then prepend (Utf8.EncodeRune Utf8.RuneError) (unquote fuel' tl2)
                    else prepend (Utf8.EncodeRune dec) (unquote fuel' tl3)
                  | None =>
                    prepend (Utf8.EncodeRune Utf8.RuneError) (unquote fuel' tl2)
                  end
                else prepend (Utf8.EncodeRune rr) (unquote fuel' tl2)
              end
            else None
          end
        end
      else if (b <? 0x20)%N then None
      else if (b <? 0x80)%N then prepend (str1 c) (unquote fuel' tl)
      else
        let (rr, size) := Utf8.DecodeRune s in
        prepend (Utf8.EncodeRune rr) (unquote fuel' (drop size s))
    end
  end.

Definition digitOf (c : ascii) : option (Decimal.uint -> Decimal.uint) :=
  let b := byte c in
  if (b =? 48)%N then Some Decimal.D0
  else if (b =? 49)%N then Some Decimal.D1
  else if (b =? 50)%N then Some Decimal.D2
  else if (b =? 51)%N then Some Decimal.D3
  else if (b =? 52)%N then Some Decimal.D4
  else if (b =? 53)%N then Some Decimal.D5
  else if (b =? 54)%N then Some Decimal.D6
  else if (b =? 55)%N then Some Decimal.D7
  else if (b =? 56)%N then Some Decimal.D8
  else if (b =? 57)%N then Some Decimal.D9
  else None.

Definition isDigit (c : ascii) : bool :=
  match digitOf c with Some _ => true | None => false end.

(** The longest run of decimal digits at the head of [s]. *)
Fixpoint scanDigits (s : string) : Decimal.uint * string :=
  match s with
  | String c s' =>
    match digitOf c with
    | Some k => let (d, r) := scanDigits s' in (k d, r)
    | None => (Decimal.Nil, s)
    end
  | EmptyString => (Decimal.Nil, s)
  end.

(** The integer part of a number: [0], or a digit [1-9] and more digits. *)
Definition scanIntPart (s : string) : option (Decimal.uint * string) :=
  match s with
  | String c s' =>
    if (c =? "0")%char then Some (Decimal.D0 Decimal.Nil, s')
    else if isDigit c then Some (scanDigits s)
    else None
  | EmptyString => None
  end.

(** A fraction [.digits], when there is one; [None] for a dot that no digit
    follows. *)
Definition scanFrac (s : string) : option (bool * string) :=
  match s with
  | String c s' =>
    if (c =? ".")%char then
      match scanDigits s' with
      | (Decimal.Nil, _) => None
      | (_, r) => Some (true, r)
      end
    else Some (false, s)
  | EmptyString => Some (false, s)
  end.

Definition scanExp (s : string) : option (bool * string) :=
  match s with
  | String c s' =>
    if ((c =? "e") || (c =? "E"))%char then
      let s2 := match s' with
                | String g r => if ((g =? "+") || (g =? "-"))%char then r else s'
                | EmptyString => s'
                end in
      match scanDigits s2 with
      | (Decimal.Nil, _) => None
      | (_, r) => Some (true, r)
      end
    else Some (false, s)
  | EmptyString => Some (false, s)
  end.

Definition scanNumber (s : string) : option (value * string) :=
  let (neg, s1) := match s with
                   | String c r => if (c =? "-")%char then (true, r) else (false, s)
                   | EmptyString => (false, s)
                   end in
  match scanIntPart s1 with
  | None => None
  | Some (d, s2) =>
    match scanFrac s2 with
    | None => None
    | Some (frac, s3) =>
      match scanExp s3 with
      | None => None
      | Some (exp, s4) =>
        if frac || exp
        then Some (Float (take (String.length s - String.length s4) s), s4)
        else
          let n := Z.of_N (N.of_uint d) in
          Some (Int (if neg then - n else n)%Z, s4)
      end
    end
  end.

Definition scanLiteral (s : string) : option (value * string) :=
  if String.prefix "true" s then Some (Bool true, drop 4 s)
  else if String.prefix "false" s then Some (Bool false, drop 5 s)
  else if String.prefix "null" s then Some (Null, drop 4 s)
  else None.

Definition withRest {A B : Type} (f : A -> B) (o : option (A * string)) :
  option (B * string) :=
  match o with
  | Some (a, r) => Some (f a, r)
  | None => None
  end.

(** One value at the head of [s], blanks before it skipped, and the text
    that follows it. Every call spends one unit of fuel. *)
Fixpoint parseValue (fuel : nat) (s : string) : option (value * string) :=
  match fuel with
  | O => None
  | S fuel' =>
    match skipSpace s with
    | EmptyString => None
    | String c s' =>
      if (c =? "{")%char then
        match skipSpace s' with
        | EmptyString => None
        | String c1 r =>
          if (c1 =? "}")%char then Some (Obj [], r)
          else withRest Obj (parseMembers fuel' s')
        end
      else if (c =? "[")%char then
        match skipSpace s' with
        | EmptyString => None
        | String c1 r =>
          if (c1 =? "]")%char then Some (Arr [], r)
          else withRest Arr (parseElements fuel' s')
        end
      else if (c =? dquote)%char then withRest Str (unquote (String.length s') s')
      else if (c =? "-")%char || isDigit c then scanNumber (String c s')
      else scanLiteral (String c s')
    end
  end
with parseElements (fuel : nat) (s : string) : option (list value * string) :=
  match fuel with
  | O => None
  | S fuel' =>
    match parseValue fuel' s with
    | None => None
    | Some (v, r) =>
      match skipSpace r with
      | EmptyString => None
      | String c r' =>
        if (c =? ",")%char then withRest (cons v) (parseElements fuel' r')
        else if (c =? "]")%char then Some ([v], r')
        else None
      end
    end
  end
with parseMembers (fuel : nat) (s : string) :
  option (list (string * value) * string) :=
  match fuel with
  | O => None
  | S fuel' =>
    match skipSpace s with
    | EmptyString => None
    | String c s1 =>
      if (c =? dquote)%char then
        match unquote (String.length s1) s1 with
        | None => None
        | Some (k, r) =>
          match skipSpace r with
          | EmptyString => None
          | String c2 r2 =>
            if (c2 =? ":")%char then
              match parseValue fuel' r2 with
              | None => None
              | Some (v, r3) =>
                match skipSpace r3 with
                | EmptyString => None
                | String c3 r4 =>
                  if (c3 =? ",")%char
                  then withRest (cons (k, v)) (parseMembers fuel' r4)
                  else if (c3 =? "}")%char then Some ([(k, v)], r4)
                  else None
                end
              end
            else None
          end
        end
      else None
    end
  end.

(** A whole document: one value, blanks around it, nothing else. Two units
    of fuel for each byte are enough for any nesting. *)
Definition parse (s : string) : option value :=
  match parseValue (2 * String.length s + 2) s with
  | Some (v, r) =>
    match skipSpace r with
    | EmptyString => Some v
    | String _ _ => None
    end
  | None => None
  end.


(** *** The encoding taken apart, for the proofs *)

(** What follows a value inside a document the encoder wrote. *)
Definition delim (rest : string) : bool :=
  match rest with
  | EmptyString => true
  | String c _ => ((c =? ",") || (c =? "]") || (c =? "}"))%char
  end.

(** The elements of an array and the members of an object as [encode]
    writes them between the brackets. *)
Fixpoint elementsOf (vs : list value) : string :=
  match vs with
  | [] => EmptyString
  | [v] => encode v
  | v :: vs' => encode v ++ "," ++ elementsOf vs'
  end.

Fixpoint membersOf (kvs : list (string * value)) : string :=
  match kvs with
  | [] => EmptyString
  | [(k, v)] => encodeString k ++ ":" ++ encode v
  | (k, v) :: kvs' => encodeString k ++ ":" ++ encode v ++ "," ++ membersOf kvs'
  end.

(** The fuel the parser spends on the encoding of a value. *)
Fixpoint weight (v : value) : nat :=
  match v with
  | Arr vs =>
    1 + (fix go (vs : list value) : nat :=
           match vs with
           | [] => 0
           | v :: vs' => 1 + weight v + go vs'
           end) vs
  | Obj kvs =>
    1 + (fix go (kvs : list (string * value)) : nat :=
           match kvs with
           | [] => 0
           | kv :: kvs' => 1 + weight (snd kv) + go kvs'
           end) kvs
  | _ => 1
  end.

Fixpoint weights (vs : list value) : nat :=
  match vs with
  | [] => 0
  | v :: vs' => 1 + weight v + weights vs'
  end.

Fixpoint memberWeights (kvs : list (string * value)) : nat :=
  match kvs with
  | [] => 0
  | kv :: kvs' => 1 + weight (snd kv) + memberWeights kvs'
  end.

(** What a successful run of the parser says about fuel. *)
Definition valueFuel (f : nat) : Prop :=
  forall s v r,
    parseValue f s = Some (v, r) ->
    (String.length r < String.length s)%nat
    /\ forall g, (2 * (String.length s - String.length r) <= g)%nat -> parseValue g s = Some (v, r).

Definition elementsFuel (f : nat) : Prop :=
  forall s vs r,
    parseElements f s = Some (vs, r) ->
    (String.length r + 2 <= String.length s)%nat
    /\ forall g, (2 * (String.length s - String.length r) <= g + 1)%nat -> parseElements g s = Some (vs, r).

Definition membersFuel (f : nat) : Prop :=
  forall s kvs r,
    parseMembers f s = Some (kvs, r) ->
    (String.length r + 2 <= String.length s)%nat
    /\ forall g, (2 * (String.length s - String.length r) <= g + 1)%nat -> parseMembers g s = Some (kvs, r).

End JSON.

(** ** The envelopes and the errors ([client.go]) *)

(** [rpcError]: the error member of a response. Go's [int] is 64 bits wide. *)
Record rpcError := { Code : Z; Message : string }.

(** [rpcError.Error]: [fmt.Sprintf("Error %d (%s)", err.Code, err.Message)]. *)
Definition rpcError_Error (err : rpcError) : string :=
  "Error " ++ JSON.encodeInt (Code err) ++ " (" ++ Message err ++ ")".

(** [json.RawMessage]: the bytes of one JSON value cut out of a checked
    document, or nil. The bytes are kept by the value they spell: parsing
    them again gives that value, and parsing a nil message fails. *)
Definition RawMessage := option JSON.value.

Record rpcResponse := {
  RespID : Z;
  RespJSONRPC : string;
  Result : RawMessage;
  Error : option rpcError
}.

(** A dynamic value passed as [interface{}]. *)
Inductive any :=
| AnyNil
| AnyBool (b : bool)
| AnyInt (n : Z)
| AnyString (s : string)
| AnyStrings (l : option (list string))   (* []string; [None] is the nil slice *)
| AnySlice (l : list any)                 (* []interface{}, not nil *)
| AnyChan.                                (* a channel: encoding/json has no encoding for it *)

Record rpcRequest := {
  ID : Z;
  JSONRPC : string;
  Method : string;
  Params : list any                       (* the variadic slice: [[]] is nil *)
}.

(** The dynamic types behind the [error] values the clients return. *)
Inductive error :=
| RPCError (e : rpcError)                 (* rpcError *)
| SyntaxError                             (* *json.SyntaxError *)
| UnmarshalTypeError (val typ : string)   (* *json.UnmarshalTypeError *)
| UnsupportedTypeError (typ : string)     (* *json.UnsupportedTypeError *)
| URLError (op url msg : string)          (* *url.Error, from http.Client.Post *)
| ReadError (msg : string)                (* a failed Read, from ioutil.ReadAll and io.Copy *)
| PathError (op path msg : string).       (* *os.PathError, from os.Open *)

(** *** json.Marshal of a request *)

Fixpoint valueOf (a : any) : error + JSON.value :=
  match a with
  | AnyNil => inr JSON.Null
  | AnyBool b => inr (JSON.Bool b)
  | AnyInt n => inr (JSON.Int n)
  | AnyString s => inr (JSON.Str s)
  | AnyStrings None => inr JSON.Null
  | AnyStrings (Some l) => inr (JSON.Arr (map JSON.Str l))
  | AnySlice l =>
    let fix all (l : list any) : error + list JSON.value :=
      match l with
      | [] => inr []
      | a :: l' =>
        match valueOf a with
        | inl e => inl e
        | inr v => match all l' with inl e => inl e | inr vs => inr (v :: vs) end
        end
      end in
    match all l with inl e => inl e | inr vs => inr (JSON.Arr vs) end
  | AnyChan => inl (UnsupportedTypeError "chan int")
  end.

Fixpoint valuesOf (l : list any) : error + list JSON.value :=
  match l with
  | [] => inr []
  | a :: l' =>
    match valueOf a with
    | inl e => inl e
    | inr v => match valuesOf l' with inl e => inl e | inr vs => inr (v :: vs) end
    end
  end.

(** The object of an [rpcRequest], its members in the order of the fields
    and under the names of their tags. A nil [Params] is written [null]. *)
Definition requestValue (r : rpcRequest) : error + JSON.value :=
  match valuesOf (Params r) with
  | inl e => inl e
  | inr vs =>
    inr (JSON.Obj [("id", JSON.Int (ID r));
                   ("jsonrpc", JSON.Str (JSONRPC r));
                   ("method", JSON.Str (Method r));
                   ("params", match vs with [] => JSON.Null | _ => JSON.Arr vs end)])
  end.

Definition Marshal (r : rpcRequest) : error + string :=
  match requestValue r with
  | inl e => inl e
  | inr v => inr (JSON.encode v)
  end.

(** *** json.Unmarshal into the types of the clients *)

Definition kindOf (v : JSON.value) : string :=
  match v with
  | JSON.Null => "null"
  | JSON.Bool _ => "bool"
  | JSON.Int _ | JSON.Float _ => "number"
  | JSON.Str _ => "string"
  | JSON.Arr _ => "array"
  | JSON.Obj _ => "object"
  end.

(** The decoder keeps the first error and goes on. *)
Definition orElse (e1 e2 : option error) : option error :=
  match e1 with Some _ => e1 | None => e2 end.

Definition upper (b : N) : N := N.land b 0xDF.

(** [equalFoldRight]: a field name made of ASCII letters against a key. The
    Kelvin sign matches [k] and the long s matches [s]. For names made of
    letters, as the tags here are, the other folding functions of
    encoding/json accept the same keys. *)
Fixpoint equalFold (s t : string) : bool :=
  match s with
  | EmptyString => match t with EmptyString => true | _ => false end
  | String sc s' =>
    match t with
    | EmptyString => false
    | String tc t' =>
      let sb := byte sc in
      let tb := byte tc in
      if (tb <? 0x80)%N then
        ((sb =? tb)%N
         || ((65 <=? upper sb)%N && (upper sb <=? 90)%N && (upper sb =? upper tb)%N))
        && equalFold s' t'
      else
        let (tr, size) := Utf8.DecodeRune t in
        if (upper sb =? 83)%N then (tr =? 0x17F)%N && equalFold s' (drop size t)
        else if (upper sb =? 75)%N then (tr =? 0x212A)%N && equalFold s' (drop size t)
        else false
    end
  end.

(** The field a key is stored in: the field of that name, or else the first
    field that matches the key by folding. *)
Definition findField (fields : list string) (key : string) : option string :=
  match find (String.eqb key) fields with
  | Some f => Some f
  | None => find (fun f => equalFold f key) fields
  end.

Definition fitsInt (z : Z) : bool :=
  (- 2 ^ 63 <=? z)%Z && (z <? 2 ^ 63)%Z.

(** Into an [int] that holds [cur]. *)
Definition intInto (v : JSON.value) (cur : Z) : Z * option error :=
  match v with
  | JSON.Null => (cur, None)
  | JSON.Int z =>
    if fitsInt z then (z, None) else (cur, Some (UnmarshalTypeError "number" "int"))
  | _ => (cur, Some (UnmarshalTypeError (kindOf v) "int"))
  end.

(** Into a [string] that holds [cur]. *)
Definition stringInto (v : JSON.value) (cur : string) : string * option error :=
  match v with
  | JSON.Null => (cur, None)
  | JSON.Str s => (s, None)
  | _ => (cur, Some (UnmarshalTypeError (kindOf v) "string"))
  end.

(** Into a [[]string]: the elements of an array, each decoded into a zero
    string. *)
Fixpoint stringsOf (vs : list JSON.value) : list string * option error :=
  match vs with
  | [] => ([], None)
  | v :: vs' =>
    let (s, e) := stringInto v EmptyString in
    let (l, e') := stringsOf vs' in
    (s :: l, orElse e e')
  end.

Definition stringsInto (v : JSON.value) (cur : option (list string)) :
  option (list string) * option error :=
  match v with
  | JSON.Null => (None, None)
  | JSON.Arr vs => let (l, e) := stringsOf vs in (Some l, e)
  | _ => (cur, Some (UnmarshalTypeError (kindOf v) "[]string"))
  end.

Definition rpcErrorMember (e : rpcError) (kv : string * JSON.value) :
  rpcError * option error :=
  let (k, v) := kv in
  match findField ["code"; "message"] k with
  | Some "code" =>
    let (c, err) := intInto v (Code e) in ({| Code := c; Message := Message e |}, err)
  | Some "message" =>
    let (m, err) := stringInto v (Message e) in ({| Code := Code e; Message := m |}, err)
  | _ => (e, None)
  end.

Fixpoint rpcErrorMembers (e : rpcError) (kvs : list (string * JSON.value)) :
  rpcError * option error :=
  match kvs with
  | [] => (e, None)
  | kv :: kvs' =>
    let (e1, err1) := rpcErrorMember e kv in
    let (e2, err2) := rpcErrorMembers e1 kvs' in
    (e2, orElse err1 err2)
  end.

(** Into a [*rpcError]: [null] sets the pointer to nil; anything else goes
    into the struct pointed to, allocated when the pointer is nil. *)
Definition rpcErrorInto (v : JSON.value) (cur : option rpcError) :
  option rpcError * option error :=
  let target := match cur with
                | Some e => e
                | None => {| Code := 0; Message := EmptyString |}
                end in
  match v with
  | JSON.Null => (None, None)
  | JSON.Obj kvs => let (e, err) := rpcErrorMembers target kvs in (Some e, err)
  | _ => (Some target, Some (UnmarshalTypeError (kindOf v) "crowdcompute.rpcError"))
  end.

Definition rpcResponseMember (r : rpcResponse) (kv : string * JSON.value) :
  rpcResponse * option error :=
  let (k, v) := kv in
  match findField ["id"; "jsonrpc"; "result"; "error"] k with
  | Some "id" =>
    let (i, err) := intInto v (RespID r) in
    ({| RespID := i; RespJSONRPC := RespJSONRPC r; Result := Result r; Error := Error r |}, err)
  | Some "jsonrpc" =>
    let (s, err) := stringInto v (RespJSONRPC r) in
    ({| RespID := RespID r; RespJSONRPC := s; Result := Result r; Error := Error r |}, err)
  | Some "result" =>
    (* RawMessage.UnmarshalJSON, also for null *)
    ({| RespID := RespID r; RespJSONRPC := RespJSONRPC r; Result := Some v; Error := Error r |},
     None)
  | Some "error" =>
    let (e, err) := rpcErrorInto v (Error r) in
    ({| RespID := RespID r; RespJSONRPC := RespJSONRPC r; Result := Result r; Error := e |}, err)
  | _ => (r, None)
  end.

Fixpoint rpcResponseMembers (r : rpcResponse) (kvs : list (string * JSON.value)) :
  rpcResponse * option error :=
  match kvs with
  | [] => (r, None)
  | kv :: kvs' =>
    let (r1, err1) := rpcResponseMember r kv in
    let (r2, err2) := rpcResponseMembers r1 kvs' in
    (r2, orElse err1 err2)
  end.

Definition rpcResponseInto (v : JSON.value) (cur : rpcResponse) :
  rpcResponse * option error :=
  match v with
  | JSON.Null => (cur, None)
  | JSON.Obj kvs => rpcResponseMembers cur kvs
  | _ => (cur, Some (UnmarshalTypeError (kindOf v) "crowdcompute.rpcResponse"))
  end.

(** [new(rpcResponse)]. *)
Definition newResponse : rpcResponse :=
  {| RespID := 0; RespJSONRPC := EmptyString; Result := None; Error := None |}.

(** [json.Unmarshal(data, resp)] on a new response: the text is checked
    first, then decoded. *)
Definition UnmarshalResponse (data : string) : rpcResponse * option error :=
  match JSON.parse data with
  | None => (newResponse, Some SyntaxError)
  | Some v => rpcResponseInto v newResponse
  end.

(** [json.Unmarshal(res, &s)] for a zero [s] of type string. A nil message
    is the empty text: unexpected end of JSON input. *)
Definition UnmarshalString (res : RawMessage) : string * option error :=
  match res with
  | None => (EmptyString, Some SyntaxError)
  | Some v => stringInto v EmptyString
  end.

(** [json.Unmarshal(res, &l)] for a nil [l] of type [[]string]. *)
Definition UnmarshalStrings (res : RawMessage) : option (list string) * option error :=
  match res with
  | None => (None, Some SyntaxError)
  | Some v => stringsInto v None
  end.

(** ** The world outside: HTTP, files, the process *)

(** [oauth2.Token], the two fields the clients set. *)
Record Token := { TokenType : string; AccessToken : string }.

(** [*http.Client]: [http.DefaultClient], or the client [oauth2.NewClient]
    builds around a static token source. *)
Inductive Client :=
| DefaultClient
| TokenClient (t : Token).

Definition oauth2_NewClient (t : Token) : Client := TokenClient t.

Definition lower (c : ascii) : ascii :=
  let b := byte c in
  if (65 <=? b)%N && (b <=? 90)%N then chr (b + 32) else c.

Fixpoint toLower (s : string) : string :=
  match s with
  | EmptyString => EmptyString
  | String c s' => String (lower c) (toLower s')
  end.

(** [Token.Type]: the name of the type as the header spells it. *)
Definition TypeOf (t : Token) : string :=
  if (toLower (TokenType t) =? "bearer")%string then "Bearer"
  else if (toLower (TokenType t) =? "mac")%string then "MAC"
  else if (toLower (TokenType t) =? "basic")%string then "Basic"
  else if (TokenType t =? EmptyString)%string then "Bearer"
  else TokenType t.

(** The [Authorization] header a client puts on a request:
    [oauth2.Transport] sets it from the token of its source, the default
    transport sets none. *)
Definition authorization (c : Client) : option string :=
  match c with
  | DefaultClient => None
  | TokenClient t => Some (TypeOf t ++ " " ++ AccessToken t)
  end.

(** One POST as it leaves the process. *)
Record Request := {
  URL : string;
  ContentType : string;
  Authorization : option string;
  Body : string
}.

(** What [ioutil.ReadAll] gets out of a response body. *)
Inductive bodyRead :=
| BodyData (data : string)
| BodyError (msg : string).

(** What [http.Client.Post] comes back with. *)
Inductive postResult :=
| PostError (msg : string)
| PostResponse (body : bodyRead).

(** What reading an opened file to its end gives. *)
Inductive fileRead :=
| FileData (data : string)
| FileError (msg : string).

Inductive openResult :=
| OpenError (msg : string)
| Opened (content : fileRead).

(** The environment of a run: the server answers a POST knowing the POSTs
    before it; the file system answers [os.Open]; [randomBoundary] is the
    boundary the n-th [multipart.NewWriter] draws. *)
Record world := {
  server : list Request -> Request -> postResult;
  files : string -> openResult;
  randomBoundary : nat -> string
}.

Inductive logLine :=
| Println (s : string)                      (* log.Println *)
| Fatalf (message : string) (err : error).  (* log.Fatalf("%s. ERROR: %v", message, err) *)

(** What a run has done so far. *)
Record effects := {
  posts : list Request;      (* the POSTs issued, oldest first *)
  logged : list logLine;     (* standard error, oldest first *)
  printed : list string;     (* standard output, oldest first *)
  writers : nat              (* multipart writers created *)
}.

Definition quiet : effects :=
  {| posts := []; logged := []; printed := []; writers := 0 |}.

(** A method on a receiver of type [S]: it returns a value and leaves a
    receiver, or the process exits ([os.Exit] under [log.Fatalf]). *)
Inductive outcome (S A : Type) : Type :=
| Returns (a : A) (self : S) (fx : effects)
| Exits (fx : effects).
Arguments Returns {S A} a self fx.
Arguments Exits {S A} fx.

Definition M (S A : Type) : Type := S -> effects -> outcome S A.

Definition ret {S A : Type} (a : A) : M S A :=
  fun self fx => Returns a self fx.

Definition bind {S A B : Type} (m : M S A) (k : A -> M S B) : M S B :=
  fun self fx =>
    match m self fx with
    | Returns a self' fx' => k a self' fx'
    | Exits fx' => Exits fx'
    end.

Declare Scope go_scope.
Delimit Scope go_scope with go.
Notation "x <- m ;; k" := (bind m (fun x => k))
  (at level 61, m at next level, right associativity) : go_scope.
Notation "' p <- m ;; k" := (bind m (fun p => k))
  (at level 61, p pattern, m at next level, right associativity) : go_scope.
Notation "m ;; k" := (bind m (fun _ => k))
  (at level 61, right associativity) : go_scope.
Local Open Scope go_scope.

Definition receiver {S : Type} : M S S :=
  fun self fx => Returns self self fx.

Definition assign {S : Type} (f : S -> S) : M S unit :=
  fun self fx => Returns tt (f self) fx.

Definition effectsOf {S A : Type} (o : outcome S A) : effects :=
  match o with
  | Returns _ _ fx => fx
  | Exits fx => fx
  end.

Section World.

Variable W : world.

(** [c.Post(url, contentType, body)]. *)
Definition Post {S : Type} (c : Client) (url contentType body : string) :
  M S postResult :=
  fun self fx =>
    let req := {| URL := url; ContentType := contentType;
                  Authorization := authorization c; Body := body |} in
    Returns (server W (posts fx) req) self
            {| posts := posts fx ++ [req]; logged := logged fx;
               printed := printed fx; writers := writers fx |}.

Definition log_Println {S : Type} (s : string) : M S unit :=
  fun self fx =>
    Returns tt self
            {| posts := posts fx; logged := logged fx ++ [Println s];
               printed := printed fx; writers := writers fx |}.

Definition log_Fatalf {S A : Type} (message : string) (err : error) : M S A :=
  fun self fx =>
    Exits {| posts := posts fx; logged := logged fx ++ [Fatalf message err];
             printed := printed fx; writers := writers fx |}.

Definition fmt_Println {S : Type} (s : string) : M S unit :=
  fun self fx =>
    Returns tt self
            {| posts := posts fx; logged := logged fx;
               printed := printed fx ++ [s]; writers := writers fx |}.

Definition os_Open {S : Type} (path : string) : M S openResult :=
  fun self fx => Returns (files W path) self fx.

(** [multipart.NewWriter]: a writer with a fresh boundary. *)
Definition multipart_NewWriter {S : Type} : M S string :=
  fun self fx =>
    Returns (randomBoundary W (writers fx)) self
            {| posts := posts fx; logged := logged fx;
               printed := printed fx; writers := 1 + writers fx |}.

(** ** client.go *)

Record CCClient := {
  url : string;
  client : Client;
  versionJSONRPC : string;
  Debug : bool
}.

Definition NewCCClient (url : string) : CCClient :=
  {| url := url; client := DefaultClient; versionJSONRPC := "2.0"; Debug := false |}.

Definition fatalIfErr {S : Type} (err : option error) (message : string) : M S unit :=
  match err with
  | Some e => log_Fatalf message e
  | None => ret tt
  end.

(** [rpc.client = c]. *)
Definition setClient (c : Client) : M CCClient unit :=
  assign (fun rpc => {| url := url rpc; client := c;
                        versionJSONRPC := versionJSONRPC rpc; Debug := Debug rpc |}).

Definition bearer (token : string) : Client :=
  oauth2_NewClient {| TokenType := "Bearer"; AccessToken := token |}.

Definition newline : string := str1 (chr 10).

(** [fmt.Sprintf("%s\nRequest: %s, \nResponse: %s\n", method, body, data)]. *)
Definition debugLine (method body data : string) : string :=
  method ++ newline ++ "Request: " ++ body ++ ", " ++ newline
         ++ "Response: " ++ data ++ newline.

(** [fmt.Sprintf("The result is not of type \"%T\" \n", x)]. *)
Definition notOfType (typ : string) : string :=
  "The result is not of type " ++ str1 dquote ++ typ ++ str1 dquote ++ " " ++ newline.

(** The request [call] builds. *)
Definition request (rpc : CCClient) (method : string) (params : list any) : rpcRequest :=
  {| ID := 1; JSONRPC := versionJSONRPC rpc; Method := method; Params := params |}.

(** [call]: the raw result of a method call. *)
Definition call (method : string) (params : list any) :
  M CCClient (RawMessage * option error) :=
  rpc <- receiver ;;
  match Marshal (request rpc method params) with
  | inl err => ret (None, Some err)
  | inr body =>
    response <- Post (client rpc) (url rpc) "application/json" body ;;
    match response with
    | PostError msg => ret (None, Some (URLError "Post" (url rpc) msg))
    | PostResponse (BodyError msg) => ret (None, Some (ReadError msg))
    | PostResponse (BodyData data) =>
      (if Debug rpc then log_Println (debugLine method body data) else ret tt) ;;
      let (resp, err) := UnmarshalResponse data in
      match err with
      | Some e => ret (None, Some e)
      | None =>
        match Error resp with
        | Some e => ret (None, Some (RPCError e))
        | None => ret (Result resp, None)
        end
      end
    end
  end.

(** ACCOUNTS *)
Definition CreateAccount (passphrase : string) : M CCClient (string * option error) :=
  '(res, err) <- call "accounts_createAccount" [AnyString passphrase] ;;
  let (account, unErr) := UnmarshalString res in
  fatalIfErr unErr (notOfType "string") ;;
  ret (account, err).

Definition UnlockAccount (acc passphrase : string) : M CCClient (string * option error) :=
  '(res, err) <- call "accounts_unlockAccount" [AnyString acc; AnyString passphrase] ;;
  let (token, unErr) := UnmarshalString res in
  fatalIfErr unErr (notOfType "string") ;;
  ret (token, err).

Definition LockAccount (account token : string) : M CCClient (option error) :=
  setClient (bearer token) ;;
  '(_, err) <- call "accounts_lockAccount" [AnyString account] ;;
  ret err.

Definition DeleteAccount (acc passphrase : string) : M CCClient (option error) :=
  '(_, err) <- call "accounts_deleteAccount" [AnyString acc; AnyString passphrase] ;;
  ret err.

Definition ListAccounts : M CCClient (option (list string) * option error) :=
  '(res, err) <- call "accounts_listAccounts" [] ;;
  let (accounts, unErr) := UnmarshalStrings res in
  fatalIfErr unErr (notOfType "[]string") ;;
  ret (accounts, err).

(** BOOTNODES *)
Definition GetBootnodes : M CCClient (option (list string) * option error) :=
  '(res, err) <- call "bootnodes_getBootnodes" [] ;;
  let (bootnodes, unErr) := UnmarshalStrings res in
  fatalIfErr unErr (notOfType "[]string") ;;
  ret (bootnodes, err).

Definition SetBootnodes (nodes : option (list string)) : M CCClient (option error) :=
  '(_, err) <- call "bootnodes_setBootnodes" [AnyStrings nodes] ;;
  ret err.

(** SWARM SERVICE *)
Definition RunSwarmService (service : string) (nodes : option (list string)) :
  M CCClient (option error) :=
  '(_, err) <- call "service_run" [AnyString service; AnyStrings nodes] ;;
  ret err.

Definition StopSwarmService (nodes : option (list string)) : M CCClient (option error) :=
  '(_, err) <- call "service_stop" [AnyStrings nodes] ;;
  ret err.

(** DISCOVER NODES *)
Definition DiscoverNodes (num : Z) : M CCClient (string * option error) :=
  '(res, err) <- call "discovery_discover" [AnyInt num] ;;
  let (msg, unErr) := UnmarshalString res in
  fatalIfErr unErr (notOfType "string") ;;
  ret (msg, err).

(** DOCKER IMAGE MANAGER *)
Definition LoadImageToNode (nodeID imageHash token : string) :
  M CCClient (string * option error) :=
  setClient (bearer token) ;;
  '(res, err) <- call "imagemanager_pushImage" [AnyString nodeID; AnyString imageHash] ;;
  let (imgID, unErr) := UnmarshalString res in
  fatalIfErr unErr (notOfType "string") ;;
  ret (imgID, err).

Definition ExecuteImage (nodeID dockImageID : string) : M CCClient (string * option error) :=
  '(res, err) <- call "imagemanager_runImage" [AnyString nodeID; AnyString dockImageID] ;;
  let (contID, unErr) := UnmarshalString res in
  fatalIfErr unErr (notOfType "string") ;;
  ret (contID, err).

Definition InspectContainer (nodeID containerID : string) :
  M CCClient (string * option error) :=
  '(res, err) <- call "imagemanager_inspectContainer"
                      [AnyString nodeID; AnyString containerID] ;;
  let (inspect, unErr) := UnmarshalString res in
  fatalIfErr unErr (notOfType "string") ;;
  ret (inspect, err).

Definition ListNodeImages (nodeID token : string) : M CCClient (string * option error) :=
  setClient (bearer token) ;;
  '(res, err) <- call "imagemanager_listImages" [AnyString nodeID] ;;
  let (list, unErr) := UnmarshalString res in
  fatalIfErr unErr (notOfType "string") ;;
  ret (list, err).

Definition ListNodeContainers (nodeID token : string) : M CCClient (string * option error) :=
  setClient (bearer token) ;;
  '(res, err) <- call "imagemanager_listContainers" [AnyString nodeID] ;;
  let (list, unErr) := UnmarshalString res in
  fatalIfErr unErr (notOfType "string") ;;
  ret (list, err).

(** LEVEL DB *)
Definition LvlDBStats : M CCClient (string * option error) :=
  '(res, err) <- call "lvldb_getDBStats" [] ;;
  let (stats, unErr) := UnmarshalString res in
  fatalIfErr unErr (notOfType "string") ;;
  ret (stats, err).

Definition LvlDBSelectImage (imageID : string) : M CCClient (string * option error) :=
  '(res, err) <- call "lvldb_selectImage" [AnyString imageID] ;;
  let (image, unErr) := UnmarshalString res in
  fatalIfErr unErr (notOfType "string") ;;
  ret (image, err).

Definition LvlDBSelectImageAccount (imageHash : string) : M CCClient (string * option error) :=
  '(res, err) <- call "lvldb_selectImageAccount" [AnyString imageHash] ;;
  let (image, unErr) := UnmarshalString res in
  fatalIfErr unErr (notOfType "string") ;;
  ret (image, err).

Definition LvlDBSelectType (typeName : string) : M CCClient (string * option error) :=
  '(res, err) <- call "lvldb_selectType" [AnyString typeName] ;;
  let (all, unErr) := UnmarshalString res in
  fatalIfErr unErr (notOfType "string") ;;
  ret (all, err).

Definition LvlDBSelectAll : M CCClient (string * option error) :=
  '(res, err) <- call "lvldb_selectAll" [] ;;
  let (all, unErr) := UnmarshalString res in
  fatalIfErr unErr (notOfType "string") ;;
  ret (all, err).

(** Every wrapper of [client.go] with its arguments, and what it hands back. *)
Inductive wrapper :=
| W_CreateAccount (passphrase : string)
| W_UnlockAccount (acc passphrase : string)
| W_LockAccount (account token : string)
| W_DeleteAccount (acc passphrase : string)
| W_ListAccounts
| W_GetBootnodes
| W_SetBootnodes (nodes : option (list string))
| W_RunSwarmService (service : string) (nodes : option (list string))
| W_StopSwarmService (nodes : option (list string))
| W_DiscoverNodes (num : Z)
| W_LoadImageToNode (nodeID imageHash token : string)
| W_ExecuteImage (nodeID dockImageID : string)
| W_InspectContainer (nodeID containerID : string)
| W_ListNodeImages (nodeID token : string)
| W_ListNodeContainers (nodeID token : string)
| W_LvlDBStats
| W_LvlDBSelectImage (imageID : string)
| W_LvlDBSelectImageAccount (imageHash : string)
| W_LvlDBSelectType (typeName : string)
| W_LvlDBSelectAll.

Inductive returned :=
| GotString (v : string) (err : option error)
| GotStrings (v : option (list string)) (err : option error)
| GotError (err : option error).

Definition gotString (r : string * option error) : returned :=
  GotString (fst r) (snd r).
Definition gotStrings (r : option (list string) * option error) : returned :=
  GotStrings (fst r) (snd r).

Definition fmap {S A B : Type} (f : A -> B) (m : M S A) : M S B :=
  a <- m ;; ret (f a).

Definition invoke (w : wrapper) : M CCClient returned :=
  match w with
  | W_CreateAccount passphrase => fmap gotString (CreateAccount passphrase)
  | W_UnlockAccount acc passphrase => fmap gotString (UnlockAccount acc passphrase)
  | W_LockAccount account token => fmap GotError (LockAccount account token)
  | W_DeleteAccount acc passphrase => fmap GotError (DeleteAccount acc passphrase)
  | W_ListAccounts => fmap gotStrings ListAccounts
  | W_GetBootnodes => fmap gotStrings GetBootnodes
  | W_SetBootnodes nodes => fmap GotError (SetBootnodes nodes)
  | W_RunSwarmService service nodes => fmap GotError (RunSwarmService service nodes)
  | W_StopSwarmService nodes => fmap GotError (StopSwarmService nodes)
  | W_DiscoverNodes num => fmap gotString (DiscoverNodes num)
  | W_LoadImageToNode nodeID imageHash token =>
    fmap gotString (LoadImageToNode nodeID imageHash token)
  | W_ExecuteImage nodeID dockImageID => fmap gotString (ExecuteImage nodeID dockImageID)
  | W_InspectContainer nodeID containerID =>
    fmap gotString (InspectContainer nodeID containerID)
  | W_ListNodeImages nodeID token => fmap gotString (ListNodeImages nodeID token)
  | W_ListNodeContainers nodeID token => fmap gotString (ListNodeContainers nodeID token)
  | W_LvlDBStats => fmap gotString LvlDBStats
  | W_LvlDBSelectImage imageID => fmap gotString (LvlDBSelectImage imageID)
  | W_LvlDBSelectImageAccount imageHash => fmap gotString (LvlDBSelectImageAccount imageHash)
  | W_LvlDBSelectType typeName => fmap gotString (LvlDBSelectType typeName)
  | W_LvlDBSelectAll => fmap gotString LvlDBSelectAll
  end.

(** Wrappers called one after the other on one client, until one exits. *)
Fixpoint invokeAll (ws : list wrapper) : M CCClient (list returned) :=
  match ws with
  | [] => ret []
  | w :: ws' => r <- invoke w ;; rs <- invokeAll ws' ;; ret (r :: rs)
  end.

(** ** file_upload_client.go *)

Record UploadClient := {
  upload_url : string;
  upload_client : Client;
  upload_Debug : bool
}.

Definition NewUploadClient (url : string) : UploadClient :=
  {| upload_url := url; upload_client := DefaultClient; upload_Debug := false |}.

(** [c.client = cl]. *)
Definition setUploadClient (cl : Client) : M UploadClient unit :=
  assign (fun c => {| upload_url := upload_url c; upload_client := cl;
                      upload_Debug := upload_Debug c |}).

Definition crlf : string := String (chr 13) (str1 (chr 10)).

(** [escapeQuotes] of mime/multipart. *)
Fixpoint escapeQuotes (s : string) : string :=
  match s with
  | EmptyString => EmptyString
  | String c s' =>
    if ((c =? backslash) || (c =? dquote))%char
    then String backslash (String c (escapeQuotes s'))
    else String c (escapeQuotes s')
  end.

(** [Writer.CreateFormFile] on a writer that has no part yet: the boundary
    line and the header of the part go into the buffer. A write into a
    [bytes.Buffer] returns no error. *)
Definition CreateFormFile (boundary fieldname filename buf : string) :
  string * option error :=
  (buf ++ "--" ++ boundary ++ crlf
       ++ "Content-Disposition: form-data; name=" ++ str1 dquote
       ++ escapeQuotes fieldname ++ str1 dquote ++ "; filename=" ++ str1 dquote
       ++ escapeQuotes filename ++ str1 dquote ++ crlf
       ++ "Content-Type: application/octet-stream" ++ crlf
       ++ crlf,
   None).

(** [Writer.FormDataContentType], for a boundary as [NewWriter] draws it
    (hexadecimal digits: nothing to quote). *)
Definition FormDataContentType (boundary : string) : string :=
  "multipart/form-data; boundary=" ++ boundary.

(** [Writer.Close]: the closing boundary line. *)
Definition closeWriter (boundary buf : string) : string :=
  buf ++ crlf ++ "--" ++ boundary ++ "--" ++ crlf.

Definition UploadFile (filename token : string) : M UploadClient (string * option error) :=
  setUploadClient (bearer token) ;;
  let bodyBuf := EmptyString in
  boundary <- multipart_NewWriter ;;
  let (bodyBuf, err) := CreateFormFile boundary "file" filename bodyBuf in
  match err with
  | Some e =>
    fmt_Println "error writing to buffer" ;;
    ret (EmptyString, Some e)
  | None =>
    fh <- os_Open filename ;;
    match fh with
    | OpenError msg =>
      fmt_Println "error opening file" ;;
      ret (EmptyString, Some (PathError "open" filename msg))
    | Opened (FileError msg) =>            (* io.Copy fails *)
      ret (EmptyString, Some (ReadError msg))
    | Opened (FileData data) =>
      let bodyBuf := bodyBuf ++ data in
      let contentType := FormDataContentType boundary in
      let bodyBuf := closeWriter boundary bodyBuf in
      c <- receiver ;;
      resp <- Post (upload_client c) (upload_url c) contentType bodyBuf ;;
      match resp with
      | PostError msg => ret (EmptyString, Some (URLError "Post" (upload_url c) msg))
      | PostResponse (BodyError msg) => ret (EmptyString, Some (ReadError msg))
      | PostResponse (BodyData respBody) => ret (respBody, None)
      end
    end
  end.

End World.

(** ** The wrappers at a glance

    What the claims say about every wrapper is stated over these tables;
    [invoke_unfold] below proves that each wrapper is the table's row. *)

(** The type a wrapper decodes the raw result into. *)
Inductive shape := AString | AStrings | Nothing.

Definition shapeOf (w : wrapper) : shape :=
  match w with
  | W_LockAccount _ _ | W_DeleteAccount _ _ | W_SetBootnodes _
  | W_RunSwarmService _ _ | W_StopSwarmService _ => Nothing
  | W_ListAccounts | W_GetBootnodes => AStrings
  | _ => AString
  end.

Definition methodOf (w : wrapper) : string :=
  match w with
  | W_CreateAccount _ => "accounts_createAccount"
  | W_UnlockAccount _ _ => "accounts_unlockAccount"
  | W_LockAccount _ _ => "accounts_lockAccount"
  | W_DeleteAccount _ _ => "accounts_deleteAccount"
  | W_ListAccounts => "accounts_listAccounts"
  | W_GetBootnodes => "bootnodes_getBootnodes"
  | W_SetBootnodes _ => "bootnodes_setBootnodes"
  | W_RunSwarmService _ _ => "service_run"
  | W_StopSwarmService _ => "service_stop"
  | W_DiscoverNodes _ => "discovery_discover"
  | W_LoadImageToNode _ _ _ => "imagemanager_pushImage"
  | W_ExecuteImage _ _ => "imagemanager_runImage"
  | W_InspectContainer _ _ => "imagemanager_inspectContainer"
  | W_ListNodeImages _ _ => "imagemanager_listImages"
  | W_ListNodeContainers _ _ => "imagemanager_listContainers"
  | W_LvlDBStats => "lvldb_getDBStats"
  | W_LvlDBSelectImage _ => "lvldb_selectImage"
  | W_LvlDBSelectImageAccount _ => "lvldb_selectImageAccount"
  | W_LvlDBSelectType _ => "lvldb_selectType"
  | W_LvlDBSelectAll => "lvldb_selectAll"
  end.

Definition paramsOf (w : wrapper) : list any :=
  match w with
  | W_CreateAccount passphrase => [AnyString passphrase]
  | W_UnlockAccount acc passphrase => [AnyString acc; AnyString passphrase]
  | W_LockAccount account _ => [AnyString account]
  | W_DeleteAccount acc passphrase => [AnyString acc; AnyString passphrase]
  | W_ListAccounts | W_GetBootnodes => []
  | W_SetBootnodes nodes => [AnyStrings nodes]
  | W_RunSwarmService service nodes => [AnyString service; AnyStrings nodes]
  | W_StopSwarmService nodes => [AnyStrings nodes]
  | W_DiscoverNodes num => [AnyInt num]
  | W_LoadImageToNode nodeID imageHash _ => [AnyString nodeID; AnyString imageHash]
  | W_ExecuteImage nodeID dockImageID => [AnyString nodeID; AnyString dockImageID]
  | W_InspectContainer nodeID containerID => [AnyString nodeID; AnyString containerID]
  | W_ListNodeImages nodeID _ => [AnyString nodeID]
  | W_ListNodeContainers nodeID _ => [AnyString nodeID]
  | W_LvlDBStats | W_LvlDBSelectAll => []
  | W_LvlDBSelectImage imageID => [AnyString imageID]
  | W_LvlDBSelectImageAccount imageHash => [AnyString imageHash]
  | W_LvlDBSelectType typeName => [AnyString typeName]
  end.

(** The token argument, for the wrappers that have one. *)
Definition tokenOf (w : wrapper) : option string :=
  match w with
  | W_LockAccount _ token | W_LoadImageToNode _ _ token
  | W_ListNodeImages _ token | W_ListNodeContainers _ token => Some token
  | _ => None
  end.

(** The container image wrappers: push, run, inspect, list images, list
    containers. *)
Definition imageLifecycle (w : wrapper) : bool :=
  match w with
  | W_LoadImageToNode _ _ _ | W_ExecuteImage _ _ | W_InspectContainer _ _
  | W_ListNodeImages _ _ | W_ListNodeContainers _ _ => true
  | _ => false
  end.

Definition withClient (c : Client) (rpc : CCClient) : CCClient :=
  {| url := url rpc; client := c; versionJSONRPC := versionJSONRPC rpc; Debug := Debug rpc |}.

(** The client as the wrapper leaves it before it calls. *)
Definition bound (w : wrapper) (rpc : CCClient) : CCClient :=
  match tokenOf w with
  | Some token => withClient (bearer token) rpc
  | None => rpc
  end.

(** The POST [call] issues for a request body. *)
Definition outgoing (rpc : CCClient) (body : string) : Request :=
  {| URL := url rpc; ContentType := "application/json";
     Authorization := authorization (client rpc); Body := body |}.

Definition sends (fx : effects) (req : Request) : effects :=
  {| posts := posts fx ++ [req]; logged := logged fx;
     printed := printed fx; writers := writers fx |}.

Definition logs (fx : effects) (l : logLine) : effects :=
  {| posts := posts fx; logged := logged fx ++ [l];
     printed := printed fx; writers := writers fx |}.

(** What the wrapper makes of the pair [call] returned: the value it hands
    back, and the error of decoding the raw result, when there is one. *)
Definition decode (sh : shape) (res : RawMessage) (err : option error) :
  returned * option error :=
  match sh with
  | AString => let (v, unErr) := UnmarshalString res in (GotString v err, unErr)
  | AStrings => let (v, unErr) := UnmarshalStrings res in (GotStrings v err, unErr)
  | Nothing => (GotError err, None)
  end.

Definition typeName (sh : shape) : string :=
  match sh with
  | AString => "string"
  | AStrings => "[]string"
  | Nothing => EmptyString
  end.

(** [rpc.Debug = d], the exported field set by the program. *)
Definition withDebug (d : bool) (rpc : CCClient) : CCClient :=
  {| url := url rpc; client := client rpc;
     versionJSONRPC := versionJSONRPC rpc; Debug := d |}.

(** [c.Debug = d] on an upload client. *)
Definition withUploadDebug (d : bool) (c : UploadClient) : UploadClient :=
  {| upload_url := upload_url c; upload_client := upload_client c; upload_Debug := d |}.

(** The error a wrapper hands back beside its value. *)
Definition errorOf (r : returned) : option error :=
  match r with
  | GotString _ err | GotStrings _ err | GotError err => err
  end.

(** The text of [params] for the wrappers called with nothing to send: no
    arguments, a nil list of nodes, an empty list of nodes. *)
Definition emptyParams (w : wrapper) : option string :=
  match paramsOf w with
  | [] => Some "null"
  | [AnyStrings None] => Some "[null]"
  | [AnyStrings (Some [])] => Some "[[]]"
  | _ => None
  end.

(** The clients a program can hold after [NewCCClient url]: wrappers have
    run on it and returned, and the exported field [Debug] may have been
    set. *)
Inductive constructed (W : world) (u : string) : CCClient -> Prop :=
| constructed_new : constructed W u (NewCCClient u)
| constructed_invoke w rpc fx r rpc' fx' :
    constructed W u rpc ->
    invoke W w rpc fx = Returns r rpc' fx' ->
    constructed W u rpc'
| constructed_debug rpc d :
    constructed W u rpc ->
    constructed W u
      {| url := url rpc; client := client rpc;
         versionJSONRPC := versionJSONRPC rpc; Debug := d |}.

(** What [call] makes of the body of a response. *)
Definition interpret (data : string) : RawMessage * option error :=
  let (resp, err) := UnmarshalResponse data in
  match err with
  | Some e => (None, Some e)
  | None =>
    match Error resp with
    | Some e => (None, Some (RPCError e))
    | None => (Result resp, None)
    end
  end.

(** The effects of a [call] that got [data] back for [body]. *)
Definition answered (rpc : CCClient) (fx : effects) (method body data : string) : effects :=
  if Debug rpc
  then logs (sends fx (outgoing rpc body)) (Println (debugLine method body data))
  else sends fx (outgoing rpc body).

(** ** Reading a request back

    The repository holds no parser of requests. The round trip of the
    specification is [json.Unmarshal] of the body into a new [rpcRequest]
    ([client.go], lines 71-76): [ID] is read into an [int], [JSONRPC] and
    [Method] into strings, and [Params] into a [[]interface{}], in which
    encoding/json stores nil, [bool], [float64], [string], [[]interface{}]
    and [map[string]interface{}] values. *)

(** A [float64] by the number it holds, a rational in lowest terms. The two
    zeros are one number here; infinities come up as range errors only. *)
Definition float64 : Set := QArith_base.Q.

(** The integer nearest to [a / b], for [0 < b]; of two integers as near,
    the even one. *)
Definition nearestEven (a b : Z) : Z :=
  let q := (a / b)%Z in
  let r := (a mod b)%Z in
  if (2 * r <? b)%Z then q
  else if (b <? 2 * r)%Z then (q + 1)%Z
  else if Z.even q then q else (q + 1)%Z.

(** The integer part of the binary logarithm of [p / q], for [0 < p] and
    [0 < q]. *)
Definition log2Ratio (p q : Z) : Z :=
  let k := (Z.log2 p - Z.log2 q)%Z in
  if (0 <=? k)%Z
  then (if (p <? q * 2 ^ k)%Z then k - 1 else k)%Z
  else (if (p * 2 ^ (- k) <? q)%Z then k - 1 else k)%Z.

(** The [float64] nearest to [p / q], for [0 < q], as IEEE 754 rounds to
    nearest, ties to even: 53 bits of mantissa [m] at the exponent [e], no
    exponent under -1074; [None] when the rounded number is out of range
    (2^1024 and above). *)
Definition round64 (p q : Z) : option float64 :=
  if (p =? 0)%Z then Some (QArith_base.Qmake 0 1)
  else
    let a := Z.abs p in
    let e := Z.max (log2Ratio a q - 52) (- 1074) in
    let m := if (0 <=? e)%Z then nearestEven a (q * 2 ^ e)
             else nearestEven (a * 2 ^ (- e)) q in
    if (0 <=? e)%Z && (2 ^ 1024 <=? m * 2 ^ e)%Z then None
    else Some (Qreduction.Qred
                 (if (0 <=? e)%Z then QArith_base.Qmake (Z.sgn p * m * 2 ^ e) 1
                  else QArith_base.Qmake (Z.sgn p * m) (Z.to_pos (2 ^ (- e))))).

(** [strconv.ParseFloat(lit, 64)] for a number as JSON spells it: a sign,
    digits, a fraction, an exponent. The nearest [float64], or a range
    error. *)
Definition ParseFloat (lit : string) : option float64 :=
  let (neg, s1) := match lit with
                   | String c r => if (c =? "-")%char then (true, r) else (false, lit)
                   | EmptyString => (false, lit)
                   end in
  let (int, s2) := JSON.scanDigits s1 in
  let (frac, s3) := match s2 with
                    | String c r =>
                      if (c =? ".")%char then JSON.scanDigits r else (Decimal.Nil, s2)
                    | EmptyString => (Decimal.Nil, s2)
                    end in
  let digitsOf (s : string) : Z := Z.of_N (N.of_uint (fst (JSON.scanDigits s))) in
  let exp := match s3 with
             | String _ (String g r as r0) =>        (* after [e] or [E] *)
               if (g =? "-")%char then (- digitsOf r)%Z
               else if (g =? "+")%char then digitsOf r
               else digitsOf r0
             | _ => 0%Z
             end in
  let m := Z.of_N (N.of_uint (Decimal.app int frac)) in
  let m := if neg then (- m)%Z else m in
  let e := (exp - Z.of_nat (Decimal.nb_digits frac))%Z in
  if (0 <=? e)%Z then round64 (m * 10 ^ e) 1 else round64 m (10 ^ (- e)).

(** What [json.Unmarshal] stores in an [interface{}]. *)
Inductive read :=
| RNil
| RBool (b : bool)
| RNumber (x : float64)
| RString (s : string)
| RSlice (l : list read)                  (* []interface{}, not nil *)
| RMap (m : list (string * read)).        (* map[string]interface{}: one entry for a key *)

(** [m[k] = r]. *)
Fixpoint setKey (k : string) (r : read) (m : list (string * read)) : list (string * read) :=
  match m with
  | [] => [(k, r)]
  | (k', r') :: m' =>
    if (k =? k')%string then (k, r) :: m' else (k', r') :: setKey k r m'
  end.

(** [convertNumber]: the [float64] of a literal, or the error of its range
    beside a nil. *)
Definition convertNumber (f : option float64) (lit : string) : read * option error :=
  match f with
  | Some x => (RNumber x, None)
  | None => (RNil, Some (UnmarshalTypeError ("number " ++ lit) "float64"))
  end.

(** [valueInterface]: a JSON value as a new [interface{}]. The decoder keeps
    the first error and goes on. *)
Fixpoint interfaceOf (v : JSON.value) : read * option error :=
  match v with
  | JSON.Null => (RNil, None)
  | JSON.Bool b => (RBool b, None)
  | JSON.Int z => convertNumber (round64 z 1) (JSON.encodeInt z)
  | JSON.Float lit => convertNumber (ParseFloat lit) lit
  | JSON.Str s => (RString s, None)
  | JSON.Arr vs =>
    let fix all (vs : list JSON.value) : list read * option error :=
      match vs with
      | [] => ([], None)
      | v :: vs' =>
        let (r, e) := interfaceOf v in
        let (l, e') := all vs' in
        (r :: l, orElse e e')
      end in
    let (l, e) := all vs in (RSlice l, e)
  | JSON.Obj kvs =>
    let fix all (kvs : list (string * JSON.value)) (m : list (string * read)) :
      list (string * read) * option error :=
      match kvs with
      | [] => (m, None)
      | (k, v) :: kvs' =>
        let (r, e) := interfaceOf v in
        let (m', e') := all kvs' (setKey k r m) in
        (m', orElse e e')
      end in
    let (m, e) := all kvs [] in (RMap m, e)
  end.

(** [interfaceOf] along the elements of an array, for the proofs. *)
Fixpoint interfacesOf (vs : list JSON.value) : list read * option error :=
  match vs with
  | [] => ([], None)
  | v :: vs' =>
    let (r, e) := interfaceOf v in
    let (l, e') := interfacesOf vs' in
    (r :: l, orElse e e')
  end.

(** Into an element of a [[]interface{}] that holds [old]: a number out of
    range leaves the element as it is. *)
Definition elementInto (v : JSON.value) (old : read) : read * option error :=
  match v with
  | JSON.Int _ | JSON.Float _ =>
    match interfaceOf v with
    | (_, Some e) => (old, Some e)
    | r => r
    end
  | _ => interfaceOf v
  end.

(** The elements of an array into a slice that holds [old]; the elements
    the slice grows by are nil before they are read. *)
Fixpoint elementsInto (vs : list JSON.value) (old : list read) : list read * option error :=
  match vs with
  | [] => ([], None)
  | v :: vs' =>
    let (r, e) := elementInto v (hd RNil old) in
    let (l, e') := elementsInto vs' (tl old) in
    (r :: l, orElse e e')
  end.

Record readRequest := {
  ReadID : Z;
  ReadJSONRPC : string;
  ReadMethod : string;
  ReadParams : option (list read)         (* [None] is the nil slice *)
}.

(** Into a [[]interface{}]. *)
Definition paramsInto (v : JSON.value) (cur : option (list read)) :
  option (list read) * option error :=
  match v with
  | JSON.Null => (None, None)
  | JSON.Arr vs =>
    let (l, e) := elementsInto vs (match cur with Some l => l | None => [] end) in
    (Some l, e)
  | _ => (cur, Some (UnmarshalTypeError (kindOf v) "[]interface {}"))
  end.

Definition readRequestMember (r : readRequest) (kv : string * JSON.value) :
  readRequest * option error :=
  let (k, v) := kv in
  match findField ["id"; "jsonrpc"; "method"; "params"] k with
  | Some "id" =>
    let (i, err) := intInto v (ReadID r) in
    ({| ReadID := i; ReadJSONRPC := ReadJSONRPC r;
        ReadMethod := ReadMethod r; ReadParams := ReadParams r |}, err)
  | Some "jsonrpc" =>
    let (s, err) := stringInto v (ReadJSONRPC r) in
    ({| ReadID := ReadID r; ReadJSONRPC := s;
        ReadMethod := ReadMethod r; ReadParams := ReadParams r |}, err)
  | Some "method" =>
    let (s, err) := stringInto v (ReadMethod r) in
    ({| ReadID := ReadID r; ReadJSONRPC := ReadJSONRPC r;
        ReadMethod := s; ReadParams := ReadParams r |}, err)
  | Some "params" =>
    let (ps, err) := paramsInto v (ReadParams r) in
    ({| ReadID := ReadID r; ReadJSONRPC := ReadJSONRPC r;
        ReadMethod := ReadMethod r; ReadParams := ps |}, err)
  | _ => (r, None)
  end.

Fixpoint readRequestMembers (r : readRequest) (kvs : list (string * JSON.value)) :
  readRequest * option error :=
  match kvs with
  | [] => (r, None)
  | kv :: kvs' =>
    let (r1, err1) := readRequestMember r kv in
    let (r2, err2) := readRequestMembers r1 kvs' in
    (r2, orElse err1 err2)
  end.

(** [json.Unmarshal(data, &r)] for a zero [r] of type [rpcRequest]. *)
Definition UnmarshalRequest (data : string) : readRequest * option error :=
  let zero := {| ReadID := 0; ReadJSONRPC := EmptyString;
                 ReadMethod := EmptyString; ReadParams := None |} in
  match JSON.parse data with
  | None => (zero, Some SyntaxError)
  | Some (JSON.Obj kvs) => readRequestMembers zero kvs
  | Some JSON.Null => (zero, None)
  | Some v => (zero, Some (UnmarshalTypeError (kindOf v) "crowdcompute.rpcRequest"))
  end.

(** A parameter as a value read back: the same boolean, number, string or
    list. An [int] is a [float64] there and a [[]string] a
    [[]interface{}]; a nil [[]string] is a nil. (A channel has no encoding
    and is never read back.) *)
Fixpoint readOf (a : any) : read :=
  match a with
  | AnyNil => RNil
  | AnyBool b => RBool b
  | AnyInt n => RNumber (QArith_base.inject_Z n)
  | AnyString s => RString s
  | AnyStrings None => RNil
  | AnyStrings (Some l) => RSlice (map RString l)
  | AnySlice l => RSlice (map readOf l)
  | AnyChan => RNil
  end.

(** The parameters of a request as a slice read back: nil when there are
    none. *)
Definition paramsRead (params : list any) : option (list read) :=
  match params with
  | [] => None
  | _ => Some (map readOf params)
  end.

(** Every integer in the parameter is at most 2^53 in magnitude: a
    [float64] holds each of these integers exactly. *)
Fixpoint float64Exact (a : any) : bool :=
  match a with
  | AnyInt n => (Z.abs n <=? 2 ^ 53)%Z
  | AnySlice l => forallb float64Exact l
  | _ => true
  end.

(** A string as encoding/json writes it: every byte that starts no valid
    UTF-8 encoding replaced by U+FFFD. *)
Fixpoint coerceFrom (fuel : nat) (s : string) : string :=
  match fuel, s with
  | S fuel', String c tl =>
    let (r, size) := Utf8.DecodeRune s in
    if (r =? Utf8.RuneError)%N && (size =? 1)%nat
    then Utf8.EncodeRune Utf8.RuneError ++ coerceFrom fuel' tl
    else take size s ++ coerceFrom fuel' (drop size s)
  | _, _ => EmptyString
  end.

Definition coerce (s : string) : string := coerceFrom (String.length s) s.

(** A value with every string in it coerced. *)
Fixpoint coerced (v : JSON.value) : JSON.value :=
  match v with
  | JSON.Str s => JSON.Str (coerce s)
  | JSON.Arr vs => JSON.Arr (map coerced vs)
  | JSON.Obj kvs => JSON.Obj (map (fun kv => (coerce (fst kv), coerced (snd kv))) kvs)
  | _ => v
  end.

(** Every string in a value is valid UTF-8. *)
Fixpoint validText (v : JSON.value) : bool :=
  match v with
  | JSON.Str s => Utf8.ValidString s
  | JSON.Arr vs => forallb validText vs
  | JSON.Obj kvs => forallb (fun kv => Utf8.ValidString (fst kv) && validText (snd kv)) kvs
  | _ => true
  end.

(** No number in the value is kept as written. *)
Fixpoint exact (v : JSON.value) : bool :=
  match v with
  | JSON.Float _ => false
  | JSON.Arr vs => forallb exact vs
  | JSON.Obj kvs => forallb (fun kv => exact (snd kv)) kvs
  | _ => true
  end.

(** The parser reads the encoding of [v] back, given the fuel. *)
Definition parsesBack (v : JSON.value) : Prop :=
  exact v = true ->
  forall fuel rest,
    JSON.weight v <= fuel -> JSON.delim rest = true ->
    JSON.parseValue fuel (JSON.encode v ++ rest) = Some (coerced v, rest).

(** ** Worlds and texts for the scenarios *)

(** A text with [dquote] for every apostrophe. *)
Fixpoint quoted (s : string) : string :=
  match s with
  | EmptyString => EmptyString
  | String c s' => String (if (c =? "'")%char then dquote else c) (quoted s')
  end.

(** A server that answers every POST with [body]; no file can be opened. *)
Definition answering (body : string) : world :=
  {| server := fun _ _ => PostResponse (BodyData body);
     files := fun _ => OpenError "no such file or directory";
     randomBoundary := fun _ => "0123456789abcdef" |}.

Definition node : string := "http://localhost:8085".

(** The response objects of JSON-RPC as a server writes them, with the
    members [rpcResponse] has tags for: a result, or an error beside a
    result or without one. *)
Definition resultEnvelope (version : string) (id result : JSON.value) : JSON.value :=
  JSON.Obj [("jsonrpc", JSON.Str version); ("id", id); ("result", result)].

Definition errorEnvelope (version : string) (id : JSON.value) (result : option JSON.value)
           (code : Z) (message : string) : JSON.value :=
  JSON.Obj ([("jsonrpc", JSON.Str version); ("id", id)]
              ++ match result with Some v => [("result", v)] | None => [] end
              ++ [("error", JSON.Obj [("code", JSON.Int code);
                                      ("message", JSON.Str message)])]).

(** The server answers the POST that comes after [sent], whatever it is,
    with a body that is a JSON text of the value [v]. *)
Definition answers (W : world) (sent : list Request) (v : JSON.value) : Prop :=
  exists data,
    JSON.parse data = Some v
    /\ forall req, server W sent req = PostResponse (BodyData data).

(** A server that cannot be reached. *)
Definition unreachable (msg : string) : world :=
  {| server := fun _ _ => PostError msg;
     files := fun _ => OpenError "no such file or directory";
     randomBoundary := fun _ => "0123456789abcdef" |}.


(** ** Tactics *)

Ltac cases_N :=
  repeat match goal with
         | |- context [(?a <? ?b)%N] => destruct (N.ltb_spec a b); try lia
         | |- context [(?a <=? ?b)%N] => destruct (N.leb_spec a b); try lia
         | |- context [(?a =? ?b)%N] => destruct (N.eqb_spec a b); try lia
         end.

Ltac conds :=
  repeat match goal with
         | E : ?c = _ |- context [?c] => rewrite E
         end.

Ltac stepK :=
  match goal with
  | K : forall x s2, _ -> _ -> _ /\ _, H : JSON.prepend ?x (JSON.unquote _ ?s2) = _ |- _ =>
    destruct (K x s2) as [Hr Hg]; [cbn [String.length] in *; lia | exact H | ]
  end.

Ltac lens := cbn [String.length] in *; lia.

(** * Properties *)

(** ** Strings, bytes and bit fields *)

Lemma length_append (a b : string) :
  String.length (a ++ b) = String.length a + String.length b.
Proof. induction a as [|c a IH]; cbn; [reflexivity | now rewrite IH]. Qed.

Lemma append_assoc (a b c : string) : (a ++ b) ++ c = a ++ b ++ c.
Proof. induction a as [|x a IH]; cbn; [reflexivity | now rewrite IH]. Qed.

Lemma append_nil_r (a : string) : a ++ EmptyString = a.
Proof. induction a as [|x a IH]; cbn; [reflexivity | now rewrite IH]. Qed.

Lemma take_drop (n : nat) (s : string) : take n s ++ drop n s = s.
Proof.
  revert s. induction n as [|n IH]; intros [|c s]; cbn; try reflexivity.
  now rewrite IH.
Qed.

Lemma length_take (n : nat) (s : string) :
  n <= String.length s -> String.length (take n s) = n.
Proof.
  revert s. induction n as [|n IH]; intros [|c s]; cbn; intros H; try reflexivity; try lia.
  rewrite IH; lia.
Qed.

Lemma length_drop (n : nat) (s : string) :
  String.length (drop n s) = String.length s - n.
Proof.
  revert s. induction n as [|n IH]; intros [|c s]; cbn; try reflexivity. apply IH.
Qed.

Lemma drop_append (a b : string) : drop (String.length a) (a ++ b) = b.
Proof. induction a as [|c a IH]; cbn; [now destruct b | exact IH]. Qed.

Lemma take_append (a b : string) : take (String.length a) (a ++ b) = a.
Proof. induction a as [|c a IH]; cbn; [now destruct b | now rewrite IH]. Qed.

(** ** Facts about bytes *)

Lemma byte_lt (c : ascii) : (byte c < 256)%N.
Proof. apply N_ascii_bounded. Qed.

Lemma chr_byte (c : ascii) : chr (byte c) = c.
Proof.
  unfold chr, byte. rewrite N.mod_small by apply N_ascii_bounded.
  apply ascii_N_embedding.
Qed.

Lemma byte_chr (n : N) : (n < 256)%N -> byte (chr n) = n.
Proof.
  intros H. unfold chr, byte. rewrite N.mod_small by exact H.
  now apply N_ascii_embedding.
Qed.

(** A statement about every byte, checked on the 256 of them. *)
Lemma forall_byte (P : ascii -> bool) :
  forallb (fun n => P (ascii_of_nat n)) (seq 0 256) = true -> forall c, P c = true.
Proof.
  intros H c. rewrite forallb_forall in H.
  rewrite <- (ascii_nat_embedding c). apply H. apply in_seq.
  pose proof (nat_ascii_bounded c). lia.
Qed.

(** ** Bit fields *)

Lemma land_shiftl_low (x y : N) (k : N) :
  (y < 2 ^ k)%N -> N.land (N.shiftl x k) y = 0%N.
Proof.
  intros Hy. apply N.bits_inj. intros n. rewrite N.land_spec, N.bits_0.
  destruct (N.ltb_spec n k) as [Hn|Hn].
  - rewrite N.shiftl_spec_low by exact Hn. reflexivity.
  - rewrite <- (N.mod_small y (2 ^ k)) by exact Hy.
    rewrite N.mod_pow2_bits_high by exact Hn. apply andb_false_r.
Qed.

Lemma pack (x y k : N) :
  (y < 2 ^ k)%N -> N.lor (N.shiftl x k) y = (x * 2 ^ k + y)%N.
Proof.
  intros Hy. rewrite <- N.lxor_lor by now apply land_shiftl_low.
  rewrite <- N.add_nocarry_lxor by now apply land_shiftl_low.
  now rewrite N.shiftl_mul_pow2.
Qed.

Lemma unpack_high (x y k : N) :
  (y < 2 ^ k)%N -> N.shiftr (x * 2 ^ k + y) k = x.
Proof.
  intros Hy. rewrite N.shiftr_div_pow2.
  rewrite N.div_add_l by (apply N.pow_nonzero; discriminate).
  rewrite N.div_small by exact Hy. apply N.add_0_r.
Qed.

Lemma unpack_low (x y k : N) :
  (y < 2 ^ k)%N -> N.land (x * 2 ^ k + y) (N.ones k) = y.
Proof.
  intros Hy. rewrite N.land_ones, N.add_comm, N.Div0.mod_add.
  now apply N.mod_small.
Qed.

(** ** UTF-8: encoding inverts decoding *)

Module Utf8Facts.
Import Utf8.

Lemma decode2 c0 c1 t :
  valid2 c0 c1 -> DecodeRune (String c0 (String c1 t)) = (rune2 c0 c1, 2).
Proof.
  intros [H0 H1]. unfold cont in *. unfold DecodeRune, first, outside, rune2.
  cases_N; reflexivity.
Qed.

Lemma decode3 c0 c1 c2 t :
  valid3 c0 c1 c2 -> DecodeRune (String c0 (String c1 (String c2 t))) = (rune3 c0 c1 c2, 3).
Proof.
  intros (H0 & H1 & H2 & Ha & Hb). unfold cont in *.
  unfold DecodeRune, first, outside, rune3, locb, hicb.
  cases_N; reflexivity.
Qed.

Lemma decode4 c0 c1 c2 c3 t :
  valid4 c0 c1 c2 c3 ->
  DecodeRune (String c0 (String c1 (String c2 (String c3 t)))) = (rune4 c0 c1 c2 c3, 4).
Proof.
  intros (H0 & H1 & H2 & H3 & Ha & Hb). unfold cont in *.
  unfold DecodeRune, first, outside, rune4, locb, hicb.
  cases_N; reflexivity.
Qed.

Lemma DecodeRune_multibyte c0 t r size :
  (0x80 <= byte c0)%N ->
  DecodeRune (String c0 t) = (r, size) ->
  decoded (String c0 t) r size.
Proof.
  intros Hc. unfold DecodeRune.
  pose proof (byte_lt c0) as B0.
  destruct (first (byte c0)) as [| |sz lo hi] eqn:F.
  - exfalso. revert F. unfold first. cases_N; discriminate.
  - intros E. inversion E. now apply decoded_invalid.
  - destruct (String.length (String c0 t) <? sz)%nat eqn:L;
      [intros E; inversion E; now apply decoded_invalid|].
    destruct t as [|c1 t1]; [intros E; inversion E; now apply decoded_invalid|].
    destruct (outside lo hi (byte c1)) eqn:O1;
      [intros E; inversion E; now apply decoded_invalid|].
    assert (Hc1 : (lo <= byte c1 <= hi)%N).
    { unfold outside in O1. apply orb_false_elim in O1 as [Oa Ob].
      apply N.ltb_ge in Oa, Ob. lia. }
    destruct (sz <=? 2)%nat eqn:S2.
    { intros E. inversion E. apply (decoded2 _ _ _ c0 c1 t1); try reflexivity.
      revert F S2. unfold first, valid2, cont.
      cases_N; intros F; inversion F; subst; try discriminate; intros _; lia. }
    destruct t1 as [|c2 t2]; [intros E; inversion E; now apply decoded_invalid|].
    destruct (outside locb hicb (byte c2)) eqn:O2;
      [intros E; inversion E; now apply decoded_invalid|].
    assert (Hc2 : cont c2).
    { unfold outside, locb, hicb in O2. apply orb_false_elim in O2 as [Oa Ob].
      apply N.ltb_ge in Oa, Ob. unfold cont. lia. }
    destruct (sz <=? 3)%nat eqn:S3.
    { intros E. inversion E. apply (decoded3 _ _ _ c0 c1 c2 t2); try reflexivity.
      revert F S2 S3 Hc2. unfold first, valid3, cont.
      cases_N; intros F; inversion F; subst; try discriminate; intros _ _ Hc2; lia. }
    destruct t2 as [|c3 t3]; [intros E; inversion E; now apply decoded_invalid|].
    destruct (outside locb hicb (byte c3)) eqn:O3;
      [intros E; inversion E; now apply decoded_invalid|].
    assert (Hc3 : cont c3).
    { unfold outside, locb, hicb in O3. apply orb_false_elim in O3 as [Oa Ob].
      apply N.ltb_ge in Oa, Ob. unfold cont. lia. }
    intros E. inversion E. apply (decoded4 _ _ _ c0 c1 c2 c3 t3); try reflexivity.
    revert F S2 S3 Hc2 Hc3. unfold first, valid4, cont.
    cases_N; intros F; inversion F; subst; try discriminate; intros _ _ Hc2 Hc3; lia.
Qed.

Lemma pack2 (a x : N) :
  (x < 64)%N -> N.lor (N.shiftl a 6) x = (a * 64 + x)%N.
Proof. intros H. now rewrite (pack a x 6) by exact H. Qed.

Lemma pack3 (a x y : N) :
  (x < 64)%N -> (y < 64)%N ->
  N.lor (N.lor (N.shiftl a 12) (N.shiftl x 6)) y = ((a * 64 + x) * 64 + y)%N.
Proof.
  intros Hx Hy.
  assert (E : N.lor (N.shiftl a 12) (N.shiftl x 6) = N.shiftl (N.lor (N.shiftl a 6) x) 6).
  { rewrite N.shiftl_lor, N.shiftl_shiftl. reflexivity. }
  rewrite E, (pack2 a x Hx). now apply pack2.
Qed.

Lemma pack4 (a x y z : N) :
  (x < 64)%N -> (y < 64)%N -> (z < 64)%N ->
  N.lor (N.lor (N.lor (N.shiftl a 18) (N.shiftl x 12)) (N.shiftl y 6)) z
  = (((a * 64 + x) * 64 + y) * 64 + z)%N.
Proof.
  intros Hx Hy Hz.
  assert (E : N.lor (N.lor (N.shiftl a 18) (N.shiftl x 12)) (N.shiftl y 6)
              = N.shiftl (N.lor (N.lor (N.shiftl a 12) (N.shiftl x 6)) y) 6).
  { rewrite !N.shiftl_lor, !N.shiftl_shiftl. reflexivity. }
  rewrite E, (pack3 a x y Hx Hy). now apply pack2.
Qed.

Lemma field_low (a x : N) : (x < 64)%N -> N.land (a * 64 + x) maskx = x.
Proof. intros H. change maskx with (N.ones 6). now apply (unpack_low a x 6). Qed.

Lemma field_high (a x : N) : (x < 64)%N -> N.shiftr (a * 64 + x) 6 = a.
Proof. intros H. now apply (unpack_high a x 6). Qed.

Lemma field_high2 (a x y : N) :
  (x < 64)%N -> (y < 64)%N -> N.shiftr ((a * 64 + x) * 64 + y) 12 = a.
Proof.
  intros Hx Hy. change 12%N with (6 + 6)%N.
  rewrite <- N.shiftr_shiftr, field_high by exact Hy. now apply field_high.
Qed.

Lemma field_high3 (a x y z : N) :
  (x < 64)%N -> (y < 64)%N -> (z < 64)%N ->
  N.shiftr (((a * 64 + x) * 64 + y) * 64 + z) 18 = a.
Proof.
  intros Hx Hy Hz. change 18%N with (6 + 12)%N.
  rewrite <- N.shiftr_shiftr, field_high by exact Hz. now apply field_high2.
Qed.

Lemma cont_bits_b :
  forall c, (implb ((0x80 <=? byte c) && (byte c <=? 0xBF))
                   ((N.land (byte c) maskx =? byte c - 0x80)
                    && (N.lor 0x80 (byte c - 0x80) =? byte c)))%N = true.
Proof. apply forall_byte. vm_compute. reflexivity. Qed.

Lemma cont_bits c :
  cont c ->
  N.land (byte c) maskx = (byte c - 0x80)%N /\ N.lor 0x80 (byte c - 0x80) = byte c.
Proof.
  intros [Ha Hb]. pose proof (cont_bits_b c) as H.
  apply N.leb_le in Ha, Hb. rewrite Ha, Hb in H. cbn [andb implb] in H.
  apply andb_prop in H as [H1 H2]. apply N.eqb_eq in H1, H2. now split.
Qed.

Lemma lead2_bits_b :
  forall c, (implb ((0xC2 <=? byte c) && (byte c <? 0xE0))
                   ((N.land (byte c) 0x1F =? byte c - 0xC0)
                    && (N.lor 0xC0 (byte c - 0xC0) =? byte c)))%N = true.
Proof. apply forall_byte. vm_compute. reflexivity. Qed.

Lemma lead2_bits c :
  (0xC2 <= byte c < 0xE0)%N ->
  N.land (byte c) 0x1F = (byte c - 0xC0)%N /\ N.lor 0xC0 (byte c - 0xC0) = byte c.
Proof.
  intros [Ha Hb]. pose proof (lead2_bits_b c) as H.
  apply N.leb_le in Ha. apply N.ltb_lt in Hb. rewrite Ha, Hb in H. cbn [andb implb] in H.
  apply andb_prop in H as [H1 H2]. apply N.eqb_eq in H1, H2. now split.
Qed.

Lemma lead3_bits_b :
  forall c, (implb ((0xE0 <=? byte c) && (byte c <=? 0xEF))
                   ((N.land (byte c) 0x0F =? byte c - 0xE0)
                    && (N.lor 0xE0 (byte c - 0xE0) =? byte c)))%N = true.
Proof. apply forall_byte. vm_compute. reflexivity. Qed.

Lemma lead3_bits c :
  (0xE0 <= byte c <= 0xEF)%N ->
  N.land (byte c) 0x0F = (byte c - 0xE0)%N /\ N.lor 0xE0 (byte c - 0xE0) = byte c.
Proof.
  intros [Ha Hb]. pose proof (lead3_bits_b c) as H.
  apply N.leb_le in Ha, Hb. rewrite Ha, Hb in H. cbn [andb implb] in H.
  apply andb_prop in H as [H1 H2]. apply N.eqb_eq in H1, H2. now split.
Qed.

Lemma lead4_bits_b :
  forall c, (implb ((0xF0 <=? byte c) && (byte c <=? 0xF4))
                   ((N.land (byte c) 0x07 =? byte c - 0xF0)
                    && (N.lor 0xF0 (byte c - 0xF0) =? byte c)))%N = true.
Proof. apply forall_byte. vm_compute. reflexivity. Qed.

Lemma lead4_bits c :
  (0xF0 <= byte c <= 0xF4)%N ->
  N.land (byte c) 0x07 = (byte c - 0xF0)%N /\ N.lor 0xF0 (byte c - 0xF0) = byte c.
Proof.
  intros [Ha Hb]. pose proof (lead4_bits_b c) as H.
  apply N.leb_le in Ha, Hb. rewrite Ha, Hb in H. cbn [andb implb] in H.
  apply andb_prop in H as [H1 H2]. apply N.eqb_eq in H1, H2. now split.
Qed.

Lemma rune2_value c0 c1 :
  valid2 c0 c1 -> rune2 c0 c1 = ((byte c0 - 0xC0) * 64 + (byte c1 - 0x80))%N.
Proof.
  intros [H0 H1]. unfold rune2.
  destruct (lead2_bits c0 H0) as [-> _]. destruct (cont_bits c1 H1) as [-> _].
  unfold cont in H1. apply pack2. lia.
Qed.

Lemma rune3_value c0 c1 c2 :
  valid3 c0 c1 c2 ->
  rune3 c0 c1 c2
  = (((byte c0 - 0xE0) * 64 + (byte c1 - 0x80)) * 64 + (byte c2 - 0x80))%N.
Proof.
  intros (H0 & H1 & H2 & _). unfold rune3.
  destruct (lead3_bits c0 H0) as [-> _]. destruct (cont_bits c1 H1) as [-> _].
  destruct (cont_bits c2 H2) as [-> _].
  unfold cont in *. apply pack3; lia.
Qed.

Lemma rune4_value c0 c1 c2 c3 :
  valid4 c0 c1 c2 c3 ->
  rune4 c0 c1 c2 c3
  = ((((byte c0 - 0xF0) * 64 + (byte c1 - 0x80)) * 64 + (byte c2 - 0x80)) * 64
     + (byte c3 - 0x80))%N.
Proof.
  intros (H0 & H1 & H2 & H3 & _). unfold rune4.
  destruct (lead4_bits c0 H0) as [-> _]. destruct (cont_bits c1 H1) as [-> _].
  destruct (cont_bits c2 H2) as [-> _]. destruct (cont_bits c3 H3) as [-> _].
  unfold cont in *. apply pack4; lia.
Qed.

Lemma encode2 c0 c1 :
  valid2 c0 c1 -> EncodeRune (rune2 c0 c1) = String c0 (String c1 EmptyString).
Proof.
  intros V. rewrite (rune2_value _ _ V). destruct V as [H0 H1].
  destruct (lead2_bits c0 H0) as [_ L0]. destruct (cont_bits c1 H1) as [_ L1].
  unfold cont in H1. unfold EncodeRune.
  set (a := (byte c0 - 0xC0)%N) in *. set (x := (byte c1 - 0x80)%N) in *.
  assert (Hx : (x < 64)%N) by (unfold x; lia).
  assert (Ha : (2 <= a < 32)%N) by (unfold a; lia).
  destruct (N.leb_spec (a * 64 + x) 0x7F); [lia|].
  destruct (N.leb_spec (a * 64 + x) 0x7FF); [|lia].
  rewrite field_high, field_low by exact Hx. rewrite L0, L1, !chr_byte. reflexivity.
Qed.

Lemma rune3_bounds c0 c1 c2 :
  valid3 c0 c1 c2 ->
  (0x800 <= rune3 c0 c1 c2 <= 0xFFFF)%N
  /\ ~ (0xD800 <= rune3 c0 c1 c2 <= 0xDFFF)%N.
Proof.
  intros V. rewrite (rune3_value _ _ _ V).
  destruct V as (H0 & H1 & H2 & Ha & Hb). unfold cont in *. lia.
Qed.

Lemma encode3 c0 c1 c2 :
  valid3 c0 c1 c2 ->
  EncodeRune (rune3 c0 c1 c2) = String c0 (String c1 (String c2 EmptyString)).
Proof.
  intros V. destruct (rune3_bounds _ _ _ V) as [B S]. revert B S.
  rewrite (rune3_value _ _ _ V). destruct V as (H0 & H1 & H2 & _).
  destruct (lead3_bits c0 H0) as [_ L0]. destruct (cont_bits c1 H1) as [_ L1].
  destruct (cont_bits c2 H2) as [_ L2].
  unfold cont in H1, H2. unfold EncodeRune, tail3, MaxRune.
  set (a := (byte c0 - 0xE0)%N) in *. set (x := (byte c1 - 0x80)%N) in *.
  set (y := (byte c2 - 0x80)%N) in *.
  assert (Hx : (x < 64)%N) by (unfold x; lia).
  assert (Hy : (y < 64)%N) by (unfold y; lia).
  intros B S.
  destruct (N.leb_spec ((a * 64 + x) * 64 + y) 0x7F); [lia|].
  destruct (N.leb_spec ((a * 64 + x) * 64 + y) 0x7FF); [lia|].
  destruct (N.ltb_spec 0x10FFFF ((a * 64 + x) * 64 + y)); [lia|].
  destruct (N.leb_spec 0xD800 ((a * 64 + x) * 64 + y));
    destruct (N.leb_spec ((a * 64 + x) * 64 + y) 0xDFFF); try lia;
    cbn [orb andb];
    (destruct (N.leb_spec ((a * 64 + x) * 64 + y) 0xFFFF); [|lia]);
    rewrite field_high2, field_high, !field_low by assumption;
    rewrite L0, L1, L2, !chr_byte; reflexivity.
Qed.

Lemma rune4_bounds c0 c1 c2 c3 :
  valid4 c0 c1 c2 c3 -> (0x10000 <= rune4 c0 c1 c2 c3 <= 0x10FFFF)%N.
Proof.
  intros V. rewrite (rune4_value _ _ _ _ V).
  destruct V as (H0 & H1 & H2 & H3 & Ha & Hb). unfold cont in *. lia.
Qed.

Lemma encode4 c0 c1 c2 c3 :
  valid4 c0 c1 c2 c3 ->
  EncodeRune (rune4 c0 c1 c2 c3)
  = String c0 (String c1 (String c2 (String c3 EmptyString))).
Proof.
  intros V. pose proof (rune4_bounds _ _ _ _ V) as B. revert B.
  rewrite (rune4_value _ _ _ _ V). destruct V as (H0 & H1 & H2 & H3 & _).
  destruct (lead4_bits c0 H0) as [_ L0]. destruct (cont_bits c1 H1) as [_ L1].
  destruct (cont_bits c2 H2) as [_ L2]. destruct (cont_bits c3 H3) as [_ L3].
  unfold cont in H1, H2, H3. unfold EncodeRune, MaxRune.
  set (a := (byte c0 - 0xF0)%N) in *. set (x := (byte c1 - 0x80)%N) in *.
  set (y := (byte c2 - 0x80)%N) in *. set (z := (byte c3 - 0x80)%N) in *.
  assert (Hx : (x < 64)%N) by (unfold x; lia).
  assert (Hy : (y < 64)%N) by (unfold y; lia).
  assert (Hz : (z < 64)%N) by (unfold z; lia).
  intros B.
  set (r := ((((a * 64 + x) * 64 + y) * 64 + z))%N) in *.
  destruct (N.leb_spec r 0x7F); [lia|].
  destruct (N.leb_spec r 0x7FF); [lia|].
  destruct (N.ltb_spec 0x10FFFF r); [lia|].
  destruct (N.leb_spec 0xD800 r); [|lia].
  destruct (N.leb_spec r 0xDFFF); [lia|]. cbn [orb andb].
  destruct (N.leb_spec r 0xFFFF); [lia|].
  unfold r.
  rewrite field_high3, field_high2, field_high, !field_low by assumption.
  rewrite L0, L1, L2, L3, !chr_byte. reflexivity.
Qed.

End Utf8Facts.

(** ** JSON: the parser inverts the encoder *)

Module JSONFacts.
Import Utf8 Utf8Facts JSON.

(** What one valid encoding of two to four bytes gives the encoder and the
    decoder of strings. *)
Lemma decoded_valid s r size :
  decoded s r size ->
  ((r =? RuneError)%N && (size =? 1)%nat) = false ->
  (size <= String.length s)%nat
  /\ (2 <= size)%nat
  /\ EncodeRune r = take size s
  /\ (forall t, DecodeRune (take size s ++ t) = (r, size))
  /\ (forall t, exists c0 t0, take size s ++ t = String c0 t0 /\ (0xC2 <= byte c0)%N)
  /\ (r = 0x2028%N \/ r = 0x2029%N -> size = 3%nat).
Proof.
  intros [Hr Hs|c0 c1 t E V Hr Hs|c0 c1 c2 t E V Hr Hs|c0 c1 c2 c3 t E V Hr Hs] Hv;
    subst.
  - cbn in Hv. discriminate Hv.
  - cbn [take String.length append]. repeat split; try lia.
    + now apply encode2.
    + intros t'. now apply decode2.
    + intros t'. eexists _, _. split; [reflexivity|]. destruct V as [V _]. lia.
    + rewrite (rune2_value _ _ V). destruct V as [V0 V1]. unfold cont in V1. lia.
  - cbn [take String.length append]. repeat split; try lia.
    + now apply encode3.
    + intros t'. now apply decode3.
    + intros t'. eexists _, _. split; [reflexivity|]. destruct V as [V _]. lia.
  - cbn [take String.length append]. repeat split; try lia.
    + now apply encode4.
    + intros t'. now apply decode4.
    + intros t'. eexists _, _. split; [reflexivity|]. destruct V as [V _]. lia.
    + pose proof (rune4_bounds _ _ _ _ V). lia.
Qed.

Lemma DecodeRune_ascii c t :
  (byte c < 0x80)%N -> DecodeRune (String c t) = (byte c, 1).
Proof.
  intros H. unfold DecodeRune, first. cases_N. reflexivity.
Qed.

(** One ASCII byte, as the encoder writes it, is read back as that byte. *)
Lemma ascii_step c :
  (byte c <? 0x80)%N = true ->
  forall fuel rest,
    unquote (S fuel) ((if htmlSafe (byte c) then str1 c else escapeByte c) ++ rest)
    = prepend (str1 c) (unquote fuel rest).
Proof.
  destruct c as [[|] [|] [|] [|] [|] [|] [|] [|]]; intros H; try discriminate H;
    intros fuel rest; reflexivity.
Qed.

Lemma ascii_encoded_length c :
  (1 <= String.length (if htmlSafe (byte c) then str1 c else escapeByte c))%nat.
Proof.
  destruct (htmlSafe (byte c)); [cbn; lia|].
  unfold escapeByte.
  repeat match goal with |- context [if ?b then _ else _] => destruct b end; cbn; lia.
Qed.

Lemma replacement_step fuel rest :
  unquote (S fuel) (String backslash "ufffd" ++ rest)
  = prepend (EncodeRune RuneError) (unquote fuel rest).
Proof. reflexivity. Qed.

Lemma separator_step r fuel rest :
  r = 0x2028%N \/ r = 0x2029%N ->
  unquote (S fuel) ((String backslash "u202" ++ str1 (hexDigit (N.land r 0xF))) ++ rest)
  = prepend (EncodeRune r) (unquote fuel rest).
Proof. intros [-> | ->]; reflexivity. Qed.

Lemma multibyte_step s r size fuel rest :
  decoded s r size ->
  ((r =? RuneError)%N && (size =? 1)%nat) = false ->
  unquote (S fuel) (take size s ++ rest) = prepend (take size s) (unquote fuel rest).
Proof.
  intros D Hv.
  destruct (decoded_valid s r size D Hv) as (Hl & _ & HE & HD & Hc & _).
  destruct (Hc rest) as (c0 & t0 & E0 & B0).
  pose proof (HD rest) as HD'. rewrite E0 in *.
  cbn [unquote].
  pose proof (byte_lt c0).
  destruct (N.eqb_spec (byte c0) 34); [lia|].
  destruct (N.eqb_spec (byte c0) 92); [lia|].
  destruct (N.ltb_spec (byte c0) 0x20); [lia|].
  destruct (N.ltb_spec (byte c0) 0x80); [lia|].
  rewrite HD', HE, <- E0.
  rewrite <- (length_take size s Hl) at 2. rewrite drop_append. reflexivity.
Qed.

(** The body of a string literal is read back as the string, with U+FFFD
    for each byte that starts no valid encoding. *)
Lemma unquote_encodeRunes n :
  forall s fuel rest,
    (String.length s <= n)%nat ->
    (String.length (encodeRunes n s) < fuel)%nat ->
    unquote fuel (encodeRunes n s ++ String dquote rest) = Some (coerceFrom n s, rest).
Proof.
  induction n as [|n IH]; intros s fuel rest Hn Hf.
  - destruct s; [|cbn in Hn; lia]. destruct fuel; [cbn in Hf; lia|]. reflexivity.
  - destruct s as [|c tl].
    { destruct fuel; [cbn in Hf; lia|]. reflexivity. }
    destruct fuel as [|fuel]; [lia|].
    cbn [String.length] in Hn.
    cbn [encodeRunes coerceFrom] in *.
    destruct (N.ltb_spec (byte c) 0x80) as [Ha|Ha].
    + rewrite (DecodeRune_ascii c tl Ha).
      assert (Hne : ((byte c =? RuneError)%N && (1 =? 1)%nat) = false).
      { destruct (N.eqb_spec (byte c) RuneError) as [E|E]; [|reflexivity].
        unfold RuneError in E. lia. }
      rewrite Hne. cbn [take drop append].
      rewrite append_assoc, ascii_step by (now apply N.ltb_lt).
      rewrite length_append in Hf. pose proof (ascii_encoded_length c).
      rewrite IH by lia. reflexivity.
    + destruct (DecodeRune (String c tl)) as [r size] eqn:E.
      pose proof (DecodeRune_multibyte c tl r size Ha E) as D.
      destruct ((r =? RuneError)%N && (size =? 1)%nat) eqn:Hv.
      * rewrite append_assoc, replacement_step.
        rewrite length_append in Hf. cbn [String.length] in Hf.
        rewrite IH by lia. reflexivity.
      * destruct (decoded_valid _ r size D Hv) as (Hl & H2 & HE & _ & _ & H3).
        assert (Hd : (String.length (drop size (String c tl)) <= n)%nat).
        { rewrite length_drop. cbn [String.length]. lia. }
        destruct ((r =? 0x2028)%N || (r =? 0x2029)%N) eqn:Hsep.
        -- assert (Hr : r = 0x2028%N \/ r = 0x2029%N).
           { apply orb_prop in Hsep as [H|H]; apply N.eqb_eq in H; auto. }
           rewrite <- append_assoc, append_assoc.
           rewrite (separator_step r fuel _ Hr).
           rewrite !length_append in Hf. cbn [String.length] in Hf.
           rewrite IH by lia. cbn [prepend]. rewrite HE. reflexivity.
        -- rewrite append_assoc, (multibyte_step _ r size fuel _ D Hv).
           rewrite length_append, (length_take size _ Hl) in Hf.
           rewrite IH by lia. reflexivity.
Qed.

Lemma unquote_encodeString s rest fuel :
  (String.length (encodeRunes (String.length s) s) < fuel)%nat ->
  unquote fuel (encodeRunes (String.length s) s ++ String dquote rest)
  = Some (coerce s, rest).
Proof. intros H. now apply unquote_encodeRunes. Qed.

(** A string that is valid UTF-8 is written as it is. *)
Lemma coerceFrom_valid n :
  forall s, (String.length s <= n)%nat -> validFrom n s = true -> coerceFrom n s = s.
Proof.
  induction n as [|n IH]; intros s Hn Hv.
  - destruct s; [reflexivity | cbn in Hn; lia].
  - destruct s as [|c tl]; [reflexivity|].
    cbn [validFrom coerceFrom] in *.
    destruct (DecodeRune (String c tl)) as [r size] eqn:E.
    destruct ((r =? RuneError)%N && (size =? 1)%nat) eqn:Hi; [discriminate Hv|].
    assert (Hs : (1 <= size)%nat).
    { destruct (N.ltb_spec (byte c) 0x80) as [Ha|Ha].
      - rewrite (DecodeRune_ascii c tl Ha) in E. inversion E. lia.
      - pose proof (DecodeRune_multibyte c tl r size Ha E) as D.
        destruct (decoded_valid _ r size D Hi) as (_ & H2 & _). lia. }
    rewrite IH; [apply take_drop | | exact Hv].
    rewrite length_drop. cbn [String.length] in *. lia.
Qed.

Lemma coerce_valid s : ValidString s = true -> coerce s = s.
Proof. intros H. now apply coerceFrom_valid. Qed.

Lemma delim_cases rest :
  delim rest = true ->
  rest = EmptyString
  \/ exists t, rest = String "," t \/ rest = String "]" t \/ rest = String "}" t.
Proof.
  destruct rest as [|c t]; [now left|]. cbn. intros H. right. exists t.
  apply orb_prop in H as [H|H]; [apply orb_prop in H as [H|H]|];
    apply Ascii.eqb_eq in H; subst; auto.
Qed.

Lemma scanDigits_digits d rest :
  delim rest = true -> scanDigits (digits d ++ rest) = (d, rest).
Proof.
  intros Hr. induction d; cbn [digits append];
    try (cbn; rewrite IHd; reflexivity).
  destruct (delim_cases rest Hr) as [-> | (t & [-> | [-> | ->]])]; reflexivity.
Qed.

Lemma to_uint_normal n :
  N.to_uint n = Decimal.D0 Decimal.Nil
  \/ (N.to_uint n <> Decimal.Nil /\ forall d, N.to_uint n <> Decimal.D0 d).
Proof.
  pose proof (Unsigned.to_of (N.to_uint n)) as H. rewrite Unsigned.of_to in H.
  rewrite H. unfold Decimal.unorm.
  destruct (Decimal.nzhead (N.to_uint n)) eqn:E; try (now left); right;
    (split; [discriminate|]); intros d' Hd; try discriminate Hd.
  exact (nzhead_nonzero _ _ E).
Qed.

Lemma scanIntPart_digits n rest :
  delim rest = true ->
  scanIntPart (digits (N.to_uint n) ++ rest) = Some (N.to_uint n, rest).
Proof.
  intros Hr. destruct (to_uint_normal n) as [E | [Hnil Hz]].
  - rewrite E. reflexivity.
  - pose proof (scanDigits_digits (N.to_uint n) rest Hr) as S.
    destruct (N.to_uint n) as [|d|d|d|d|d|d|d|d|d|d] eqn:E;
      try (now contradiction Hnil); try (now contradiction (Hz d));
      unfold scanIntPart; cbn [digits append] in *;
      match goal with
      | |- context [(?c =? "0")%char] => change (c =? "0")%char with false
      end;
      match goal with
      | |- context [isDigit ?c] => change (isDigit c) with true
      end;
      cbv iota; rewrite S; reflexivity.
Qed.

Lemma scanFrac_delim rest : delim rest = true -> scanFrac rest = Some (false, rest).
Proof.
  intros H. destruct (delim_cases rest H) as [-> | (t & [-> | [-> | ->]])]; reflexivity.
Qed.

Lemma scanExp_delim rest : delim rest = true -> scanExp rest = Some (false, rest).
Proof.
  intros H. destruct (delim_cases rest H) as [-> | (t & [-> | [-> | ->]])]; reflexivity.
Qed.

(** The first byte of a number without sign is a digit. *)
Lemma digits_head d rest :
  d <> Decimal.Nil ->
  exists c t, digits d ++ rest = String c t /\ isDigit c = true /\ (c =? "-")%char = false.
Proof.
  intros H. destruct d; try (now contradiction H);
    cbn [digits append]; eexists _, _; (split; [reflexivity|]); split; reflexivity.
Qed.

Lemma to_uint_nonnil n : N.to_uint n <> Decimal.Nil.
Proof.
  destruct (to_uint_normal n) as [E | [H _]]; [rewrite E; discriminate | exact H].
Qed.

Lemma scanNumber_unsigned n rest :
  delim rest = true ->
  scanNumber (digits (N.to_uint n) ++ rest) = Some (Int (Z.of_N n), rest).
Proof.
  intros Hr. unfold scanNumber.
  destruct (digits_head (N.to_uint n) rest (to_uint_nonnil n)) as (c & t & E & _ & Hm).
  rewrite E, Hm, <- E.
  rewrite (scanIntPart_digits n rest Hr), (scanFrac_delim rest Hr), (scanExp_delim rest Hr).
  cbn [orb]. rewrite Unsigned.of_to. reflexivity.
Qed.

Lemma scanNumber_encodeInt z rest :
  delim rest = true -> scanNumber (encodeInt z ++ rest) = Some (Int z, rest).
Proof.
  intros Hr. destruct z as [|p|p]; unfold encodeInt.
  - apply (scanNumber_unsigned 0 rest Hr).
  - apply (scanNumber_unsigned (Npos p) rest Hr).
  - unfold scanNumber. cbn [append]. change ("-" =? "-")%char with true. cbv iota.
    rewrite (scanIntPart_digits (Npos p) rest Hr), (scanFrac_delim rest Hr),
      (scanExp_delim rest Hr).
    cbn [orb]. rewrite Unsigned.of_to. reflexivity.
Qed.

Lemma encodeInt_head z rest :
  exists c t, encodeInt z ++ rest = String c t
              /\ ((c =? "-")%char || isDigit c) = true
              /\ isSpace c = false
              /\ (c =? "{")%char = false /\ (c =? "[")%char = false
              /\ (c =? dquote)%char = false /\ (c =? "]")%char = false.
Proof.
  assert (D : forall n, exists c t,
               digits (N.to_uint n) ++ rest = String c t
               /\ ((c =? "-")%char || isDigit c) = true
               /\ isSpace c = false
               /\ (c =? "{")%char = false /\ (c =? "[")%char = false
               /\ (c =? dquote)%char = false /\ (c =? "]")%char = false).
  { intros n. pose proof (to_uint_nonnil n) as H.
    destruct (N.to_uint n); try (now contradiction H);
      cbn [digits append]; eexists _, _; (split; [reflexivity|]);
      repeat split; reflexivity. }
  destruct z as [|p|p]; unfold encodeInt.
  - apply (D 0%N).
  - apply (D (Npos p)).
  - cbn [append]. eexists _, _. split; [reflexivity|]. repeat split; reflexivity.
Qed.

Lemma encode_Arr vs : encode (Arr vs) = "[" ++ elementsOf vs ++ "]".
Proof.
  reflexivity.
Qed.

Lemma encode_Obj kvs : encode (Obj kvs) = "{" ++ membersOf kvs ++ "}".
Proof.
  reflexivity.
Qed.

Lemma weight_Arr vs : weight (Arr vs) = 1 + weights vs.
Proof. reflexivity. Qed.

Lemma weight_Obj kvs : weight (Obj kvs) = 1 + memberWeights kvs.
Proof. reflexivity. Qed.

Lemma value_nested_ind (P : value -> Prop) :
  P Null -> (forall b, P (Bool b)) -> (forall z, P (Int z)) ->
  (forall lit, P (Float lit)) -> (forall s, P (Str s)) ->
  (forall vs, Forall P vs -> P (Arr vs)) ->
  (forall kvs, Forall (fun kv => P (snd kv)) kvs -> P (Obj kvs)) ->
  forall v, P v.
Proof.
  intros HN HB HI HF HS HA HO.
  fix IH 1. intros [| b | z | lit | s | vs | kvs].
  - exact HN.
  - apply HB.
  - apply HI.
  - apply HF.
  - apply HS.
  - apply HA. induction vs as [|v vs IHvs]; constructor; [apply IH | exact IHvs].
  - apply HO. induction kvs as [|[k v] kvs IHkvs]; constructor; [apply IH | exact IHkvs].
Qed.

(** The first byte of an encoding starts a value. *)
Lemma encode_head v rest :
  exact v = true ->
  exists c t, encode v ++ rest = String c t
              /\ isSpace c = false /\ (c =? "]")%char = false.
Proof.
  destruct v as [| [|] | z | lit | s | vs | kvs]; intros H; try discriminate H;
    try (cbn; eexists _, _; split; [reflexivity | split; reflexivity]).
  destruct (encodeInt_head z rest) as (c & t & E & _ & Hs & _ & _ & _ & Hb).
  exists c, t. cbn [encode]. auto.
Qed.

Lemma skipSpace_head c t : isSpace c = false -> skipSpace (String c t) = String c t.
Proof. intros H. cbn. now rewrite H. Qed.

Lemma skipSpace_delim rest : delim rest = true -> skipSpace rest = rest.
Proof.
  intros H. destruct (delim_cases rest H) as [-> | (t & [-> | [-> | ->]])]; reflexivity.
Qed.

Lemma parseElements_encode vs :
  Forall parsesBack vs -> forallb exact vs = true -> vs <> [] ->
  forall fuel rest,
    weights vs <= fuel ->
    parseElements fuel (elementsOf vs ++ String "]" rest) = Some (map coerced vs, rest).
Proof.
  induction vs as [|v vs IH]; intros HP HE Hne fuel rest Hf; [now contradiction Hne|].
  inversion HP as [|? ? Pv Pvs]; subst.
  cbn [forallb] in HE. apply andb_prop in HE as [Ev Evs].
  cbn [weights] in Hf. destruct fuel as [|fuel]; [lia|].
  destruct vs as [|v' vs'].
  - cbn [elementsOf parseElements map].
    rewrite (Pv Ev fuel (String "]" rest)) by (try lia; reflexivity).
    reflexivity.
  - change (elementsOf (v :: v' :: vs')) with (encode v ++ "," ++ elementsOf (v' :: vs')).
    rewrite !append_assoc. cbn [parseElements append].
    rewrite (Pv Ev fuel (String "," _)) by (try lia; reflexivity).
    cbn [skipSpace isSpace]. change (isSpace ",") with false. cbv iota.
    change ("," =? ",")%char with true. cbv iota.
    rewrite (IH Pvs Evs) by (try discriminate; lia).
    reflexivity.
Qed.

Lemma parseMembers_encode kvs :
  Forall (fun kv => parsesBack (snd kv)) kvs ->
  forallb (fun kv => exact (snd kv)) kvs = true -> kvs <> [] ->
  forall fuel rest,
    memberWeights kvs <= fuel ->
    parseMembers fuel (membersOf kvs ++ String "}" rest)
    = Some (map (fun kv => (coerce (fst kv), coerced (snd kv))) kvs, rest).
Proof.
  induction kvs as [|[k v] kvs IH]; intros HP HE Hne fuel rest Hf; [now contradiction Hne|].
  inversion HP as [|? ? Pv Pvs]; subst. cbn [snd] in Pv.
  cbn [forallb snd] in HE. apply andb_prop in HE as [Ev Evs].
  cbn [memberWeights snd] in Hf. destruct fuel as [|fuel]; [lia|].
  assert (K : forall tail,
             parseMembers (S fuel) (encodeString k ++ ":" ++ encode v ++ tail)
             = match parseValue fuel (encode v ++ tail) with
               | None => None
               | Some (v1, r3) =>
                 match skipSpace r3 with
                 | EmptyString => None
                 | String c3 r4 =>
                   if (c3 =? ",")%char
                   then withRest (cons (coerce k, v1)) (parseMembers fuel r4)
                   else if (c3 =? "}")%char then Some ([(coerce k, v1)], r4)
                   else None
                 end
               end).
  { intros tail. unfold encodeString, str1. cbn [append parseMembers skipSpace].
    change (isSpace dquote) with false. cbv iota.
    change (dquote =? dquote)%char with true. cbv iota.
    rewrite !append_assoc. cbn [append].
    rewrite unquote_encodeString
      by (rewrite length_append; cbn [String.length]; lia).
    reflexivity. }
  destruct kvs as [|kv' kvs'].
  - cbn [membersOf map fst snd].
    rewrite !append_assoc. rewrite K.
    rewrite (Pv Ev fuel (String "}" rest)) by (try lia; reflexivity).
    reflexivity.
  - change (membersOf ((k, v) :: kv' :: kvs'))
      with (encodeString k ++ ":" ++ encode v ++ "," ++ membersOf (kv' :: kvs')).
    rewrite !append_assoc. rewrite K. cbn [append].
    rewrite (Pv Ev fuel (String "," _)) by (try lia; reflexivity).
    cbn [skipSpace]. change (isSpace ",") with false. cbv iota.
    change ("," =? ",")%char with true. cbv iota.
    rewrite (IH Pvs Evs) by (try discriminate; lia).
    reflexivity.
Qed.

(** The parser reads the encoding of a value back as that value, its
    strings coerced to valid UTF-8. *)
Lemma parseValue_encode v : parsesBack v.
Proof.
  induction v as [| b | z | lit | s | vs IH | kvs IH] using value_nested_ind;
    intros He fuel rest Hf Hr; try discriminate He;
    (destruct fuel as [|fuel]; [cbn in Hf; lia|]).
  - destruct rest; reflexivity.
  - destruct b, rest; reflexivity.
  - cbn [encode coerced].
    destruct (encodeInt_head z rest) as (c & t & E & Hn & Hs & H1 & H2 & H3 & _).
    pose proof (scanNumber_encodeInt z rest Hr) as S. rewrite E in *.
    cbn [parseValue]. rewrite (skipSpace_head c t Hs), H1, H2, H3, Hn. exact S.
  - cbn [encode coerced]. unfold encodeString, str1. cbn [append parseValue skipSpace].
    change (isSpace dquote) with false. cbv iota.
    change (dquote =? "{")%char with false. change (dquote =? "[")%char with false.
    change (dquote =? dquote)%char with true. cbv iota.
    rewrite append_assoc. cbn [append].
    rewrite unquote_encodeString
      by (rewrite length_append; cbn [String.length]; lia).
    reflexivity.
  - rewrite encode_Arr. rewrite weight_Arr in Hf. cbn [exact] in He.
    rewrite !append_assoc. cbn [append parseValue skipSpace coerced].
    change (isSpace "[") with false. cbv iota.
    change ("[" =? "{")%char with false. change ("[" =? "[")%char with true. cbv iota.
    destruct vs as [|v vs'].
    + reflexivity.
    + destruct (encode_head v (match vs' with [] => EmptyString
                                 | _ => "," ++ elementsOf vs' end ++ String "]" rest))
        as (c & t & E & Hs & Hb).
      { cbn [forallb] in He. now apply andb_prop in He as [He _]. }
      assert (E' : elementsOf (v :: vs') ++ String "]" rest = String c t).
      { rewrite <- E. destruct vs'; cbn [elementsOf]; [reflexivity|].
        now rewrite !append_assoc. }
      pose proof (parseElements_encode (v :: vs') IH He ltac:(discriminate)
                    fuel rest ltac:(lia)) as PE.
      rewrite E' in *. rewrite (skipSpace_head c t Hs), Hb, PE. reflexivity.
  - rewrite encode_Obj. rewrite weight_Obj in Hf. cbn [exact] in He.
    rewrite !append_assoc. cbn [append parseValue skipSpace coerced].
    change (isSpace "{") with false. cbv iota.
    change ("{" =? "{")%char with true. cbv iota.
    destruct kvs as [|[k v] kvs'].
    + reflexivity.
    + pose proof (parseMembers_encode ((k, v) :: kvs') IH He ltac:(discriminate)
                    fuel rest ltac:(lia)) as PM.
      assert (E' : exists t, membersOf ((k, v) :: kvs') ++ String "}" rest = String dquote t).
      { destruct kvs'; cbn [membersOf]; unfold encodeString; cbn [append];
          eexists; reflexivity. }
      destruct E' as [t E']. rewrite E' in *.
      cbn [skipSpace]. change (isSpace dquote) with false. cbv iota.
      change (dquote =? "}")%char with false. cbv iota.
      rewrite PM. reflexivity.
Qed.

Lemma encodeInt_length z : 1 <= String.length (encodeInt z).
Proof.
  destruct (encodeInt_head z EmptyString) as (c & t & E & _).
  rewrite append_nil_r in E. rewrite E. cbn. lia.
Qed.

Lemma weight_le_length v :
  exact v = true -> weight v + 1 <= 2 * String.length (encode v).
Proof.
  induction v as [| b | z | lit | s | vs IH | kvs IH] using value_nested_ind;
    intros He; try discriminate He.
  - cbn. lia.
  - destruct b; cbn; lia.
  - cbn [weight encode]. pose proof (encodeInt_length z). lia.
  - cbn [weight encode]. unfold encodeString. cbn [String.length].
    rewrite length_append. cbn. lia.
  - rewrite weight_Arr, encode_Arr. cbn [exact] in He.
    cbn [append String.length]. rewrite length_append. cbn [String.length].
    assert (H : weights vs <= 2 * String.length (elementsOf vs)).
    { induction vs as [|v vs IHvs]; [cbn; lia|].
      inversion IH as [|? ? Pv Pvs]; subst.
      cbn [forallb] in He. apply andb_prop in He as [Ev Evs].
      specialize (IHvs Pvs Evs). specialize (Pv Ev).
      destruct vs as [|v' vs'].
      - cbn [weights elementsOf]. lia.
      - change (elementsOf (v :: v' :: vs'))
          with (encode v ++ "," ++ elementsOf (v' :: vs')).
        rewrite !length_append. cbn [weights String.length] in *. lia. }
    lia.
  - rewrite weight_Obj, encode_Obj. cbn [exact] in He.
    cbn [append String.length]. rewrite length_append. cbn [String.length].
    assert (H : memberWeights kvs <= 2 * String.length (membersOf kvs)).
    { induction kvs as [|[k v] kvs IHkvs]; [cbn; lia|].
      inversion IH as [|? ? Pv Pvs]; subst. cbn [snd] in Pv.
      cbn [forallb snd] in He. apply andb_prop in He as [Ev Evs].
      specialize (IHkvs Pvs Evs). specialize (Pv Ev).
      destruct kvs as [|kv' kvs'].
      - cbn [memberWeights membersOf snd]. rewrite !length_append. lia.
      - change (membersOf ((k, v) :: kv' :: kvs'))
          with (encodeString k ++ ":" ++ encode v ++ "," ++ membersOf (kv' :: kvs')).
        rewrite !length_append. cbn [memberWeights String.length snd] in *. lia. }
    lia.
Qed.

(** A document the encoder wrote parses, to the value it was written from. *)
Lemma parse_encode v : exact v = true -> parse (encode v) = Some (coerced v).
Proof.
  intros He. unfold parse.
  pose proof (weight_le_length v He) as Hw.
  pose proof (parseValue_encode v He (2 * String.length (encode v) + 2) EmptyString
                ltac:(lia) eq_refl) as P.
  rewrite append_nil_r in P. rewrite P. reflexivity.
Qed.

Lemma coerced_valid v : validText v = true -> coerced v = v.
Proof.
  induction v as [| b | z | lit | s | vs IH | kvs IH] using value_nested_ind;
    intros Hv; try reflexivity.
  - cbn [coerced validText] in *. now rewrite coerce_valid.
  - cbn [coerced validText] in *. f_equal.
    induction vs as [|v vs IHvs]; [reflexivity|].
    inversion IH as [|? ? Pv Pvs]; subst.
    cbn [forallb] in Hv. apply andb_prop in Hv as [Ev Evs].
    cbn [map]. now rewrite (Pv Ev), (IHvs Pvs Evs).
  - cbn [coerced validText] in *. f_equal.
    induction kvs as [|[k v] kvs IHkvs]; [reflexivity|].
    inversion IH as [|? ? Pv Pvs]; subst. cbn [snd] in Pv.
    cbn [forallb fst snd] in Hv. apply andb_prop in Hv as [Ev Evs].
    apply andb_prop in Ev as [Ek Ev].
    cbn [map fst snd]. now rewrite (Pv Ev), (IHkvs Pvs Evs), (coerce_valid k Ek).
Qed.

Lemma map_coerced_valid vs : forallb validText vs = true -> map coerced vs = vs.
Proof.
  induction vs as [|v vs IH]; [reflexivity|].
  cbn [forallb map]. intros H. apply andb_prop in H as [Hv Hvs].
  now rewrite (coerced_valid v Hv), (IH Hvs).
Qed.

(** *** The values [json.Marshal] makes of parameters *)

Lemma any_nested_ind (P : any -> Prop) :
  P AnyNil -> (forall b, P (AnyBool b)) -> (forall n, P (AnyInt n)) ->
  (forall s, P (AnyString s)) -> (forall l, P (AnyStrings l)) ->
  (forall l, Forall P l -> P (AnySlice l)) -> P AnyChan ->
  forall a, P a.
Proof.
  intros HN HB HI HS HL HA HC.
  fix IH 1. intros [| b | n | s | l | l |].
  - exact HN.
  - apply HB.
  - apply HI.
  - apply HS.
  - apply HL.
  - apply HA. induction l as [|a l IHl]; constructor; [apply IH | exact IHl].
  - exact HC.
Qed.

Lemma valueOf_AnySlice l :
  valueOf (AnySlice l)
  = match valuesOf l with inl e => inl e | inr vs => inr (Arr vs) end.
Proof. reflexivity. Qed.

Lemma valuesOf_exact l :
  Forall (fun a => forall v, valueOf a = inr v -> exact v = true) l ->
  forall vs, valuesOf l = inr vs -> forallb exact vs = true.
Proof.
  induction 1 as [|a l Ha _ IH]; intros vs E.
  - cbn in E. inversion E. reflexivity.
  - cbn [valuesOf] in E. destruct (valueOf a) as [e|v] eqn:Ea; [discriminate E|].
    destruct (valuesOf l) as [e|vs'] eqn:El; [discriminate E|].
    inversion E; subst. cbn [forallb]. now rewrite (Ha v eq_refl), (IH vs' eq_refl).
Qed.

Lemma valueOf_exact a : forall v, valueOf a = inr v -> exact v = true.
Proof.
  induction a as [| b | n | s | l | l IH |] using any_nested_ind; intros v E;
    try (cbn in E; inversion E; reflexivity).
  - destruct l as [l|]; cbn in E; inversion E; [|reflexivity].
    cbn [exact]. clear. induction l; [reflexivity | exact IHl].
  - rewrite valueOf_AnySlice in E.
    destruct (valuesOf l) as [e|vs] eqn:El; [discriminate E|].
    inversion E. cbn [exact]. exact (valuesOf_exact l IH vs El).
Qed.

Lemma params_exact l vs : valuesOf l = inr vs -> forallb exact vs = true.
Proof.
  apply valuesOf_exact. apply Forall_forall. intros a _. apply valueOf_exact.
Qed.

(** *** A request read back *)

Lemma coerce_id : coerce "id" = "id". Proof. reflexivity. Qed.

(** What reading back the encoding of a request gives, whatever bytes its
    strings hold. *)
Lemma Marshal_read_back r vs :
  valuesOf (Params r) = inr vs ->
  fitsInt (ID r) = true ->
  exists body,
    Marshal r = inr body
    /\ UnmarshalRequest body
       = (let (ps, e) := paramsInto (match vs with
                                     | [] => Null
                                     | _ => Arr (map coerced vs)
                                     end) None in
          ({| ReadID := ID r; ReadJSONRPC := coerce (JSONRPC r);
              ReadMethod := coerce (Method r); ReadParams := ps |}, e)).
Proof.
  intros Hvs Hid. unfold Marshal, requestValue. rewrite Hvs.
  eexists. split; [reflexivity|].
  unfold UnmarshalRequest. rewrite parse_encode.
  - cbn [coerced map fst snd].
    change (coerce "id") with "id". change (coerce "jsonrpc") with "jsonrpc".
    change (coerce "method") with "method". change (coerce "params") with "params".
    cbn [readRequestMembers readRequestMember].
    change (findField ["id"; "jsonrpc"; "method"; "params"] "id") with (Some "id").
    change (findField ["id"; "jsonrpc"; "method"; "params"] "jsonrpc") with (Some "jsonrpc").
    change (findField ["id"; "jsonrpc"; "method"; "params"] "method") with (Some "method").
    change (findField ["id"; "jsonrpc"; "method"; "params"] "params") with (Some "params").
    cbv iota. cbn [intInto stringInto]. rewrite Hid.
    cbn [ReadID ReadJSONRPC ReadMethod ReadParams orElse].
    destruct vs as [|v vs']; [reflexivity|].
    cbn [coerced]. destruct (paramsInto (Arr (map coerced (v :: vs'))) None) as [ps [e|]];
      reflexivity.
  - cbn [exact forallb snd]. pose proof (params_exact _ _ Hvs) as He.
    destruct vs as [|v vs]; [reflexivity|]. cbn [exact andb]. now rewrite He.
Qed.

(** *** The fuel of the parser is enough *)

Lemma prepend_inv x o d r :
  prepend x o = Some (d, r) -> exists d', o = Some (d', r) /\ d = x ++ d'.
Proof.
  destruct o as [[d' r']|]; cbn; intros H; inversion H; subst. now exists d'.
Qed.

Lemma withRest_inv {A B} (f : A -> B) o b r :
  withRest f o = Some (b, r) -> exists a, o = Some (a, r) /\ b = f a.
Proof.
  destruct o as [[a r']|]; cbn; intros H; inversion H; subst. now exists a.
Qed.

Lemma DecodeRune_size c t : (1 <= snd (DecodeRune (String c t)))%nat.
Proof.
  destruct (N.ltb_spec (byte c) 0x80) as [Ha|Ha].
  - rewrite (DecodeRune_ascii c t Ha). cbn. lia.
  - destruct (DecodeRune (String c t)) as [r size] eqn:E.
    destruct (DecodeRune_multibyte c t r size Ha E); cbn; lia.
Qed.

Lemma hex4_length s r t : hex4 s = Some (r, t) -> String.length s = 4 + String.length t.
Proof.
  unfold hex4. destruct s as [|c1 [|c2 [|c3 [|c4 s]]]]; try discriminate.
  destruct (hexVal c1), (hexVal c2), (hexVal c3), (hexVal c4); try discriminate.
  intros H. inversion H; subst. reflexivity.
Qed.

Lemma getu4_length s r t : getu4 s = Some (r, t) -> String.length s = 6 + String.length t.
Proof.
  unfold getu4. destruct s as [|c0 [|c1 s]]; try discriminate.
  destruct ((c0 =? backslash)%char && (c1 =? "u")%char); [|discriminate].
  intros H. apply hex4_length in H. cbn [String.length]. lia.
Qed.

(** Reading a string literal takes no more fuel than bytes it consumes. *)
Lemma unquote_fuel f :
  forall s d r,
    unquote f s = Some (d, r) ->
    (String.length r < String.length s)%nat
    /\ forall g, (String.length s - String.length r <= g)%nat -> unquote g s = Some (d, r).
Proof.
  induction f as [|f IH]; intros s d r H; [discriminate H|].
  destruct s as [|c tl]; [discriminate H|].
  cbn [unquote] in H.
  assert (K : forall x s2,
             (String.length s2 < String.length (String c tl))%nat ->
             prepend x (unquote f s2) = Some (d, r) ->
             (String.length r < String.length (String c tl))%nat
             /\ forall g, (String.length (String c tl) - String.length r <= S g)%nat ->
                          prepend x (unquote g s2) = Some (d, r)).
  { intros x s2 Hl Hp. apply prepend_inv in Hp as (d' & Hu & ->).
    destruct (IH _ _ _ Hu) as [Hr Hg]. split; [lia|].
    intros g Hge. rewrite (Hg g) by (cbn [String.length] in *; lia). reflexivity. }
  destruct (byte c =? 34)%N eqn:E1.
  { inversion H; subst. cbn [String.length]. split; [lia|].
    intros [|g] Hg; [exfalso; cbn [String.length] in Hg; lia|]. cbn [unquote]. now rewrite E1. }
  destruct (byte c =? 92)%N eqn:E2.
  { destruct tl as [|e tl']; [discriminate H|].
    destruct (simpleEscape e) as [x|] eqn:E3.
    { stepK. split; [exact Hr|].
      intros [|g] Hge; [exfalso; cbn [String.length] in *; lia|]. cbn [unquote]. conds. now apply Hg. }
    destruct (e =? "u")%char eqn:E4; [|discriminate H].
    destruct (hex4 tl') as [[rr tl2]|] eqn:E5; [|discriminate H].
    pose proof (hex4_length _ _ _ E5) as L5.
    destruct (IsSurrogate rr) eqn:E6.
    - destruct (getu4 tl2) as [[rr1 tl3]|] eqn:E7.
      + pose proof (getu4_length _ _ _ E7) as L7.
        destruct (DecodeSurrogates rr rr1 =? RuneError)%N eqn:E8.
        * stepK. split; [exact Hr|].
          intros [|g] Hge; [exfalso; cbn [String.length] in *; lia|]. cbn [unquote]. conds. now apply Hg.
        * stepK. split; [exact Hr|].
          intros [|g] Hge; [exfalso; cbn [String.length] in *; lia|]. cbn [unquote]. conds. now apply Hg.
      + stepK. split; [exact Hr|].
        intros [|g] Hge; [exfalso; cbn [String.length] in *; lia|]. cbn [unquote]. conds. now apply Hg.
    - stepK. split; [exact Hr|].
      intros [|g] Hge; [exfalso; cbn [String.length] in *; lia|]. cbn [unquote]. conds. now apply Hg. }
  destruct (byte c <? 0x20)%N eqn:E3; [discriminate H|].
  destruct (byte c <? 0x80)%N eqn:E4.
  { stepK. split; [exact Hr|].
    intros [|g] Hge; [exfalso; cbn [String.length] in *; lia|]. cbn [unquote]. conds. now apply Hg. }
  pose proof (DecodeRune_size c tl) as Hs.
  destruct (DecodeRune (String c tl)) as [rr size] eqn:E5. cbn [snd] in Hs.
  assert (Hl : (String.length (drop size (String c tl)) < String.length (String c tl))%nat).
  { rewrite length_drop. cbn [String.length]. lia. }
  stepK. split; [exact Hr|].
  intros [|g] Hge; [exfalso; cbn [String.length] in *; lia|]. cbn [unquote]. conds. now apply Hg.
Qed.

(** The fuel the parser gives [unquote], the length of the text, is enough. *)
Lemma unquote_enough f s x : unquote f s = Some x -> unquote (String.length s) s = Some x.
Proof.
  destruct x as [d r]. intros H. destruct (unquote_fuel f s d r H) as [_ Hg].
  apply Hg. lia.
Qed.

Lemma skipSpace_length s : (String.length (skipSpace s) <= String.length s)%nat.
Proof.
  induction s as [|c s IH]; cbn [skipSpace]; [lia|].
  destruct (isSpace c); cbn [String.length] in *; lia.
Qed.

Lemma skipSpace_cons s c t :
  skipSpace s = String c t -> (String.length t < String.length s)%nat.
Proof.
  intros E. pose proof (skipSpace_length s) as H. rewrite E in H.
  cbn [String.length] in H. lia.
Qed.

Lemma scanDigits_length s :
  (String.length (snd (scanDigits s)) <= String.length s)%nat.
Proof.
  induction s as [|c s IH]; cbn [scanDigits]; [cbn; lia|].
  destruct (digitOf c); [|cbn; lia].
  destruct (scanDigits s) as [d r]. cbn [snd String.length] in *. lia.
Qed.

Lemma scanIntPart_length s d r :
  scanIntPart s = Some (d, r) -> (String.length r < String.length s)%nat.
Proof.
  unfold scanIntPart. destruct s as [|c s]; [discriminate|].
  destruct (c =? "0")%char.
  - intros H; inversion H; subst. cbn; lia.
  - unfold isDigit. destruct (digitOf c) eqn:E; [|discriminate].
    intros H. inversion H as [H1]. clear H. cbn [scanDigits] in H1. rewrite E in H1.
    pose proof (scanDigits_length s) as L.
    destruct (scanDigits s) as [d' r']. inversion H1; subst.
    cbn [snd String.length] in *. lia.
Qed.

Lemma scanFrac_length s b r :
  scanFrac s = Some (b, r) -> (String.length r <= String.length s)%nat.
Proof.
  unfold scanFrac. destruct s as [|c s]; [intros H; inversion H; subst; lia|].
  destruct (c =? ".")%char; [|intros H; inversion H; subst; lia].
  pose proof (scanDigits_length s) as L.
  destruct (scanDigits s) as [[] r']; intros H; inversion H; subst;
    cbn [snd String.length] in *; lia.
Qed.

Lemma scanExp_length s b r :
  scanExp s = Some (b, r) -> (String.length r <= String.length s)%nat.
Proof.
  unfold scanExp. destruct s as [|c s]; [intros H; inversion H; subst; lia|].
  destruct ((c =? "e") || (c =? "E"))%char; [|intros H; inversion H; subst; lia].
  match goal with
  | |- context [scanDigits ?s2] =>
    assert (L2 : (String.length s2 <= String.length s)%nat)
      by (destruct s as [|g t]; [lia|];
          destruct ((g =? "+") || (g =? "-"))%char; cbn [String.length]; lia);
    pose proof (scanDigits_length s2) as L;
    destruct (scanDigits s2) as [[] r']
  end; intros H; inversion H; subst; cbn [snd String.length] in *; lia.
Qed.

Lemma scanNumber_length s v r :
  scanNumber s = Some (v, r) -> (String.length r < String.length s)%nat.
Proof.
  unfold scanNumber.
  match goal with
  | |- context [let (_, _) := ?p in _] =>
    assert (L1 : (String.length (snd p) <= String.length s)%nat)
      by (destruct s as [|c t]; [cbn; lia|];
          destruct (c =? "-")%char; cbn [snd String.length]; lia);
    destruct p as [neg s1]
  end.
  cbn [snd] in L1.
  destruct (scanIntPart s1) as [[d s2]|] eqn:E1; [|discriminate].
  destruct (scanFrac s2) as [[frac s3]|] eqn:E2; [|discriminate].
  destruct (scanExp s3) as [[exp s4]|] eqn:E3; [|discriminate].
  apply scanIntPart_length in E1. apply scanFrac_length in E2. apply scanExp_length in E3.
  destruct (frac || exp); intros H; inversion H; subst; lia.
Qed.

Lemma scanLiteral_length s v r :
  scanLiteral s = Some (v, r) -> (String.length r < String.length s)%nat.
Proof.
  unfold scanLiteral.
  destruct (String.prefix "true" s) eqn:E1.
  { intros H; inversion H; subst.
    destruct s as [|c1 [|c2 [|c3 [|c4 s]]]]; cbn in E1;
      repeat match type of E1 with
             | context [ascii_dec ?a ?b] => destruct (ascii_dec a b)
             end; try discriminate E1; cbn; lia. }
  destruct (String.prefix "false" s) eqn:E2.
  { intros H; inversion H; subst.
    destruct s as [|c1 [|c2 [|c3 [|c4 [|c5 s]]]]]; cbn in E2;
      repeat match type of E2 with
             | context [ascii_dec ?a ?b] => destruct (ascii_dec a b)
             end; try discriminate E2; cbn; lia. }
  destruct (String.prefix "null" s) eqn:E3; [|discriminate].
  intros H; inversion H; subst.
  destruct s as [|c1 [|c2 [|c3 [|c4 s]]]]; cbn in E3;
    repeat match type of E3 with
           | context [ascii_dec ?a ?b] => destruct (ascii_dec a b)
           end; try discriminate E3; cbn; lia.
Qed.

Lemma parseValue_step f :
  elementsFuel f -> membersFuel f -> valueFuel (S f).
Proof.
  intros IHE IHM s v r H. cbn [parseValue] in H.
  destruct (skipSpace s) as [|c s'] eqn:Es; [discriminate H|].
  pose proof (skipSpace_cons _ _ _ Es) as Ls.
  destruct (c =? "{")%char eqn:E1.
  { destruct (skipSpace s') as [|c1 r1] eqn:Es'; [discriminate H|].
    pose proof (skipSpace_cons _ _ _ Es') as Ls'.
    destruct (c1 =? "}")%char eqn:E2.
    - inversion H; subst. split; [lens|].
      intros [|g] Hg; [exfalso; lens|]. cbn [parseValue]. now conds.
    - apply withRest_inv in H as (kvs & H & ->).
      destruct (IHM _ _ _ H) as [Lr Hg]. split; [lens|].
      intros [|g] Hge; [exfalso; lens|]. cbn [parseValue]. conds.
      rewrite (Hg g) by lens. reflexivity. }
  destruct (c =? "[")%char eqn:E2.
  { destruct (skipSpace s') as [|c1 r1] eqn:Es'; [discriminate H|].
    pose proof (skipSpace_cons _ _ _ Es') as Ls'.
    destruct (c1 =? "]")%char eqn:E3.
    - inversion H; subst. split; [lens|].
      intros [|g] Hg; [exfalso; lens|]. cbn [parseValue]. now conds.
    - apply withRest_inv in H as (vs & H & ->).
      destruct (IHE _ _ _ H) as [Lr Hg]. split; [lens|].
      intros [|g] Hge; [exfalso; lens|]. cbn [parseValue]. conds.
      rewrite (Hg g) by lens. reflexivity. }
  destruct (c =? dquote)%char eqn:E3.
  { apply withRest_inv in H as (d & H & ->).
    destruct (unquote_fuel _ _ _ _ H) as [Lr _]. split; [lens|].
    intros [|g] Hge; [exfalso; lens|]. cbn [parseValue]. conds. reflexivity. }
  destruct ((c =? "-")%char || isDigit c) eqn:E4.
  { pose proof (scanNumber_length _ _ _ H) as Lr. split; [lens|].
    intros [|g] Hge; [exfalso; lens|]. cbn [parseValue]. now conds. }
  pose proof (scanLiteral_length _ _ _ H) as Lr. split; [lens|].
  intros [|g] Hge; [exfalso; lens|]. cbn [parseValue]. now conds.
Qed.

Lemma parseElements_step f :
  valueFuel f -> elementsFuel f -> elementsFuel (S f).
Proof.
  intros IHV IHE s vs r H. cbn [parseElements] in H.
  destruct (parseValue f s) as [[v r1]|] eqn:Ev; [|discriminate H].
  destruct (IHV _ _ _ Ev) as [L1 Hv].
  destruct (skipSpace r1) as [|c r'] eqn:Es; [discriminate H|].
  pose proof (skipSpace_cons _ _ _ Es) as Ls.
  destruct (c =? ",")%char eqn:E1.
  - apply withRest_inv in H as (vs' & H & ->).
    destruct (IHE _ _ _ H) as [Lr Hg]. split; [lens|].
    intros [|g] Hge; [exfalso; lens|]. cbn [parseElements].
    rewrite (Hv g) by lens. conds. rewrite (Hg g) by lens. reflexivity.
  - destruct (c =? "]")%char eqn:E2; [|discriminate H].
    inversion H; subst. split; [lens|].
    intros [|g] Hge; [exfalso; lens|]. cbn [parseElements].
    rewrite (Hv g) by lens. now conds.
Qed.

Lemma parseMembers_step f :
  valueFuel f -> membersFuel f -> membersFuel (S f).
Proof.
  intros IHV IHM s kvs r H. cbn [parseMembers] in H.
  destruct (skipSpace s) as [|c s1] eqn:Es; [discriminate H|].
  pose proof (skipSpace_cons _ _ _ Es) as Ls.
  destruct (c =? dquote)%char eqn:E1; [|discriminate H].
  destruct (unquote (String.length s1) s1) as [[k rk]|] eqn:Ek; [|discriminate H].
  destruct (unquote_fuel _ _ _ _ Ek) as [Lk _].
  destruct (skipSpace rk) as [|c2 r2] eqn:Es2; [discriminate H|].
  pose proof (skipSpace_cons _ _ _ Es2) as Ls2.
  destruct (c2 =? ":")%char eqn:E2; [|discriminate H].
  destruct (parseValue f r2) as [[v r3]|] eqn:Ev; [|discriminate H].
  destruct (IHV _ _ _ Ev) as [L3 Hv].
  destruct (skipSpace r3) as [|c3 r4] eqn:Es3; [discriminate H|].
  pose proof (skipSpace_cons _ _ _ Es3) as Ls3.
  destruct (c3 =? ",")%char eqn:E3.
  - apply withRest_inv in H as (kvs' & H & ->).
    destruct (IHM _ _ _ H) as [Lr Hg]. split; [lens|].
    intros [|g] Hge; [exfalso; lens|]. cbn [parseMembers]. conds.
    rewrite (Hv g) by lens. conds. rewrite (Hg g) by lens. reflexivity.
  - destruct (c3 =? "}")%char eqn:E4; [|discriminate H].
    inversion H; subst. split; [lens|].
    intros [|g] Hge; [exfalso; lens|]. cbn [parseMembers]. conds.
    rewrite (Hv g) by lens. now conds.
Qed.

Lemma parser_fuel f : valueFuel f /\ elementsFuel f /\ membersFuel f.
Proof.
  induction f as [|f (IHV & IHE & IHM)].
  - split; [|split]; intros s x r H; discriminate H.
  - split; [|split].
    + now apply parseValue_step.
    + now apply parseElements_step.
    + now apply parseMembers_step.
Qed.

(** The fuel of [parse] is enough: a text that parses with some fuel parses
    with the fuel [parse] gives. *)
Lemma parse_fuel_enough f s v r :
  parseValue f s = Some (v, r) ->
  parseValue (2 * String.length s + 2) s = Some (v, r).
Proof.
  intros H. destruct (parser_fuel f) as [HV _].
  destruct (HV _ _ _ H) as [_ Hg]. apply Hg. lia.
Qed.

(** [parse] accepts exactly the texts the parser accepts with some fuel. *)
Lemma parse_complete s v :
  parse s = Some v
  <-> exists f r, parseValue f s = Some (v, r) /\ skipSpace r = EmptyString.
Proof.
  unfold parse. split.
  - destruct (parseValue (2 * String.length s + 2) s) as [[v' r]|] eqn:E; [|discriminate].
    destruct (skipSpace r) eqn:Er; [|discriminate].
    intros H. inversion H; subst. now exists (2 * String.length s + 2), r.
  - intros (f & r & Hp & Hr). rewrite (parse_fuel_enough f s v r Hp), Hr. reflexivity.
Qed.

End JSONFacts.

(** ** A request read back into [[]interface{}] *)

Lemma nearestEven_mul c b : (0 < b)%Z -> nearestEven (c * b) b = c.
Proof.
  intros Hb. unfold nearestEven.
  rewrite Z.div_mul, Z.mod_mul by lia.
  destruct (Z.ltb_spec (2 * 0) b); [reflexivity | lia].
Qed.

Lemma log2Ratio_one a : (0 < a)%Z -> log2Ratio a 1 = Z.log2 a.
Proof.
  intros Ha. unfold log2Ratio. change (Z.log2 1) with 0%Z. rewrite Z.sub_0_r.
  pose proof (Z.log2_nonneg a) as Hn. pose proof (Z.log2_spec a Ha) as [Hl _].
  destruct (Z.leb_spec 0 (Z.log2 a)); [|lia].
  destruct (Z.ltb_spec a (1 * 2 ^ Z.log2 a)); [lia | reflexivity].
Qed.

Lemma Qred_int (q : QArith_base.Q) n :
  QArith_base.Qeq q (QArith_base.inject_Z n) ->
  Qreduction.Qred q = QArith_base.inject_Z n.
Proof.
  intros H. rewrite (Qreduction.Qred_complete _ _ H).
  apply Qcanon.Qred_identity. cbn. apply Z.gcd_1_r.
Qed.

(** A [float64] holds every integer up to 2^53 in magnitude as it is. *)
Lemma round64_int n : (Z.abs n <= 2 ^ 53)%Z -> round64 n 1 = Some (QArith_base.inject_Z n).
Proof.
  intros Hn. unfold round64.
  destruct (Z.eqb_spec n 0) as [->|Hz]; [reflexivity|].
  assert (Ha : (0 < Z.abs n)%Z) by lia.
  rewrite (log2Ratio_one _ Ha).
  pose proof (Z.log2_nonneg (Z.abs n)) as H0.
  pose proof (Z.log2_spec _ Ha) as [Hl Hu].
  assert (H53 : (Z.log2 (Z.abs n) <= 53)%Z).
  { change 53%Z with (Z.log2 (2 ^ 53)). now apply Z.log2_le_mono. }
  rewrite Z.max_l by lia.
  set (L := Z.log2 (Z.abs n)) in *.
  assert (Hs : (Z.sgn n * Z.abs n = n)%Z) by lia.
  assert (Hbig : (2 ^ 53 < 2 ^ 1024)%Z) by (apply Z.pow_lt_mono_r; lia).
  destruct (Z.leb_spec 0 (L - 52)) as [He|He].
  - assert (Hd : (Z.abs n = Z.abs n / 2 ^ (L - 52) * (1 * 2 ^ (L - 52)))%Z).
    { assert (L - 52 = 0 \/ L - 52 = 1)%Z as [E|E] by lia; rewrite E.
      - change (2 ^ 0)%Z with 1%Z. rewrite Z.div_1_r. lia.
      - assert (Z.abs n = 2 ^ 53)%Z as ->.
        { assert (L = 53)%Z as E' by lia. rewrite E' in Hl. lia. }
        reflexivity. }
    assert (Hp : (0 < 1 * 2 ^ (L - 52))%Z) by (pose proof (Z.pow_pos_nonneg 2 (L - 52)); lia).
    assert (Hm : nearestEven (Z.abs n) (1 * 2 ^ (L - 52)) = (Z.abs n / 2 ^ (L - 52))%Z).
    { rewrite Hd at 1. exact (nearestEven_mul _ _ Hp). }
    assert (Hx : (Z.abs n / 2 ^ (L - 52) * 2 ^ (L - 52) = Z.abs n)%Z).
    { symmetry. rewrite Hd at 1. ring. }
    rewrite !Hm, Hx. cbn [andb].
    destruct (Z.leb_spec (2 ^ 1024) (Z.abs n)); [exfalso; lia|].
    f_equal. apply Qred_int. unfold QArith_base.Qeq.
    cbn [QArith_base.Qnum QArith_base.Qden QArith_base.inject_Z].
    replace (Z.sgn n * (Z.abs n / 2 ^ (L - 52)) * 2 ^ (L - 52))%Z
      with (Z.sgn n * (Z.abs n / 2 ^ (L - 52) * 2 ^ (L - 52)))%Z by ring.
    rewrite Hx. lia.
  - cbn [andb].
    assert (Hp : (0 < 2 ^ (- (L - 52)))%Z) by (apply Z.pow_pos_nonneg; lia).
    assert (Hm : nearestEven (Z.abs n * 2 ^ (- (L - 52))) 1
                 = (Z.abs n * 2 ^ (- (L - 52)))%Z).
    { rewrite <- (Z.mul_1_r (Z.abs n * 2 ^ (- (L - 52)))) at 1.
      apply nearestEven_mul. lia. }
    rewrite Hm.
    f_equal. apply Qred_int. unfold QArith_base.Qeq.
    cbn [QArith_base.Qnum QArith_base.Qden QArith_base.inject_Z].
    rewrite Z2Pos.id by exact Hp.
    replace (Z.sgn n * (Z.abs n * 2 ^ (- (L - 52))))%Z
      with (Z.sgn n * Z.abs n * 2 ^ (- (L - 52)))%Z by ring.
    rewrite Hs. ring.
Qed.

Lemma interfaceOf_Arr vs :
  interfaceOf (JSON.Arr vs) = let (l, e) := interfacesOf vs in (RSlice l, e).
Proof.
  cbn [interfaceOf].
  match goal with
  | |- (let (_, _) := ?f vs in _) = _ =>
    assert (E : forall l, f l = interfacesOf l)
      by (induction l as [|v l IH]; [reflexivity | cbn [interfacesOf]; rewrite <- IH; reflexivity]);
    rewrite E
  end.
  reflexivity.
Qed.

(** Strings that are valid UTF-8 come back as they are. *)
Lemma interfacesOf_strings l :
  forallb validText (map JSON.Str l) = true ->
  interfacesOf (map coerced (map JSON.Str l)) = (map RString l, None).
Proof.
  induction l as [|s l IH]; [reflexivity|].
  cbn [map forallb validText coerced interfacesOf interfaceOf].
  intros H. apply andb_prop in H. destruct H as [Hs Hl].
  rewrite (JSONFacts.coerce_valid s Hs), (IH Hl). reflexivity.
Qed.

Lemma interfacesOf_readOf l :
  Forall (fun a => forall v, valueOf a = inr v -> validText v = true ->
                             float64Exact a = true ->
                             interfaceOf (coerced v) = (readOf a, None)) l ->
  forall vs, valuesOf l = inr vs -> forallb validText vs = true ->
             forallb float64Exact l = true ->
             interfacesOf (map coerced vs) = (map readOf l, None).
Proof.
  induction 1 as [|a l Ha _ IH]; intros vs E Hv Hx.
  - cbn in E. inversion E. reflexivity.
  - cbn [valuesOf] in E. destruct (valueOf a) as [e|v] eqn:Ea; [discriminate E|].
    destruct (valuesOf l) as [e|vs'] eqn:El; [discriminate E|].
    inversion E; subst vs. cbn [forallb] in Hv, Hx.
    apply andb_prop in Hv. destruct Hv as [Hv Hvs].
    apply andb_prop in Hx. destruct Hx as [Hx Hxs].
    cbn [map interfacesOf]. rewrite (Ha v eq_refl Hv Hx), (IH vs' eq_refl Hvs Hxs).
    reflexivity.
Qed.

(** A parameter whose strings are valid UTF-8 and whose integers a
    [float64] holds is read back as the value it is. *)
Lemma interfaceOf_readOf a :
  forall v, valueOf a = inr v -> validText v = true -> float64Exact a = true ->
            interfaceOf (coerced v) = (readOf a, None).
Proof.
  induction a as [|b|n|s|l|l IH|] using JSONFacts.any_nested_ind; intros v E Hv Hx;
    try (cbn in E; inversion E; subst v; reflexivity).
  - cbn in E. inversion E; subst v. cbn [coerced interfaceOf readOf].
    cbn [float64Exact] in Hx. apply Z.leb_le in Hx.
    rewrite (round64_int n Hx). reflexivity.
  - cbn in E. inversion E; subst v. cbn [coerced interfaceOf readOf].
    cbn [validText] in Hv. now rewrite (JSONFacts.coerce_valid s Hv).
  - destruct l as [l|]; cbn in E; inversion E; subst v; [|reflexivity].
    cbn [coerced readOf]. rewrite interfaceOf_Arr.
    cbn [validText] in Hv. now rewrite (interfacesOf_strings l Hv).
  - rewrite JSONFacts.valueOf_AnySlice in E.
    destruct (valuesOf l) as [e|vs] eqn:El; [discriminate E|].
    inversion E; subst v. cbn [coerced readOf]. rewrite interfaceOf_Arr.
    cbn [validText] in Hv. cbn [float64Exact] in Hx.
    now rewrite (interfacesOf_readOf l IH vs El Hv Hx).
Qed.

Lemma elementInto_read v old r :
  interfaceOf v = (r, None) -> elementInto v old = (r, None).
Proof.
  intros H. unfold elementInto. destruct v; rewrite H; reflexivity.
Qed.

Lemma elementsInto_readOf l :
  forall vs old,
    valuesOf l = inr vs -> forallb validText vs = true ->
    forallb float64Exact l = true ->
    elementsInto (map coerced vs) old = (map readOf l, None).
Proof.
  induction l as [|a l IH]; intros vs old E Hv Hx.
  - cbn in E. inversion E. reflexivity.
  - cbn [valuesOf] in E. destruct (valueOf a) as [e|v] eqn:Ea; [discriminate E|].
    destruct (valuesOf l) as [e|vs'] eqn:El; [discriminate E|].
    inversion E; subst vs. cbn [forallb] in Hv, Hx.
    apply andb_prop in Hv. destruct Hv as [Hv Hvs].
    apply andb_prop in Hx. destruct Hx as [Hx Hxs].
    cbn [map elementsInto].
    rewrite (elementInto_read _ _ _ (interfaceOf_readOf a v Ea Hv Hx)).
    rewrite (IH vs' (tl old) eq_refl Hvs Hxs). reflexivity.
Qed.

(** ** [call] *)

Lemma call_marshal_error W method params rpc fx e :
  Marshal (request rpc method params) = inl e ->
  call W method params rpc fx = Returns (None, Some e) rpc fx.
Proof.
  intros H. unfold call, bind, receiver. rewrite H. reflexivity.
Qed.

Lemma call_post_error W method params rpc fx body msg :
  Marshal (request rpc method params) = inr body ->
  server W (posts fx) (outgoing rpc body) = PostError msg ->
  call W method params rpc fx
  = Returns (None, Some (URLError "Post" (url rpc) msg)) rpc (sends fx (outgoing rpc body)).
Proof.
  intros H Hs. unfold call, bind, receiver, Post. rewrite H.
  fold (outgoing rpc body). rewrite Hs. reflexivity.
Qed.

Lemma call_read_error W method params rpc fx body msg :
  Marshal (request rpc method params) = inr body ->
  server W (posts fx) (outgoing rpc body) = PostResponse (BodyError msg) ->
  call W method params rpc fx
  = Returns (None, Some (ReadError msg)) rpc (sends fx (outgoing rpc body)).
Proof.
  intros H Hs. unfold call, bind, receiver, Post. rewrite H.
  fold (outgoing rpc body). rewrite Hs. reflexivity.
Qed.

Lemma call_answered W method params rpc fx body data :
  Marshal (request rpc method params) = inr body ->
  server W (posts fx) (outgoing rpc body) = PostResponse (BodyData data) ->
  call W method params rpc fx
  = Returns (interpret data) rpc (answered rpc fx method body data).
Proof.
  intros H Hs. unfold call, bind, receiver, Post. rewrite H.
  fold (outgoing rpc body). rewrite Hs.
  unfold interpret, answered, log_Println, ret, logs, sends.
  destruct (Debug rpc); cbn;
    destruct (UnmarshalResponse data) as [resp [e|]]; try reflexivity;
    destruct (Error resp); reflexivity.
Qed.

(** [call] returns to its caller whatever happens, leaves the client as it
    was, and issues at most one POST, on the transport bound to the client. *)
Lemma call_returns W method params rpc fx :
  exists res err fx',
    call W method params rpc fx = Returns (res, err) rpc fx'
    /\ (posts fx' = posts fx
        \/ exists body, Marshal (request rpc method params) = inr body
                        /\ posts fx' = (posts fx ++ [outgoing rpc body])%list).
Proof.
  destruct (Marshal (request rpc method params)) as [e|body] eqn:HM.
  - exists None, (Some e), fx. split; [apply call_marshal_error; exact HM | left; reflexivity].
  - destruct (server W (posts fx) (outgoing rpc body)) as [msg|[data|msg]] eqn:HS.
    + eexists _, _, _. split; [apply call_post_error with (1 := HM); exact HS|].
      right. exists body. split; reflexivity.
    + destruct (interpret data) as [res err] eqn:HI.
      exists res, err, (answered rpc fx method body data). split.
      * rewrite <- HI. apply call_answered; assumption.
      * right. exists body. split; [reflexivity|].
        unfold answered. destruct (Debug rpc); reflexivity.
    + eexists _, _, _. split; [apply call_read_error with (1 := HM); exact HS|].
      right. exists body. split; reflexivity.
Qed.

(** ** Every wrapper is its row of the tables *)

Lemma invoke_unfold W w rpc fx :
  invoke W w rpc fx
  = match call W (methodOf w) (paramsOf w) (bound w rpc) fx with
    | Returns (res, err) rpc' fx' =>
      match decode (shapeOf w) res err with
      | (_, Some unErr) =>
        Exits (logs fx' (Fatalf (notOfType (typeName (shapeOf w))) unErr))
      | (r, None) => Returns r rpc' fx'
      end
    | Exits fx' => Exits fx'
    end.
Proof.
  destruct w; cbn [invoke methodOf paramsOf shapeOf bound tokenOf decode typeName];
    unfold fmap, CreateAccount, UnlockAccount, LockAccount, DeleteAccount, ListAccounts,
      GetBootnodes, SetBootnodes, RunSwarmService, StopSwarmService, DiscoverNodes,
      LoadImageToNode, ExecuteImage, InspectContainer, ListNodeImages, ListNodeContainers,
      LvlDBStats, LvlDBSelectImage, LvlDBSelectImageAccount, LvlDBSelectType,
      LvlDBSelectAll, setClient, assign, bind, withClient;
    match goal with
    | |- context [call W ?m ?ps ?r fx] =>
      destruct (call W m ps r fx) as [[res err] rpc' fx'|fx']; [|reflexivity]
    end;
    try reflexivity;
    try (destruct (UnmarshalString res) as [v [unErr|]]; reflexivity);
    try (destruct (UnmarshalStrings res) as [v [unErr|]]; reflexivity).
Qed.

(** The parameters of the wrappers are strings, string slices and ints:
    they always have an encoding. *)
Lemma wrapper_values w : exists vs, valuesOf (paramsOf w) = inr vs.
Proof.
  destruct w; cbn [paramsOf];
    repeat match goal with nodes : option (list string) |- _ => destruct nodes end;
    cbn [valuesOf valueOf]; eexists; reflexivity.
Qed.

Lemma wrapper_marshals w rpc :
  exists body, Marshal (request rpc (methodOf w) (paramsOf w)) = inr body.
Proof.
  destruct (wrapper_values w) as [vs H].
  unfold Marshal, requestValue. cbn [request Params]. rewrite H.
  eexists; reflexivity.
Qed.

Lemma invoke_returns_bound W w rpc fx r rpc' fx' :
  invoke W w rpc fx = Returns r rpc' fx' -> rpc' = bound w rpc.
Proof.
  rewrite invoke_unfold.
  destruct (call_returns W (methodOf w) (paramsOf w) (bound w rpc) fx)
    as (res & err & fx1 & -> & _).
  destruct (decode (shapeOf w) res err) as [r1 [unErr|]]; [discriminate|].
  intros H. now inversion H.
Qed.

(** A wrapper issues exactly one POST, on the client as it has bound it. *)
Lemma invoke_posts W w rpc fx :
  exists body,
    Marshal (request (bound w rpc) (methodOf w) (paramsOf w)) = inr body
    /\ posts (effectsOf (invoke W w rpc fx))
       = (posts fx ++ [outgoing (bound w rpc) body])%list.
Proof.
  destruct (wrapper_marshals w (bound w rpc)) as [body HM].
  exists body. split; [exact HM|].
  rewrite invoke_unfold.
  destruct (server W (posts fx) (outgoing (bound w rpc) body)) as [msg|[data|msg]] eqn:HS.
  - rewrite (call_post_error W _ _ _ fx _ _ HM HS).
    destruct (decode (shapeOf w) _ _) as [r1 [unErr|]]; reflexivity.
  - rewrite (call_answered W _ _ _ fx _ _ HM HS).
    destruct (interpret data) as [res err].
    destruct (decode (shapeOf w) _ _) as [r1 [unErr|]];
      unfold answered; destruct (Debug (bound w rpc)); reflexivity.
  - rewrite (call_read_error W _ _ _ fx _ _ HM HS).
    destruct (decode (shapeOf w) _ _) as [r1 [unErr|]]; reflexivity.
Qed.

Lemma constructed_invariant W u rpc :
  constructed W u rpc -> versionJSONRPC rpc = "2.0" /\ url rpc = u.
Proof.
  induction 1 as [|w rpc fx r rpc' fx' _ [IHv IHu] H|rpc d _ IH].
  - split; reflexivity.
  - apply invoke_returns_bound in H. subst rpc'.
    unfold bound. destruct (tokenOf w); cbn; split; assumption.
  - exact IH.
Qed.

(** A wrapper that decodes nothing hands the error of [call] to its caller. *)
Lemma plain_wrapper_returns W w rpc fx :
  shapeOf w = Nothing ->
  exists res err fx',
    call W (methodOf w) (paramsOf w) (bound w rpc) fx = Returns (res, err) (bound w rpc) fx'
    /\ invoke W w rpc fx = Returns (GotError err) (bound w rpc) fx'.
Proof.
  intros Hs. rewrite invoke_unfold, Hs.
  destruct (call_returns W (methodOf w) (paramsOf w) (bound w rpc) fx)
    as (res & err & fx1 & -> & _).
  exists res, err, fx1. split; reflexivity.
Qed.

(** A wrapper that decodes exits whenever [call] hands it a nil result,
    which is what [call] returns beside every error. *)
Lemma decoding_wrapper_exits_on_nil W w rpc fx err fx' :
  shapeOf w <> Nothing ->
  call W (methodOf w) (paramsOf w) (bound w rpc) fx = Returns (None, err) (bound w rpc) fx' ->
  invoke W w rpc fx
  = Exits (logs fx' (Fatalf (notOfType (typeName (shapeOf w))) SyntaxError)).
Proof.
  intros Hs Hc. rewrite invoke_unfold, Hc.
  destruct (shapeOf w); [reflexivity | reflexivity | congruence].
Qed.

(** ** The claims *)

(** C1 (the code departs from the claim). [UnlockAccount] against a response
    whose error member is [{code: -32000, message: "invalid passphrase"}]:
    [call] returns a nil result and the [rpcError] with that code and
    message, but the wrapper unmarshals the nil result before it looks at
    the error, and the process exits in [fatalIfErr]. *)
Theorem UnlockAccount_remote_error_exits :
  let W := answering (quoted "{'error':{'code':-32000,'message':'invalid passphrase'}}") in
  let body := quoted "{'id':1,'jsonrpc':'2.0','method':'accounts_unlockAccount','params':['0xABC','wrong']}" in
  let fx := sends quiet (outgoing (NewCCClient node) body) in
  call W "accounts_unlockAccount" [AnyString "0xABC"; AnyString "wrong"]
       (NewCCClient node) quiet
  = Returns (None, Some (RPCError {| Code := -32000; Message := "invalid passphrase" |}))
            (NewCCClient node) fx
  /\ UnlockAccount W "0xABC" "wrong" (NewCCClient node) quiet
     = Exits (logs fx (Fatalf (notOfType "string") SyntaxError)).
Proof.
  split; vm_compute; reflexivity.
Qed.

(** C2. A wrapper that decodes the raw result into a string or a list of
    strings exits the process, through [log.Fatalf], exactly when the raw
    result [call] returned does not unmarshal into that type; it never
    returns the decoding error. When the raw result unmarshals, the wrapper
    returns the decoded value with the error of [call]. *)
Theorem decoding_failure_is_fatal W w rpc fx :
  exists res err fx',
    call W (methodOf w) (paramsOf w) (bound w rpc) fx = Returns (res, err) (bound w rpc) fx'
    /\ (shapeOf w = AString ->
        match UnmarshalString res with
        | (_, Some unErr) =>
          invoke W w rpc fx = Exits (logs fx' (Fatalf (notOfType "string") unErr))
        | (v, None) => invoke W w rpc fx = Returns (GotString v err) (bound w rpc) fx'
        end)
    /\ (shapeOf w = AStrings ->
        match UnmarshalStrings res with
        | (_, Some unErr) =>
          invoke W w rpc fx = Exits (logs fx' (Fatalf (notOfType "[]string") unErr))
        | (v, None) => invoke W w rpc fx = Returns (GotStrings v err) (bound w rpc) fx'
        end).
Proof.
  rewrite invoke_unfold.
  destruct (call_returns W (methodOf w) (paramsOf w) (bound w rpc) fx)
    as (res & err & fx1 & -> & _).
  exists res, err, fx1. split; [reflexivity|].
  split; intros ->; cbn [decode typeName].
  - destruct (UnmarshalString res) as [v [unErr|]]; reflexivity.
  - destruct (UnmarshalStrings res) as [v [unErr|]]; reflexivity.
Qed.

(** [CreateAccount] against a result that is a list: the process exits. *)
Lemma decoding_failure_is_fatal_witness :
  let W := answering (quoted "{'result':['a','b']}") in
  let body := quoted "{'id':1,'jsonrpc':'2.0','method':'accounts_createAccount','params':['pw123']}" in
  invoke W (W_CreateAccount "pw123") (NewCCClient node) quiet
  = Exits (logs (sends quiet (outgoing (NewCCClient node) body))
                (Fatalf (notOfType "string") (UnmarshalTypeError "array" "string"))).
Proof.
  intros W body.
  destruct (decoding_failure_is_fatal W (W_CreateAccount "pw123") (NewCCClient node) quiet)
    as (res & err & fx' & Hc & Hs & _).
  vm_compute in Hc. inversion Hc; subst res err fx'.
  specialize (Hs eq_refl). vm_compute in Hs. vm_compute. exact Hs.
Defined.

(** C3 (counterexample). The run wrapper, [ExecuteImage], called on a new
    client, issues its POST without an [Authorization] header: it takes no
    token and does not rebind the transport. *)
Lemma ExecuteImage_carries_no_token :
  ~ (forall W w rpc fx,
        imageLifecycle w = true ->
        exists token body,
          posts (effectsOf (invoke W w rpc fx))
          = (posts fx ++ [{| URL := url rpc; ContentType := "application/json";
                             Authorization := Some ("Bearer " ++ token)%string;
                             Body := body |}])%list).
Proof.
  intros H.
  destruct (H (answering (quoted "{'result':'c1'}")) (W_ExecuteImage "node1" "image1")
              (NewCCClient node) quiet eq_refl) as (token & body & E).
  vm_compute in E. discriminate E.
Qed.

(** C3 (amended). Of the container image wrappers, the three that take a
    token (push, list images, list containers) rebind the transport of the
    client before they call: their POST carries [Authorization: Bearer
    <token>] and the client stays bound to that token. The two that take no
    token (run, inspect) issue their POST on the transport the client is
    bound to when they are called, and leave the client as it is. *)
Theorem image_wrappers_transport W w rpc fx :
  imageLifecycle w = true ->
  (exists body,
      Marshal (request rpc (methodOf w) (paramsOf w)) = inr body
      /\ posts (effectsOf (invoke W w rpc fx))
         = (posts fx
            ++ [{| URL := url rpc; ContentType := "application/json";
                   Authorization := match tokenOf w with
                                    | Some token => Some ("Bearer " ++ token)%string
                                    | None => authorization (client rpc)
                                    end;
                   Body := body |}])%list)
  /\ (forall r rpc' fx',
         invoke W w rpc fx = Returns r rpc' fx' ->
         client rpc' = match tokenOf w with
                       | Some token => bearer token
                       | None => client rpc
                       end)
  /\ (tokenOf w = None <->
      exists nodeID x, w = W_ExecuteImage nodeID x \/ w = W_InspectContainer nodeID x).
Proof.
  intros Hw. split; [|split].
  - destruct (invoke_posts W w rpc fx) as (body & HM & Hp).
    exists body. rewrite Hp. split.
    + rewrite <- HM. unfold bound. destruct (tokenOf w); reflexivity.
    + unfold bound. destruct (tokenOf w); reflexivity.
  - intros r rpc' fx' H. apply invoke_returns_bound in H. subst rpc'.
    unfold bound. destruct (tokenOf w); reflexivity.
  - destruct w; try discriminate Hw; cbn; split; intros H;
      try reflexivity; try discriminate H;
      try (eexists _, _; left; reflexivity);
      try (eexists _, _; right; reflexivity);
      destruct H as (a & b & [H|H]); discriminate H.
Qed.

Lemma image_wrappers_transport_witness :
  let W := answering (quoted "{'result':'sha256:77af'}") in
  let w := W_LoadImageToNode "node1" "hash1" "tok123" in
  (exists body,
      Marshal (request (NewCCClient node) (methodOf w) (paramsOf w)) = inr body
      /\ posts (effectsOf (invoke W w (NewCCClient node) quiet))
         = (posts quiet
            ++ [{| URL := node; ContentType := "application/json";
                   Authorization := Some "Bearer tok123";
                   Body := body |}])%list)
  /\ (forall r rpc' fx',
         invoke W w (NewCCClient node) quiet = Returns r rpc' fx' ->
         client rpc' = bearer "tok123")
  /\ (tokenOf w = None <->
      exists nodeID x, w = W_ExecuteImage nodeID x \/ w = W_InspectContainer nodeID x).
Proof.
  intros W w.
  exact (image_wrappers_transport W w (NewCCClient node) quiet eq_refl).
Defined.

(** C4. When the server answers a wrapper's POST with an envelope that
    unmarshals, has no error member and has a result that unmarshals into
    the type the wrapper expects, the wrapper returns the decoded value and
    a nil error (a nil error alone for the wrappers that decode nothing). *)
Theorem success_returns_decoded W w rpc fx body data resp :
  Marshal (request (bound w rpc) (methodOf w) (paramsOf w)) = inr body ->
  server W (posts fx) (outgoing (bound w rpc) body) = PostResponse (BodyData data) ->
  UnmarshalResponse data = (resp, None) ->
  Error resp = None ->
  match shapeOf w with
  | AString =>
    forall v, UnmarshalString (Result resp) = (v, None) ->
      invoke W w rpc fx
      = Returns (GotString v None) (bound w rpc)
                (answered (bound w rpc) fx (methodOf w) body data)
  | AStrings =>
    forall l, UnmarshalStrings (Result resp) = (l, None) ->
      invoke W w rpc fx
      = Returns (GotStrings l None) (bound w rpc)
                (answered (bound w rpc) fx (methodOf w) body data)
  | Nothing =>
    invoke W w rpc fx
    = Returns (GotError None) (bound w rpc)
              (answered (bound w rpc) fx (methodOf w) body data)
  end.
Proof.
  intros HM HS HU HE.
  rewrite invoke_unfold, (call_answered W _ _ _ fx _ _ HM HS).
  unfold interpret. rewrite HU, HE.
  destruct (shapeOf w); cbn [decode].
  - intros v Hv. rewrite Hv. reflexivity.
  - intros l Hl. rewrite Hl. reflexivity.
  - reflexivity.
Qed.

(** The scenario of the specification: [CreateAccount("pw123")] against a
    server that answers with the result ["0xABC..."] and a null error. *)
Lemma success_returns_decoded_witness :
  let data := quoted "{'id':1,'jsonrpc':'2.0','result':'0xABC...','error':null}" in
  let body := quoted "{'id':1,'jsonrpc':'2.0','method':'accounts_createAccount','params':['pw123']}" in
  invoke (answering data) (W_CreateAccount "pw123") (NewCCClient node) quiet
  = Returns (GotString "0xABC..." None) (NewCCClient node)
            (sends quiet (outgoing (NewCCClient node) body)).
Proof.
  intros data body.
  refine (success_returns_decoded (answering data) (W_CreateAccount "pw123")
            (NewCCClient node) quiet body data
            {| RespID := 1; RespJSONRPC := "2.0";
               Result := Some (JSON.Str "0xABC..."); Error := None |}
            _ _ _ _ "0xABC..." _);
    vm_compute; reflexivity.
Defined.

(** C5. On a client made by [NewCCClient], whatever wrappers have run on it
    since, the envelope [call] builds for a method and a parameter list has
    id 1, version "2.0", that method and those parameters in their order.
    When the parameters have an encoding, [call] issues one POST, to the URL
    of the constructor, and its body is the JSON object with the members
    [id] 1, [jsonrpc] "2.0", [method] the method given and [params] the
    values of the arguments in their order ([null] when there are none).
    When they have none, [call] returns the error of the encoder and issues
    no POST. *)
Theorem call_envelope W u rpc method params fx :
  constructed W u rpc ->
  let envelope := {| ID := 1; JSONRPC := "2.0"; Method := method; Params := params |} in
  request rpc method params = envelope
  /\ match valuesOf params with
     | inr vs =>
       posts (effectsOf (call W method params rpc fx))
       = (posts fx
          ++ [{| URL := u; ContentType := "application/json";
                 Authorization := authorization (client rpc);
                 Body := JSON.encode
                           (JSON.Obj [("id", JSON.Int 1);
                                      ("jsonrpc", JSON.Str "2.0");
                                      ("method", JSON.Str method);
                                      ("params", match vs with
                                                 | [] => JSON.Null
                                                 | _ => JSON.Arr vs
                                                 end)]) |}])%list
     | inl e => call W method params rpc fx = Returns (None, Some e) rpc fx
     end.
Proof.
  intros Hc envelope. destruct (constructed_invariant W u rpc Hc) as [Hv Hu].
  assert (E : request rpc method params = envelope).
  { unfold request, envelope. rewrite Hv. reflexivity. }
  split; [exact E|].
  destruct (valuesOf params) as [e|vs] eqn:Hvs.
  - apply call_marshal_error. rewrite E.
    unfold Marshal, requestValue, envelope. cbn [Params]. rewrite Hvs. reflexivity.
  - assert (HM : Marshal (request rpc method params)
                 = inr (JSON.encode
                          (JSON.Obj [("id", JSON.Int 1);
                                     ("jsonrpc", JSON.Str "2.0");
                                     ("method", JSON.Str method);
                                     ("params", match vs with
                                                | [] => JSON.Null
                                                | _ => JSON.Arr vs
                                                end)]))).
    { rewrite E. unfold Marshal, requestValue, envelope.
      cbn [Params ID JSONRPC Method]. rewrite Hvs. reflexivity. }
    match type of HM with _ = inr ?b => set (body := b) in * end.
    assert (Ho : outgoing rpc body
                 = {| URL := u; ContentType := "application/json";
                      Authorization := authorization (client rpc); Body := body |}).
    { unfold outgoing. rewrite Hu. reflexivity. }
    rewrite <- Ho.
    destruct (server W (posts fx) (outgoing rpc body)) as [msg|[data|msg]] eqn:HS.
    + rewrite (call_post_error W _ _ _ fx _ _ HM HS). reflexivity.
    + rewrite (call_answered W _ _ _ fx _ _ HM HS). unfold answered.
      destruct (Debug rpc); reflexivity.
    + rewrite (call_read_error W _ _ _ fx _ _ HM HS). reflexivity.
Qed.

(** [RunSwarmService("web", ["n1", "n2"])] on a new client. *)
Lemma call_envelope_witness :
  let W := answering (quoted "{'result':'ok'}") in
  let envelope := {| ID := 1; JSONRPC := "2.0"; Method := "service_run";
                     Params := [AnyString "web"; AnyStrings (Some ["n1"; "n2"])] |} in
  request (NewCCClient node) "service_run" [AnyString "web"; AnyStrings (Some ["n1"; "n2"])]
  = envelope
  /\ posts (effectsOf (call W "service_run" [AnyString "web"; AnyStrings (Some ["n1"; "n2"])]
                            (NewCCClient node) quiet))
     = (posts quiet
        ++ [{| URL := node; ContentType := "application/json";
               Authorization := None;
               Body := quoted "{'id':1,'jsonrpc':'2.0','method':'service_run','params':['web',['n1','n2']]}" |}])%list.
Proof.
  intros W envelope.
  exact (call_envelope W node (NewCCClient node) "service_run"
           [AnyString "web"; AnyStrings (Some ["n1"; "n2"])] quiet
           (constructed_new W node)).
Defined.

(** C6 (counterexample). Two requests that do not come back as they were
    sent. A parameter that holds the single byte 0xFF, which is no valid
    UTF-8: [json.Marshal] writes it as the escape of U+FFFD, and the request
    read back holds the three bytes of U+FFFD in its place. And, with
    strings that are valid UTF-8, the integer 2^53 + 1: it is read back into
    a [float64], which holds 2^53. *)
Lemma request_not_read_back :
  ~ (forall method params body,
        Marshal (request (NewCCClient node) method params) = inr body ->
        ReadMethod (fst (UnmarshalRequest body)) = method
        /\ ReadParams (fst (UnmarshalRequest body)) = paramsRead params)
  /\ ~ (forall method params vs body,
           valuesOf params = inr vs ->
           Utf8.ValidString method = true ->
           forallb validText vs = true ->
           Marshal (request (NewCCClient node) method params) = inr body ->
           ReadMethod (fst (UnmarshalRequest body)) = method
           /\ ReadParams (fst (UnmarshalRequest body)) = paramsRead params).
Proof.
  split; intros H.
  - destruct (H "accounts_createAccount" [AnyString (str1 (chr 255))]
                (quoted "{'id':1,'jsonrpc':'2.0','method':'accounts_createAccount','params':['\ufffd']}")
                eq_refl) as [_ E].
    vm_compute in E. discriminate E.
  - destruct (H "discovery_discover" [AnyInt 9007199254740993]
                [JSON.Int 9007199254740993]
                (quoted "{'id':1,'jsonrpc':'2.0','method':'discovery_discover','params':[9007199254740993]}")
                eq_refl eq_refl eq_refl eq_refl) as [_ E].
    vm_compute in E. discriminate E.
Qed.

(** C6 (amended). For every method name that is valid UTF-8 and every
    parameter list that [json.Marshal] can encode, whose strings are valid
    UTF-8 and whose integers are at most 2^53 in magnitude, the request
    [call] builds is encoded, and [json.Unmarshal] of the encoding into an
    [rpcRequest] gives id 1, the same method name and the same parameters
    in the same order: every string, boolean and list as it was sent, every
    integer as the [float64] of that integer. *)
Theorem request_round_trip rpc method params vs :
  valuesOf params = inr vs ->
  Utf8.ValidString method = true ->
  forallb validText vs = true ->
  forallb float64Exact params = true ->
  exists body read,
    Marshal (request rpc method params) = inr body
    /\ UnmarshalRequest body = (read, None)
    /\ ReadID read = 1%Z
    /\ ReadMethod read = method
    /\ ReadParams read = paramsRead params.
Proof.
  intros Hvs Hm Hv Hx.
  destruct (JSONFacts.Marshal_read_back (request rpc method params) vs Hvs eq_refl)
    as (body & HM & HU).
  assert (HP : paramsInto (match vs with
                           | [] => JSON.Null
                           | _ => JSON.Arr (map coerced vs)
                           end) None = (paramsRead params, None)).
  { destruct params as [|a l].
    - cbn in Hvs. inversion Hvs. reflexivity.
    - assert (exists v vs', vs = v :: vs') as (v & vs' & ->).
      { cbn [valuesOf] in Hvs. destruct (valueOf a); [discriminate Hvs|].
        destruct (valuesOf l); [discriminate Hvs|]. inversion Hvs. eauto. }
      cbn [paramsInto paramsRead].
      rewrite (elementsInto_readOf (a :: l) (v :: vs') [] Hvs Hv Hx). reflexivity. }
  rewrite HP in HU.
  eexists body, _. split; [exact HM|]. split; [exact HU|].
  cbn [ReadID ReadMethod ReadParams request ID Method].
  split; [reflexivity|]. split; [|reflexivity].
  now apply JSONFacts.coerce_valid.
Qed.

(** [RunSwarmService]-like parameters with an integer beside them. *)
Lemma request_round_trip_witness :
  exists body read,
    Marshal (request (NewCCClient node) "service_run"
                     [AnyString "web"; AnyStrings (Some ["n1"; "n2"]); AnyInt (-3)])
    = inr body
    /\ UnmarshalRequest body = (read, None)
    /\ ReadID read = 1%Z
    /\ ReadMethod read = "service_run"
    /\ ReadParams read
       = Some [RString "web"; RSlice [RString "n1"; RString "n2"];
               RNumber (QArith_base.inject_Z (-3))].
Proof.
  exact (request_round_trip (NewCCClient node) "service_run"
           [AnyString "web"; AnyStrings (Some ["n1"; "n2"]); AnyInt (-3)]
           [JSON.Str "web"; JSON.Arr [JSON.Str "n1"; JSON.Str "n2"]; JSON.Int (-3)]
           eq_refl eq_refl eq_refl eq_refl).
Defined.

(** C7 (the code departs from the claim). A response body that is no JSON:
    [call] returns the syntax error to its caller, but [ListAccounts]
    unmarshals the nil result that comes with it, and the process exits in
    [fatalIfErr] instead of the caller getting the error. *)
Theorem ListAccounts_malformed_response_exits :
  let W := answering "<html>502 Bad Gateway</html>" in
  let body := quoted "{'id':1,'jsonrpc':'2.0','method':'accounts_listAccounts','params':null}" in
  let fx := sends quiet (outgoing (NewCCClient node) body) in
  call W "accounts_listAccounts" [] (NewCCClient node) quiet
  = Returns (None, Some SyntaxError) (NewCCClient node) fx
  /\ ListAccounts W (NewCCClient node) quiet
     = Exits (logs fx (Fatalf (notOfType "[]string") SyntaxError)).
Proof.
  split; vm_compute; reflexivity.
Qed.

(** The upload client as [UploadFile] leaves it. *)
Lemma UploadFile_unfold W filename token c fx :
  let c' := {| upload_url := upload_url c; upload_client := bearer token;
               upload_Debug := upload_Debug c |} in
  let boundary := randomBoundary W (writers fx) in
  let fx1 := {| posts := posts fx; logged := logged fx; printed := printed fx;
                writers := 1 + writers fx |} in
  UploadFile W filename token c fx
  = match files W filename with
    | OpenError msg =>
      Returns (EmptyString, Some (PathError "open" filename msg)) c'
              {| posts := posts fx1; logged := logged fx1;
                 printed := (printed fx1 ++ ["error opening file"])%list;
                 writers := writers fx1 |}
    | Opened (FileError msg) => Returns (EmptyString, Some (ReadError msg)) c' fx1
    | Opened (FileData data) =>
      let body := closeWriter boundary
                    (fst (CreateFormFile boundary "file" filename EmptyString) ++ data) in
      let req := {| URL := upload_url c; ContentType := FormDataContentType boundary;
                    Authorization := Some ("Bearer " ++ token); Body := body |} in
      Returns (match server W (posts fx) req with
               | PostError msg => (EmptyString, Some (URLError "Post" (upload_url c) msg))
               | PostResponse (BodyError msg) => (EmptyString, Some (ReadError msg))
               | PostResponse (BodyData respBody) => (respBody, None)
               end) c' (sends fx1 req)
    end.
Proof.
  cbv zeta. unfold UploadFile, bind, setUploadClient, assign, multipart_NewWriter,
    os_Open, fmt_Println, receiver, Post, ret, CreateFormFile.
  cbn [fst upload_client upload_url posts logged printed writers].
  destruct (files W filename) as [msg|[data|msg]]; try reflexivity.
  cbn [fst upload_client upload_url posts logged printed writers].
  change (authorization (bearer token)) with (Some ("Bearer " ++ token)).
  match goal with
  | |- context [server W ?p ?r] => destruct (server W p r) as [m|[d|m]]
  end; reflexivity.
Qed.

(** C8. When the path names no file that can be read ([os.Open] fails, or
    reading the opened file fails), [UploadFile] returns that error with an
    empty body, and no POST is issued. *)
Theorem UploadFile_unreadable_no_post W filename token c fx :
  (forall data, files W filename <> Opened (FileData data)) ->
  exists err c' fx',
    UploadFile W filename token c fx = Returns (EmptyString, Some err) c' fx'
    /\ posts fx' = posts fx
    /\ (forall msg, files W filename = OpenError msg -> err = PathError "open" filename msg)
    /\ (forall msg, files W filename = Opened (FileError msg) -> err = ReadError msg).
Proof.
  intros H. rewrite UploadFile_unfold. cbv zeta.
  destruct (files W filename) as [msg|[data|msg]].
  - eexists _, _, _. split; [reflexivity|]. split; [reflexivity|].
    split; intros m E; inversion E; reflexivity.
  - now contradiction (H data).
  - eexists _, _, _. split; [reflexivity|]. split; [reflexivity|].
    split; intros m E; inversion E; reflexivity.
Qed.

Lemma UploadFile_unreadable_no_post_witness :
  exists err c' fx',
    UploadFile (answering "ok") "/no/such/file" "tok123" (NewUploadClient node) quiet
    = Returns (EmptyString, Some err) c' fx'
    /\ posts fx' = posts quiet
    /\ (forall msg, files (answering "ok") "/no/such/file" = OpenError msg ->
                    err = PathError "open" "/no/such/file" msg)
    /\ (forall msg, files (answering "ok") "/no/such/file" = Opened (FileError msg) ->
                    err = ReadError msg).
Proof.
  apply (UploadFile_unreadable_no_post (answering "ok") "/no/such/file" "tok123"
           (NewUploadClient node) quiet).
  intros data. cbn. discriminate.
Defined.

Lemma invokeAll_posts W ws rpc fx :
  exists added,
    posts (effectsOf (invokeAll W ws rpc fx)) = (posts fx ++ added)%list
    /\ (Forall (fun w => tokenOf w = None) ws ->
        Forall (fun req => Authorization req = authorization (client rpc)) added
        /\ forall rs rpc' fx',
             invokeAll W ws rpc fx = Returns rs rpc' fx' ->
             List.length added = List.length ws /\ rpc' = rpc).
Proof.
  revert rpc fx. induction ws as [|w ws IH]; intros rpc fx.
  - exists []. split; [cbn; now rewrite List.app_nil_r|].
    intros _. split; [constructor|].
    intros rs rpc' fx' H. cbn in H. unfold ret in H. inversion H. split; reflexivity.
  - destruct (invoke_posts W w rpc fx) as (body & _ & Hp).
    cbn [invokeAll]. unfold bind at 1.
    destruct (invoke W w rpc fx) as [r rpc1 fx1|fx1] eqn:Hi.
    + pose proof (invoke_returns_bound _ _ _ _ _ _ _ Hi) as Hb.
      destruct (IH rpc1 fx1) as (added & Ha & Hrest).
      cbn [effectsOf] in Hp.
      exists (outgoing (bound w rpc) body :: added). split.
      * unfold bind.
        match goal with
        | |- posts (effectsOf ?m) = _ =>
          assert (E : posts (effectsOf m) = posts (effectsOf (invokeAll W ws rpc1 fx1)))
            by (destruct (invokeAll W ws rpc1 fx1); reflexivity)
        end.
        rewrite E, Ha, Hp, <- List.app_assoc. reflexivity.
      * intros HF. inversion HF as [|? ? Hw HF']; subst.
        assert (Hrpc : bound w rpc = rpc) by (unfold bound; now rewrite Hw).
        rewrite Hrpc in *. destruct (Hrest HF') as [HA HR].
        split; [constructor; [reflexivity | exact HA]|].
        intros rs rpc' fx'. unfold bind. rewrite Hi.
        destruct (invokeAll W ws rpc fx1) as [rs2 rpc2 fx2|fx2] eqn:E;
          [|intros H; discriminate H].
        destruct (HR _ _ _ eq_refl) as [Hl ->].
        unfold ret. intros H. inversion H; subst.
        split; [cbn; now rewrite Hl | reflexivity].
    + cbn [effectsOf] in *. exists [outgoing (bound w rpc) body]. split; [exact Hp|].
      intros HF. inversion HF as [|? ? Hw HF']; subst.
      assert (Hrpc : bound w rpc = rpc) by (unfold bound; now rewrite Hw).
      rewrite Hrpc. split; [constructor; [reflexivity|constructor]|].
      intros rs rpc' fx'. unfold bind. rewrite Hi. intros H; discriminate H.
Qed.

(** No wrapper binds the client back to the default transport. *)
Lemma invokeAll_keeps_token W ws rpc fx rs rpc' fx' :
  client rpc <> DefaultClient ->
  invokeAll W ws rpc fx = Returns rs rpc' fx' ->
  client rpc' <> DefaultClient.
Proof.
  revert rpc fx rs. induction ws as [|w ws IH]; intros rpc fx rs Hc.
  - cbn. unfold ret. intros H. inversion H; subst; exact Hc.
  - cbn [invokeAll]. unfold bind at 1.
    destruct (invoke W w rpc fx) as [r rpc1 fx1|fx1] eqn:Hi; [|intros H; discriminate H].
    unfold bind.
    destruct (invokeAll W ws rpc1 fx1) as [rs2 rpc2 fx2|fx2] eqn:E;
      [|intros H; discriminate H].
    unfold ret. intros H. inversion H; subst.
    apply (IH rpc1 fx1 rs2); [|exact E].
    apply invoke_returns_bound in Hi. subst rpc1.
    unfold bound. destruct (tokenOf w); cbn; [discriminate | exact Hc].
Qed.

(** On a client bound to a token, every POST carries a bearer token. *)
Lemma invokeAll_authorized W ws :
  forall rpc fx t0,
    client rpc = bearer t0 ->
    exists added,
      posts (effectsOf (invokeAll W ws rpc fx)) = (posts fx ++ added)%list
      /\ Forall (fun req => exists t, Authorization req = Some ("Bearer " ++ t)%string) added.
Proof.
  induction ws as [|w ws IH]; intros rpc fx t0 Hc.
  - exists []. split; [cbn; now rewrite List.app_nil_r | constructor].
  - destruct (invoke_posts W w rpc fx) as (body & _ & Hp).
    assert (Hb : exists t, client (bound w rpc) = bearer t).
    { unfold bound. destruct (tokenOf w) as [t|]; [now exists t | now exists t0]. }
    destruct Hb as [t Hb].
    assert (Ha : Authorization (outgoing (bound w rpc) body) = Some ("Bearer " ++ t)).
    { unfold outgoing. cbn [Authorization]. rewrite Hb. reflexivity. }
    cbn [invokeAll]. unfold bind at 1.
    destruct (invoke W w rpc fx) as [r rpc1 fx1|fx1] eqn:Hi; cbn [effectsOf] in Hp.
    + pose proof (invoke_returns_bound _ _ _ _ _ _ _ Hi) as ->.
      destruct (IH (bound w rpc) fx1 t Hb) as (added & Hadd & HF).
      exists (outgoing (bound w rpc) body :: added). split.
      * unfold bind.
        match goal with
        | |- posts (effectsOf ?m) = _ =>
          assert (E : posts (effectsOf m)
                      = posts (effectsOf (invokeAll W ws (bound w rpc) fx1)))
            by (destruct (invokeAll W ws (bound w rpc) fx1); reflexivity)
        end.
        rewrite E, Hadd, Hp, <- List.app_assoc. reflexivity.
      * constructor; [now exists t | exact HF].
    + exists [outgoing (bound w rpc) body]. split; [exact Hp|].
      constructor; [now exists t | constructor].
Qed.

(** C9. After a wrapper that takes a token has returned, the client is
    bound to the transport of that token. Every POST of the wrappers without
    a token that are called on the client afterwards carries
    [Authorization: Bearer <token>], and they leave the client bound to it.
    Whatever wrappers are called afterwards, every POST carries a bearer
    token and the client is never bound to the default transport again. *)
Theorem token_transport_persists W w token rpc fx r rpc1 fx1 :
  tokenOf w = Some token ->
  invoke W w rpc fx = Returns r rpc1 fx1 ->
  client rpc1 = bearer token
  /\ (forall ws,
         Forall (fun w' => tokenOf w' = None) ws ->
         exists added,
           posts (effectsOf (invokeAll W ws rpc1 fx1)) = (posts fx1 ++ added)%list
           /\ Forall (fun req => Authorization req = Some ("Bearer " ++ token)%string) added
           /\ (forall rs rpc2 fx2,
                  invokeAll W ws rpc1 fx1 = Returns rs rpc2 fx2 ->
                  List.length added = List.length ws /\ client rpc2 = bearer token))
  /\ (forall ws,
         (exists added,
             posts (effectsOf (invokeAll W ws rpc1 fx1)) = (posts fx1 ++ added)%list
             /\ Forall (fun req => exists t, Authorization req = Some ("Bearer " ++ t)%string)
                       added)
         /\ (forall rs rpc2 fx2,
                invokeAll W ws rpc1 fx1 = Returns rs rpc2 fx2 -> client rpc2 <> DefaultClient)).
Proof.
  intros Ht Hi. apply invoke_returns_bound in Hi. subst rpc1.
  assert (Hc : client (bound w rpc) = bearer token).
  { unfold bound. rewrite Ht. reflexivity. }
  split; [exact Hc|]. split.
  - intros ws HF.
    destruct (invokeAll_posts W ws (bound w rpc) fx1) as (added & Ha & Hrest).
    destruct (Hrest HF) as [HA HR]. exists added. split; [exact Ha|]. split.
    + rewrite Hc in HA. exact HA.
    + intros rs rpc2 fx2 H. destruct (HR _ _ _ H) as [Hl ->]. split; [exact Hl | exact Hc].
  - intros ws. split.
    + exact (invokeAll_authorized W ws (bound w rpc) fx1 token Hc).
    + intros rs rpc2 fx2 H.
      apply (invokeAll_keeps_token W ws (bound w rpc) fx1 rs rpc2 fx2); [|exact H].
      rewrite Hc. discriminate.
Qed.

(** [ListNodeImages] with the token ["tok123"], then any wrappers. *)
Lemma token_transport_persists_witness :
  let W := answering (quoted "{'result':'ok'}") in
  let rpc1 := withClient (bearer "tok123") (NewCCClient node) in
  let fx1 := effectsOf (invoke W (W_ListNodeImages "node1" "tok123") (NewCCClient node) quiet) in
  client rpc1 = bearer "tok123"
  /\ (forall ws,
         Forall (fun w' => tokenOf w' = None) ws ->
         exists added,
           posts (effectsOf (invokeAll W ws rpc1 fx1)) = (posts fx1 ++ added)%list
           /\ Forall (fun req => Authorization req = Some "Bearer tok123") added
           /\ (forall rs rpc2 fx2,
                  invokeAll W ws rpc1 fx1 = Returns rs rpc2 fx2 ->
                  List.length added = List.length ws /\ client rpc2 = bearer "tok123"))
  /\ (forall ws,
         (exists added,
             posts (effectsOf (invokeAll W ws rpc1 fx1)) = (posts fx1 ++ added)%list
             /\ Forall (fun req => exists t, Authorization req = Some ("Bearer " ++ t)%string)
                       added)
         /\ (forall rs rpc2 fx2,
                invokeAll W ws rpc1 fx1 = Returns rs rpc2 fx2 -> client rpc2 <> DefaultClient)).
Proof.
  intros W rpc1 fx1.
  refine (token_transport_persists W (W_ListNodeImages "node1" "tok123") "tok123"
            (NewCCClient node) quiet (GotString "ok" None) rpc1 fx1 eq_refl _).
  vm_compute. reflexivity.
Defined.

(** C10. [UploadFile] always returns with the client bound to the transport
    of the token, whatever it returns. When [os.Open] fails, it returns the
    error and no POST has been issued, yet a client that was on the default
    transport is left on the token's. *)
Theorem UploadFile_rebinds_before_open W filename token u fx :
  let c := NewUploadClient u in
  let c' := {| upload_url := u; upload_client := bearer token; upload_Debug := false |} in
  upload_client c = DefaultClient
  /\ (exists r fx', UploadFile W filename token c fx = Returns r c' fx')
  /\ (forall msg,
         files W filename = OpenError msg ->
         exists fx',
           UploadFile W filename token c fx
           = Returns (EmptyString, Some (PathError "open" filename msg)) c' fx'
           /\ posts fx' = posts fx).
Proof.
  cbv zeta. split; [reflexivity|]. split.
  - rewrite UploadFile_unfold. cbv zeta.
    destruct (files W filename) as [msg|[data|msg]]; eexists _, _; reflexivity.
  - intros msg H. rewrite UploadFile_unfold, H. eexists. split; reflexivity.
Qed.

Lemma UploadFile_rebinds_before_open_witness :
  let W := answering "ok" in
  let c' := {| upload_url := node; upload_client := bearer "tok123"; upload_Debug := false |} in
  upload_client (NewUploadClient node) = DefaultClient
  /\ (exists r fx', UploadFile W "/no/such/file" "tok123" (NewUploadClient node) quiet
                    = Returns r c' fx')
  /\ (forall msg,
         files W "/no/such/file" = OpenError msg ->
         exists fx',
           UploadFile W "/no/such/file" "tok123" (NewUploadClient node) quiet
           = Returns (EmptyString, Some (PathError "open" "/no/such/file" msg)) c' fx'
           /\ posts fx' = posts quiet).
Proof.
  intros W c'.
  exact (UploadFile_rebinds_before_open W "/no/such/file" "tok123" node quiet).
Defined.

(** * Further properties

    What the code does besides: the edges of [call], the answers of a
    server taken through the wrappers, the requests on the wire, the text of
    a remote error, and [UploadFile] when the file can be read. *)

(** ** Helpers *)

Lemma valueOf_error a : forall e, valueOf a = inl e -> e = UnsupportedTypeError "chan int".
Proof.
  induction a as [|b|n|s|l|l IH|] using JSONFacts.any_nested_ind; intros e H;
    try discriminate H.
  - destruct l; discriminate H.
  - cbn [valueOf] in H.
    match type of H with
    | match ?f l with _ => _ end = _ => set (all := f) in *
    end.
    assert (A : forall e', all l = inl e' -> e' = UnsupportedTypeError "chan int").
    { clear H. induction IH as [|a l Ha _ IHl]; intros e' H'.
      - discriminate H'.
      - cbn in H'. fold all in H'. destruct (valueOf a) as [e1|v] eqn:Ev.
        + inversion H'; subst. now apply Ha.
        + destruct (all l) as [e2|vs]; [|discriminate H'].
          inversion H'; subst. now apply IHl. }
    destruct (all l) as [e'|vs]; [|discriminate H].
    inversion H; subst. now apply A.
  - now inversion H.
Qed.

Lemma valuesOf_chan params :
  In AnyChan params -> valuesOf params = inl (UnsupportedTypeError "chan int").
Proof.
  induction params as [|a l IH]; intros H; [contradiction|].
  cbn [valuesOf]. destruct (valueOf a) as [e|v] eqn:Ev.
  - now rewrite (valueOf_error a e Ev).
  - destruct H as [->|H]; [discriminate Ev|]. now rewrite (IH H).
Qed.

(** Whatever body a response has, [call] makes no result of it beside an
    error. *)
Lemma interpret_nil_with_error data res e :
  interpret data = (res, Some e) -> res = None.
Proof.
  unfold interpret. destruct (UnmarshalResponse data) as [resp [e1|]].
  - intros H; now inversion H.
  - destruct (Error resp); intros H; now inversion H.
Qed.

Lemma call_nil_beside_error W method params rpc fx res e rpc' fx' :
  call W method params rpc fx = Returns (res, Some e) rpc' fx' -> res = None.
Proof.
  destruct (Marshal (request rpc method params)) as [e1|body] eqn:HM.
  - rewrite (call_marshal_error W _ _ _ fx _ HM). intros H; now inversion H.
  - destruct (server W (posts fx) (outgoing rpc body)) as [msg|[data|msg]] eqn:HS.
    + rewrite (call_post_error W _ _ _ fx _ _ HM HS). intros H; now inversion H.
    + rewrite (call_answered W _ _ _ fx _ _ HM HS).
      destruct (interpret data) as [res1 err1] eqn:HI. intros H. inversion H; subst.
      exact (interpret_nil_with_error _ _ _ HI).
    + rewrite (call_read_error W _ _ _ fx _ _ HM HS). intros H; now inversion H.
Qed.

Lemma bound_withDebug w d rpc : bound w (withDebug d rpc) = withDebug d (bound w rpc).
Proof. unfold bound. destruct (tokenOf w); reflexivity. Qed.

Lemma decode_nil sh err :
  sh <> Nothing -> exists r, decode sh None err = (r, Some SyntaxError).
Proof.
  destruct sh; intros H; [eexists; reflexivity | eexists; reflexivity | congruence].
Qed.

Lemma decode_errorOf sh res err r :
  decode sh res err = (r, None) -> errorOf r = err.
Proof.
  destruct sh; cbn [decode].
  - destruct (UnmarshalString res) as [v [e|]]; intros H; inversion H; reflexivity.
  - destruct (UnmarshalStrings res) as [v [e|]]; intros H; inversion H; reflexivity.
  - intros H; inversion H; reflexivity.
Qed.

Lemma interpret_parsed data v :
  JSON.parse data = Some v ->
  interpret data
  = let (resp, err) := rpcResponseInto v newResponse in
    match err with
    | Some e => (None, Some e)
    | None =>
      match Error resp with
      | Some e => (None, Some (RPCError e))
      | None => (Result resp, None)
      end
    end.
Proof.
  intros H. unfold interpret, UnmarshalResponse. rewrite H. reflexivity.
Qed.

Lemma interpret_resultEnvelope data version id result :
  JSON.parse data = Some (resultEnvelope version id result) ->
  interpret data
  = match intInto id 0 with
    | (_, Some e) => (None, Some e)
    | (_, None) => (Some result, None)
    end.
Proof.
  intros H. rewrite (interpret_parsed _ _ H). cbn.
  destruct (intInto id 0) as [i [e|]]; reflexivity.
Qed.

Lemma interpret_errorEnvelope data version id result code message :
  JSON.parse data = Some (errorEnvelope version id result code message) ->
  interpret data
  = match intInto id 0, intInto (JSON.Int code) 0 with
    | (_, Some e), _ => (None, Some e)
    | (_, None), (_, Some e) => (None, Some e)
    | (_, None), (c, None) => (None, Some (RPCError {| Code := c; Message := message |}))
    end.
Proof.
  intros H. rewrite (interpret_parsed _ _ H).
  unfold errorEnvelope. destruct result as [v|]; cbn;
    destruct (intInto id 0) as [i [e|]]; destruct (fitsInt code); reflexivity.
Qed.

Lemma stringsOf_Str l : stringsOf (map JSON.Str l) = (l, None).
Proof.
  induction l as [|s l IH]; [reflexivity|].
  cbn [map stringsOf stringInto]. rewrite IH. reflexivity.
Qed.

(** What a wrapper's [call] makes of an answer. *)
Lemma invoke_answered W w rpc fx v :
  answers W (posts fx) v ->
  exists data fx',
    JSON.parse data = Some v
    /\ call W (methodOf w) (paramsOf w) (bound w rpc) fx
       = Returns (interpret data) (bound w rpc) fx'.
Proof.
  intros (data & Hp & HS). destruct (wrapper_marshals w (bound w rpc)) as [body HM].
  exists data, (answered (bound w rpc) fx (methodOf w) body data). split; [exact Hp|].
  exact (call_answered W _ _ _ fx _ _ HM (HS _)).
Qed.

Lemma bind_posts {S A B : Type} (m : M S A) (f : A -> B) (self : S) (fx : effects) :
  posts (effectsOf ((a <- m ;; ret (f a))%go self fx)) = posts (effectsOf (m self fx)).
Proof. unfold bind, ret. destruct (m self fx); reflexivity. Qed.

(** The digits of a number end where a blank follows them. *)
Lemma digits_blank_inj d1 : forall d2 r1 r2,
  JSON.digits d1 ++ String " " r1 = JSON.digits d2 ++ String " " r2 ->
  JSON.digits d1 = JSON.digits d2 /\ r1 = r2.
Proof.
  induction d1 as [|d1 IH|d1 IH|d1 IH|d1 IH|d1 IH|d1 IH|d1 IH|d1 IH|d1 IH|d1 IH];
    intros [|d2|d2|d2|d2|d2|d2|d2|d2|d2|d2] r1 r2 H;
    cbn [JSON.digits append] in *; try discriminate H;
    try (inversion H; split; reflexivity);
    inversion H as [H']; destruct (IH _ _ _ H') as [-> ->]; split; reflexivity.
Qed.

Lemma digits_no_sign d r s : JSON.digits d ++ String " " r <> String "-" s.
Proof. destruct d; cbn; discriminate. Qed.

Lemma encodeInt_blank_inj z1 z2 r1 r2 :
  JSON.encodeInt z1 ++ String " " r1 = JSON.encodeInt z2 ++ String " " r2 ->
  JSON.encodeInt z1 = JSON.encodeInt z2 /\ r1 = r2.
Proof.
  unfold JSON.encodeInt. intros H.
  destruct z1 as [|p1|p1], z2 as [|p2|p2]; try (apply digits_blank_inj; exact H);
    cbn [append] in H.
  - now apply digits_no_sign in H.
  - now apply digits_no_sign in H.
  - symmetry in H. now apply digits_no_sign in H.
  - symmetry in H. now apply digits_no_sign in H.
  - inversion H as [H']. destruct (digits_blank_inj _ _ _ _ H') as [E1 E2].
    split; [f_equal; exact E1 | exact E2].
Qed.

Lemma encodeInt_inj z1 z2 : JSON.encodeInt z1 = JSON.encodeInt z2 -> z1 = z2.
Proof.
  intros H.
  pose proof (JSONFacts.scanNumber_encodeInt z1 EmptyString eq_refl) as H1.
  pose proof (JSONFacts.scanNumber_encodeInt z2 EmptyString eq_refl) as H2.
  rewrite H in H1. rewrite H1 in H2. now inversion H2.
Qed.

Lemma append_inj_r s t1 t2 : s ++ t1 = s ++ t2 -> t1 = t2.
Proof.
  induction s as [|c s IH]; cbn; intros H; [exact H|]. inversion H. now apply IH.
Qed.

Lemma append_last_inj s1 s2 c : s1 ++ str1 c = s2 ++ str1 c -> s1 = s2.
Proof.
  revert s2. induction s1 as [|a s1 IH]; intros [|b s2] H; cbn in H.
  - reflexivity.
  - inversion H. destruct s2; discriminate.
  - inversion H. destruct s1; discriminate.
  - inversion H. f_equal. now apply IH.
Qed.

(** ** [call] and the wrappers *)

(** X1. When one of the parameters is a channel, which [json.Marshal] has
    no encoding for, [call] returns a nil result and the
    [UnsupportedTypeError] of the encoder; nothing is posted, nothing is
    logged, and the client is as it was. *)
Theorem call_unencodable_parameter W method params rpc fx :
  In AnyChan params ->
  call W method params rpc fx
  = Returns (None, Some (UnsupportedTypeError "chan int")) rpc fx.
Proof.
  intros H. apply call_marshal_error.
  unfold Marshal, requestValue. cbn [request Params].
  now rewrite (valuesOf_chan params H).
Qed.

(** [service_run] with a channel as its second parameter. *)
Lemma call_unencodable_parameter_witness :
  call (answering "ok") "service_run" [AnyString "web"; AnyChan] (NewCCClient node) quiet
  = Returns (None, Some (UnsupportedTypeError "chan int")) (NewCCClient node) quiet.
Proof.
  apply (call_unencodable_parameter (answering "ok") "service_run" [AnyString "web"; AnyChan]).
  right; left; reflexivity.
Defined.

(** X2. On a client that holds an HTTP client, as every client made by
    [NewCCClient] does, [call] always returns to its caller and leaves the
    client as it was. It never returns a result beside an error: with every error the
    result is nil, also when the response holds both members. It prints
    nothing, creates no multipart writer, logs nothing when [Debug] is off,
    and never logs anything but [log.Println] lines. *)
Theorem call_result_or_error W method params rpc fx :
  exists res err fx',
    call W method params rpc fx = Returns (res, err) rpc fx'
    /\ (err <> None -> res = None)
    /\ printed fx' = printed fx /\ writers fx' = writers fx
    /\ (Debug rpc = false -> logged fx' = logged fx)
    /\ (forall l, In l (logged fx') -> In l (logged fx) \/ exists s, l = Println s).
Proof.
  destruct (Marshal (request rpc method params)) as [e|body] eqn:HM.
  - exists None, (Some e), fx. rewrite (call_marshal_error W _ _ _ fx _ HM).
    repeat split; auto.
  - destruct (server W (posts fx) (outgoing rpc body)) as [msg|[data|msg]] eqn:HS.
    + eexists _, _, _. rewrite (call_post_error W _ _ _ fx _ _ HM HS).
      repeat split; auto.
    + destruct (interpret data) as [res err] eqn:HI.
      exists res, err, (answered rpc fx method body data).
      rewrite (call_answered W _ _ _ fx _ _ HM HS), HI.
      split; [reflexivity|]. split.
      * destruct err as [e|]; [|congruence]. intros _.
        exact (interpret_nil_with_error _ _ _ HI).
      * unfold answered. destruct (Debug rpc); cbn; repeat split; auto; try discriminate.
        intros l Hl. apply in_app_or in Hl. destruct Hl as [Hl|[<-|[]]]; [now left|].
        right. eexists; reflexivity.
    + eexists _, _, _. rewrite (call_read_error W _ _ _ fx _ _ HM HS).
      repeat split; auto.
Qed.

(** X3. The [Debug] flag changes the log and nothing else. A wrapper called
    on a client with the flag off and on a client with the flag on returns
    in both runs or exits in both; it returns the same value, issues the
    same POSTs, and leaves clients that differ in the flag only. With the
    flag off a returning wrapper logs nothing; with the flag on it logs at
    most one [log.Println] line, before the line of [log.Fatalf] if it
    exits. *)
Theorem Debug_only_logs W w rpc fx :
  match invoke W w (withDebug false rpc) fx, invoke W w (withDebug true rpc) fx with
  | Returns r0 rpc0 fx0, Returns r1 rpc1 fx1 =>
    r0 = r1 /\ rpc0 = withDebug false rpc1
    /\ posts fx0 = posts fx1 /\ logged fx0 = logged fx
    /\ (logged fx1 = logged fx \/ exists s, logged fx1 = (logged fx ++ [Println s])%list)
  | Exits fx0, Exits fx1 =>
    posts fx0 = posts fx1
    /\ exists unErr,
         let fatal := Fatalf (notOfType (typeName (shapeOf w))) unErr in
         logged fx0 = (logged fx ++ [fatal])%list
         /\ (logged fx1 = (logged fx ++ [fatal])%list
             \/ exists s, logged fx1 = (logged fx ++ [Println s; fatal])%list)
  | _, _ => False
  end.
Proof.
  rewrite !invoke_unfold, !bound_withDebug.
  set (b := bound w rpc).
  destruct (wrapper_marshals w (withDebug false b)) as [body HM].
  assert (HM1 : Marshal (request (withDebug true b) (methodOf w) (paramsOf w)) = inr body)
    by exact HM.
  change (outgoing (withDebug true b) body) with (outgoing (withDebug false b) body).
  destruct (server W (posts fx) (outgoing (withDebug false b) body))
    as [msg|[data|msg]] eqn:HS.
  - rewrite (call_post_error W _ _ _ fx _ _ HM HS).
    assert (HS1 : server W (posts fx) (outgoing (withDebug true b) body) = PostError msg)
      by exact HS.
    rewrite (call_post_error W _ _ _ fx _ _ HM1 HS1).
    cbn [url withDebug].
    destruct (decode (shapeOf w) None _) as [r [unErr|]].
    + split; [reflexivity|]. exists unErr. cbn. split; [reflexivity|left; reflexivity].
    + repeat split; auto.
  - rewrite (call_answered W _ _ _ fx _ _ HM HS).
    assert (HS1 : server W (posts fx) (outgoing (withDebug true b) body)
                  = PostResponse (BodyData data)) by exact HS.
    rewrite (call_answered W _ _ _ fx _ _ HM1 HS1).
    destruct (interpret data) as [res err].
    destruct (decode (shapeOf w) res err) as [r [unErr|]]; unfold answered; cbn.
    + split; [reflexivity|]. exists unErr. split; [reflexivity|]. right.
      eexists. rewrite <- List.app_assoc. reflexivity.
    + repeat split; auto. right. eexists; reflexivity.
  - rewrite (call_read_error W _ _ _ fx _ _ HM HS).
    assert (HS1 : server W (posts fx) (outgoing (withDebug true b) body)
                  = PostResponse (BodyError msg)) by exact HS.
    rewrite (call_read_error W _ _ _ fx _ _ HM1 HS1).
    destruct (decode (shapeOf w) None _) as [r [unErr|]].
    + split; [reflexivity|]. exists unErr. cbn. split; [reflexivity|left; reflexivity].
    + repeat split; auto.
Qed.

(** X4. A wrapper that decodes its result never hands an error to its
    caller: whenever it returns, the error it returns is nil; and whenever
    [call] has returned an error to it, whatever the error, the process
    exits in [fatalIfErr] on the nil result that came with the error. *)
Theorem decoding_wrapper_error_is_dead W w rpc fx :
  shapeOf w <> Nothing ->
  (forall r rpc' fx', invoke W w rpc fx = Returns r rpc' fx' -> errorOf r = None)
  /\ (forall res e rpc' fx',
         call W (methodOf w) (paramsOf w) (bound w rpc) fx = Returns (res, Some e) rpc' fx' ->
         invoke W w rpc fx
         = Exits (logs fx' (Fatalf (notOfType (typeName (shapeOf w))) SyntaxError))).
Proof.
  intros Hs.
  destruct (call_returns W (methodOf w) (paramsOf w) (bound w rpc) fx)
    as (res & err & fx1 & Hc & _).
  assert (Hnil : err <> None -> res = None).
  { destruct err as [e|]; [|congruence]. intros _.
    exact (call_nil_beside_error _ _ _ _ _ _ _ _ _ Hc). }
  split.
  - intros r rpc' fx'. rewrite invoke_unfold, Hc.
    destruct (decode (shapeOf w) res err) as [r1 [unErr|]] eqn:Hd; [discriminate|].
    intros H. inversion H; subst r1 rpc' fx1.
    rewrite (decode_errorOf _ _ _ _ Hd).
    destruct err as [e|]; [|reflexivity].
    rewrite (Hnil ltac:(discriminate)) in Hd.
    destruct (decode_nil (shapeOf w) (Some e) Hs) as [r' Hd']. congruence.
  - intros res' e rpc' fx'. rewrite Hc. intros H. inversion H; subst res' err rpc' fx1.
    rewrite invoke_unfold, Hc, (Hnil ltac:(discriminate)).
    destruct (decode_nil (shapeOf w) (Some e) Hs) as [r' ->]. reflexivity.
Qed.

(** [LvlDBSelectImage] against a server that answers with an error. *)
Lemma decoding_wrapper_error_is_dead_witness :
  let W := answering (quoted "{'error':{'code':-32000,'message':'no such image'}}") in
  let w := W_LvlDBSelectImage "img1" in
  (forall r rpc' fx',
      invoke W w (NewCCClient node) quiet = Returns r rpc' fx' -> errorOf r = None)
  /\ (forall res e rpc' fx',
         call W (methodOf w) (paramsOf w) (bound w (NewCCClient node)) quiet
         = Returns (res, Some e) rpc' fx' ->
         invoke W w (NewCCClient node) quiet
         = Exits (logs fx' (Fatalf (notOfType (typeName (shapeOf w))) SyntaxError))).
Proof.
  intros W w.
  apply (decoding_wrapper_error_is_dead W w (NewCCClient node) quiet).
  discriminate.
Defined.

(** ** The answers of a server *)

(** X5. When the body of the response is a JSON text of the object with
    the members [jsonrpc], [id] and [result], the id an integer that fits
    an [int] and the result a string, a wrapper that decodes a string
    returns that string and a nil error. Neither the version nor the id of
    the response is compared with those of the request. *)
Theorem string_result_returned W w rpc fx version id s :
  shapeOf w = AString ->
  fitsInt id = true ->
  answers W (posts fx) (resultEnvelope version (JSON.Int id) (JSON.Str s)) ->
  exists fx', invoke W w rpc fx = Returns (GotString s None) (bound w rpc) fx'.
Proof.
  intros Hw Hid HS.
  destruct (invoke_answered W w rpc fx _ HS) as (data & fx' & Hp & Hc).
  rewrite invoke_unfold, Hc, (interpret_resultEnvelope _ _ _ _ Hp).
  cbn [intInto]. rewrite Hid, Hw. exists fx'. reflexivity.
Qed.

(** [CreateAccount] against a response with the id 7. *)
Lemma string_result_returned_witness :
  exists fx',
    invoke (answering (quoted "{'jsonrpc':'2.0','id':7,'result':'0xABC'}"))
           (W_CreateAccount "pw123") (NewCCClient node) quiet
    = Returns (GotString "0xABC" None) (NewCCClient node) fx'.
Proof.
  apply (string_result_returned
           (answering (quoted "{'jsonrpc':'2.0','id':7,'result':'0xABC'}"))
           (W_CreateAccount "pw123") (NewCCClient node) quiet "2.0" 7 "0xABC");
    try reflexivity.
  eexists. split; [|intros req; reflexivity]. reflexivity.
Defined.

(** X6. When the result of the response is an array of strings,
    [ListAccounts] and [GetBootnodes] return the strings in their order, in
    a slice that is not nil even when the array is empty, and a nil
    error. *)
Theorem strings_result_returned W w rpc fx version id l :
  shapeOf w = AStrings ->
  fitsInt id = true ->
  answers W (posts fx) (resultEnvelope version (JSON.Int id) (JSON.Arr (map JSON.Str l))) ->
  exists fx', invoke W w rpc fx = Returns (GotStrings (Some l) None) (bound w rpc) fx'.
Proof.
  intros Hw Hid HS.
  destruct (invoke_answered W w rpc fx _ HS) as (data & fx' & Hp & Hc).
  rewrite invoke_unfold, Hc, (interpret_resultEnvelope _ _ _ _ Hp).
  cbn [intInto]. rewrite Hid, Hw. cbn [decode UnmarshalStrings stringsInto].
  rewrite stringsOf_Str. exists fx'. reflexivity.
Qed.

(** [ListAccounts] against a response with two accounts. *)
Lemma strings_result_returned_witness :
  exists fx',
    invoke (answering (quoted "{'jsonrpc':'2.0','id':1,'result':['0xA1','0xB2']}"))
           W_ListAccounts (NewCCClient node) quiet
    = Returns (GotStrings (Some ["0xA1"; "0xB2"]) None) (NewCCClient node) fx'.
Proof.
  apply (strings_result_returned
           (answering (quoted "{'jsonrpc':'2.0','id':1,'result':['0xA1','0xB2']}"))
           W_ListAccounts (NewCCClient node) quiet "2.0" 1 ["0xA1"; "0xB2"]);
    try reflexivity.
  eexists. split; [|intros req; reflexivity]. reflexivity.
Defined.

(** X7. When the response holds an error member with an integer code that
    fits an [int] and a message, with a result member beside it or without
    one, [call] returns a nil result and the [rpcError] with that code and
    that message. The wrappers that decode nothing return this error; every
    other wrapper ends the process in [fatalIfErr]. *)
Theorem remote_error_outcome W w rpc fx version id result code message :
  fitsInt id = true ->
  fitsInt code = true ->
  answers W (posts fx) (errorEnvelope version (JSON.Int id) result code message) ->
  let remote := RPCError {| Code := code; Message := message |} in
  exists fx',
    call W (methodOf w) (paramsOf w) (bound w rpc) fx
    = Returns (None, Some remote) (bound w rpc) fx'
    /\ invoke W w rpc fx
       = match shapeOf w with
         | Nothing => Returns (GotError (Some remote)) (bound w rpc) fx'
         | sh => Exits (logs fx' (Fatalf (notOfType (typeName sh)) SyntaxError))
         end.
Proof.
  intros Hid Hcode HS remote.
  destruct (invoke_answered W w rpc fx _ HS) as (data & fx' & Hp & Hc).
  rewrite (interpret_errorEnvelope _ _ _ _ _ _ Hp) in Hc.
  cbn [intInto] in Hc. rewrite Hid, Hcode in Hc.
  exists fx'. split; [exact Hc|].
  rewrite invoke_unfold, Hc. destruct (shapeOf w); reflexivity.
Qed.

(** [DeleteAccount] against the error ["no such account"]. *)
Lemma remote_error_outcome_witness :
  let W := answering (quoted "{'jsonrpc':'2.0','id':1,'error':{'code':-32000,'message':'no such account'}}") in
  let remote := RPCError {| Code := -32000; Message := "no such account" |} in
  exists fx',
    call W "accounts_deleteAccount" [AnyString "0xABC"; AnyString "pw"] (NewCCClient node) quiet
    = Returns (None, Some remote) (NewCCClient node) fx'
    /\ invoke W (W_DeleteAccount "0xABC" "pw") (NewCCClient node) quiet
       = Returns (GotError (Some remote)) (NewCCClient node) fx'.
Proof.
  intros W remote.
  apply (remote_error_outcome W (W_DeleteAccount "0xABC" "pw") (NewCCClient node) quiet
           "2.0" 1 None (-32000) "no such account"); try reflexivity.
  eexists. split; [|intros req; reflexivity]. reflexivity.
Defined.

(** X8. A response without a result member and without an error member:
    [call] returns a nil result and a nil error. The wrappers that decode
    nothing return a nil error; every other wrapper ends the process,
    though the server reported no error. *)
Theorem missing_result_is_fatal W w rpc fx version id :
  fitsInt id = true ->
  answers W (posts fx) (JSON.Obj [("jsonrpc", JSON.Str version); ("id", JSON.Int id)]) ->
  exists fx',
    call W (methodOf w) (paramsOf w) (bound w rpc) fx = Returns (None, None) (bound w rpc) fx'
    /\ invoke W w rpc fx
       = match shapeOf w with
         | Nothing => Returns (GotError None) (bound w rpc) fx'
         | sh => Exits (logs fx' (Fatalf (notOfType (typeName sh)) SyntaxError))
         end.
Proof.
  intros Hid HS.
  destruct (invoke_answered W w rpc fx _ HS) as (data & fx' & Hp & Hc).
  assert (E : interpret data = (None, None)).
  { rewrite (interpret_parsed _ _ Hp). cbn. now rewrite Hid. }
  rewrite E in Hc.
  exists fx'. split; [exact Hc|].
  rewrite invoke_unfold, Hc. destruct (shapeOf w); reflexivity.
Qed.

(** [LvlDBStats] against the response [{"jsonrpc":"2.0","id":1}]. *)
Lemma missing_result_is_fatal_witness :
  let W := answering (quoted "{'jsonrpc':'2.0','id':1}") in
  exists fx',
    call W "lvldb_getDBStats" [] (NewCCClient node) quiet
    = Returns (None, None) (NewCCClient node) fx'
    /\ invoke W W_LvlDBStats (NewCCClient node) quiet
       = Exits (logs fx' (Fatalf (notOfType "string") SyntaxError)).
Proof.
  intros W.
  apply (missing_result_is_fatal W W_LvlDBStats (NewCCClient node) quiet "2.0" 1);
    [reflexivity|].
  eexists. split; [|intros req; reflexivity]. reflexivity.
Defined.

(** X9. A response whose result is [null]: a wrapper returns the zero
    value of its type, the empty string or the nil slice, and a nil error.
    The caller cannot tell a null result from an empty string. *)
Theorem null_result_is_zero_value W w rpc fx version id :
  fitsInt id = true ->
  answers W (posts fx) (resultEnvelope version (JSON.Int id) JSON.Null) ->
  exists fx',
    invoke W w rpc fx
    = Returns match shapeOf w with
              | AString => GotString EmptyString None
              | AStrings => GotStrings None None
              | Nothing => GotError None
              end (bound w rpc) fx'.
Proof.
  intros Hid HS.
  destruct (invoke_answered W w rpc fx _ HS) as (data & fx' & Hp & Hc).
  rewrite invoke_unfold, Hc, (interpret_resultEnvelope _ _ _ _ Hp).
  cbn [intInto]. rewrite Hid. exists fx'. destruct (shapeOf w); reflexivity.
Qed.

(** [GetBootnodes] against a null result. *)
Lemma null_result_is_zero_value_witness :
  exists fx',
    invoke (answering (quoted "{'jsonrpc':'2.0','id':1,'result':null}"))
           W_GetBootnodes (NewCCClient node) quiet
    = Returns (GotStrings None None) (NewCCClient node) fx'.
Proof.
  apply (null_result_is_zero_value
           (answering (quoted "{'jsonrpc':'2.0','id':1,'result':null}"))
           W_GetBootnodes (NewCCClient node) quiet "2.0" 1); [reflexivity|].
  eexists. split; [|intros req; reflexivity]. reflexivity.
Defined.

(** X10. The id of a response is read into an [int]. When it is a string,
    a boolean, an array or an object, [call] returns a nil result and the
    [UnmarshalTypeError] of the id, also when the response holds a good
    result: the wrappers that decode nothing return the error, every other
    wrapper ends the process. *)
Theorem response_id_must_be_int W w rpc fx version id result :
  id <> JSON.Null ->
  kindOf id <> "number" ->
  answers W (posts fx) (resultEnvelope version id result) ->
  let mismatch := UnmarshalTypeError (kindOf id) "int" in
  exists fx',
    call W (methodOf w) (paramsOf w) (bound w rpc) fx
    = Returns (None, Some mismatch) (bound w rpc) fx'
    /\ invoke W w rpc fx
       = match shapeOf w with
         | Nothing => Returns (GotError (Some mismatch)) (bound w rpc) fx'
         | sh => Exits (logs fx' (Fatalf (notOfType (typeName sh)) SyntaxError))
         end.
Proof.
  intros Hn Hz HS mismatch.
  destruct (invoke_answered W w rpc fx _ HS) as (data & fx' & Hp & Hc).
  rewrite (interpret_resultEnvelope _ _ _ _ Hp) in Hc.
  assert (E : intInto id 0 = (0%Z, Some mismatch)).
  { destruct id; try reflexivity; [congruence | exfalso; apply Hz; reflexivity ..]. }
  rewrite E in Hc.
  exists fx'. split; [exact Hc|].
  rewrite invoke_unfold, Hc. destruct (shapeOf w); reflexivity.
Qed.

(** [CreateAccount] against a response whose id is the string ["1"]. *)
Lemma response_id_must_be_int_witness :
  let W := answering (quoted "{'jsonrpc':'2.0','id':'1','result':'0xABC'}") in
  let mismatch := UnmarshalTypeError "string" "int" in
  exists fx',
    call W "accounts_createAccount" [AnyString "pw123"] (NewCCClient node) quiet
    = Returns (None, Some mismatch) (NewCCClient node) fx'
    /\ invoke W (W_CreateAccount "pw123") (NewCCClient node) quiet
       = Exits (logs fx' (Fatalf (notOfType "string") SyntaxError)).
Proof.
  intros W mismatch.
  apply (response_id_must_be_int W (W_CreateAccount "pw123") (NewCCClient node) quiet
           "2.0" (JSON.Str "1") (JSON.Str "0xABC")).
  - discriminate.
  - discriminate.
  - eexists. split; [|intros req; reflexivity]. reflexivity.
Defined.

(** X11. When [Post] returns an error, or the body of the response cannot
    be read, [call] returns a nil result and that error (the [url.Error] of
    [Post] around the failure, the error of the read otherwise) and logs
    nothing. The wrappers
    that decode nothing return the error; every other wrapper ends the
    process. *)
Theorem transport_failure W w rpc fx answer :
  (forall req, server W (posts fx) req = answer) ->
  (forall data, answer <> PostResponse (BodyData data)) ->
  exists e fx',
    call W (methodOf w) (paramsOf w) (bound w rpc) fx = Returns (None, Some e) (bound w rpc) fx'
    /\ match answer with
       | PostError msg => exists op u, e = URLError op u msg
       | PostResponse (BodyError msg) => e = ReadError msg
       | PostResponse (BodyData _) => False
       end
    /\ logged fx' = logged fx
    /\ invoke W w rpc fx
       = match shapeOf w with
         | Nothing => Returns (GotError (Some e)) (bound w rpc) fx'
         | sh => Exits (logs fx' (Fatalf (notOfType (typeName sh)) SyntaxError))
         end.
Proof.
  intros HS Hn.
  destruct (wrapper_marshals w (bound w rpc)) as [body HM].
  specialize (HS (outgoing (bound w rpc) body)).
  destruct answer as [msg|[data|msg]].
  - pose proof (call_post_error W _ _ _ fx _ _ HM HS) as Hc.
    eexists _, _. split; [exact Hc|].
    split; [eexists _, _; reflexivity|]. split; [reflexivity|].
    rewrite invoke_unfold, Hc. destruct (shapeOf w); reflexivity.
  - now contradiction (Hn data).
  - pose proof (call_read_error W _ _ _ fx _ _ HM HS) as Hc.
    eexists _, _. split; [exact Hc|].
    split; [reflexivity|]. split; [reflexivity|].
    rewrite invoke_unfold, Hc. destruct (shapeOf w); reflexivity.
Qed.

(** [ListAccounts] against a server that refuses the connection. *)
Lemma transport_failure_witness :
  let W := unreachable "connection refused" in
  exists e fx',
    call W "accounts_listAccounts" [] (NewCCClient node) quiet
    = Returns (None, Some e) (NewCCClient node) fx'
    /\ (exists op u, e = URLError op u "connection refused")
    /\ logged fx' = logged quiet
    /\ invoke W W_ListAccounts (NewCCClient node) quiet
       = Exits (logs fx' (Fatalf (notOfType "[]string") SyntaxError)).
Proof.
  intros W.
  apply (transport_failure W W_ListAccounts (NewCCClient node) quiet
           (PostError "connection refused")).
  - intros req. reflexivity.
  - intros data. discriminate.
Defined.

(** X12. When the body of the response is no JSON text, [call] returns a
    nil result and the syntax error. The wrappers that decode nothing
    return the error; every other wrapper ends the process. *)
Theorem malformed_response W w rpc fx data :
  JSON.parse data = None ->
  (forall req, server W (posts fx) req = PostResponse (BodyData data)) ->
  exists fx',
    call W (methodOf w) (paramsOf w) (bound w rpc) fx
    = Returns (None, Some SyntaxError) (bound w rpc) fx'
    /\ invoke W w rpc fx
       = match shapeOf w with
         | Nothing => Returns (GotError (Some SyntaxError)) (bound w rpc) fx'
         | sh => Exits (logs fx' (Fatalf (notOfType (typeName sh)) SyntaxError))
         end.
Proof.
  intros Hp HS.
  destruct (wrapper_marshals w (bound w rpc)) as [body HM].
  pose proof (call_answered W _ _ _ fx _ _ HM (HS _)) as Hc.
  assert (E : interpret data = (None, Some SyntaxError)).
  { unfold interpret, UnmarshalResponse. now rewrite Hp. }
  rewrite E in Hc. eexists. split; [exact Hc|].
  rewrite invoke_unfold, Hc. destruct (shapeOf w); reflexivity.
Qed.

(** [RunSwarmService] against the page of a gateway. *)
Lemma malformed_response_witness :
  let W := answering "<html>502 Bad Gateway</html>" in
  exists fx',
    call W "service_run" [AnyString "web"; AnyStrings (Some ["n1"])] (NewCCClient node) quiet
    = Returns (None, Some SyntaxError) (NewCCClient node) fx'
    /\ invoke W (W_RunSwarmService "web" (Some ["n1"])) (NewCCClient node) quiet
       = Returns (GotError (Some SyntaxError)) (NewCCClient node) fx'.
Proof.
  intros W.
  apply (malformed_response W (W_RunSwarmService "web" (Some ["n1"])) (NewCCClient node) quiet
           "<html>502 Bad Gateway</html>").
  - reflexivity.
  - intros req. reflexivity.
Defined.

(** ** The requests on the wire *)

(** X13. On a client made by [NewCCClient], whatever wrappers have run on
    it, every POST of a sequence of wrappers goes to the URL given to the
    constructor, with the content type [application/json]. Every wrapper
    that is reached issues exactly one POST: a sequence that returns has
    issued as many POSTs as it has wrappers and returns as many values; a
    sequence that exits has issued at least one and no more than that. *)
Theorem posts_go_to_constructor_url W u ws :
  forall rpc fx,
    constructed W u rpc ->
    exists added,
      posts (effectsOf (invokeAll W ws rpc fx)) = (posts fx ++ added)%list
      /\ Forall (fun req => URL req = u /\ ContentType req = "application/json") added
      /\ List.length added <= List.length ws
      /\ (ws <> [] -> 1 <= List.length added)
      /\ (forall rs rpc' fx',
             invokeAll W ws rpc fx = Returns rs rpc' fx' ->
             List.length added = List.length ws /\ List.length rs = List.length ws
             /\ constructed W u rpc').
Proof.
  induction ws as [|w ws IH]; intros rpc fx Hc.
  - exists []. cbn [invokeAll List.length]. unfold ret. cbn [effectsOf].
    rewrite List.app_nil_r.
    split; [reflexivity|]. split; [constructor|]. split; [lia|].
    split; [congruence|].
    intros rs rpc' fx' H. inversion H; subst.
    split; [reflexivity|]. split; [reflexivity | assumption].
  - destruct (invoke_posts W w rpc fx) as (body & _ & Hp).
    destruct (constructed_invariant W u rpc Hc) as [_ Hu].
    assert (Hreq : URL (outgoing (bound w rpc) body) = u
                   /\ ContentType (outgoing (bound w rpc) body) = "application/json").
    { split; [|reflexivity]. cbn [outgoing URL]. unfold bound.
      destruct (tokenOf w); exact Hu. }
    cbn [invokeAll]. unfold bind at 1.
    destruct (invoke W w rpc fx) as [r rpc1 fx1|fx1] eqn:Hi; cbn [effectsOf] in Hp.
    + assert (Hc1 : constructed W u rpc1) by exact (constructed_invoke W u w rpc fx r rpc1 fx1 Hc Hi).
      destruct (IH rpc1 fx1 Hc1) as (added & Ha & HF & Hle & _ & HR).
      exists (outgoing (bound w rpc) body :: added).
      split; [|split; [|split; [|split]]].
      * rewrite bind_posts, Ha, Hp, <- List.app_assoc. reflexivity.
      * constructor; assumption.
      * cbn. lia.
      * intros _. cbn. lia.
      * intros rs rpc' fx'. unfold bind. rewrite Hi.
        destruct (invokeAll W ws rpc1 fx1) as [rs2 rpc2 fx2|fx2] eqn:E;
          [|intros H; discriminate H].
        destruct (HR _ _ _ eq_refl) as (Hl & Hl' & Hc2).
        unfold ret. intros H. inversion H; subst. cbn. repeat split; auto.
    + exists [outgoing (bound w rpc) body].
      split; [exact Hp|]. split; [constructor; [exact Hreq | constructor]|].
      cbn [List.length]. split; [lia|]. split; [lia|].
      intros rs rpc' fx'. unfold bind. rewrite Hi. intros H. discriminate H.
Qed.

(** Three wrappers on a new client. *)
Lemma posts_go_to_constructor_url_witness :
  let W := answering (quoted "{'result':'ok'}") in
  let ws := [W_CreateAccount "pw123"; W_ListNodeImages "node1" "tok123"; W_LvlDBStats] in
  exists added,
    posts (effectsOf (invokeAll W ws (NewCCClient node) quiet)) = (posts quiet ++ added)%list
    /\ Forall (fun req => URL req = node /\ ContentType req = "application/json") added
    /\ List.length added <= List.length ws
    /\ (ws <> [] -> 1 <= List.length added)
    /\ (forall rs rpc' fx',
           invokeAll W ws (NewCCClient node) quiet = Returns rs rpc' fx' ->
           List.length added = List.length ws /\ List.length rs = List.length ws
           /\ constructed W node rpc').
Proof.
  intros W ws.
  exact (posts_go_to_constructor_url W node ws (NewCCClient node) quiet
           (constructed_new W node)).
Defined.

(** X14. What goes on the wire when there is nothing to send. On a client
    made by [NewCCClient], a wrapper without arguments ([ListAccounts],
    [GetBootnodes], [LvlDBStats], [LvlDBSelectAll]) posts an envelope whose
    [params] member is [null], not an empty array; [SetBootnodes] and
    [StopSwarmService] post [[null]] for a nil list of nodes and [[[]]] for
    an empty one. *)
Theorem empty_arguments_on_the_wire W u rpc w fx text :
  constructed W u rpc ->
  emptyParams w = Some text ->
  exists req,
    posts (effectsOf (invoke W w rpc fx)) = (posts fx ++ [req])%list
    /\ Body req = quoted "{'id':1,'jsonrpc':'2.0','method':'" ++ methodOf w
                         ++ quoted "','params':" ++ text ++ "}".
Proof.
  intros Hc Ht.
  destruct (invoke_posts W w rpc fx) as (body & HM & Hp).
  exists (outgoing (bound w rpc) body). split; [exact Hp|].
  cbn [outgoing Body].
  assert (Hv : versionJSONRPC (bound w rpc) = "2.0").
  { unfold bound. destruct (tokenOf w); exact (proj1 (constructed_invariant W u rpc Hc)). }
  unfold Marshal, requestValue, request in HM. cbn [Params ID JSONRPC Method] in HM.
  rewrite Hv in HM. unfold emptyParams in Ht.
  destruct w; cbn [paramsOf] in Ht, HM; try discriminate Ht;
    try (destruct nodes as [[|n l]|]; try discriminate Ht);
    inversion Ht; subst text; inversion HM; reflexivity.
Qed.

(** [StopSwarmService(nil)]. *)
Lemma empty_arguments_on_the_wire_witness :
  exists req,
    posts (effectsOf (invoke (answering (quoted "{'result':null}")) (W_StopSwarmService None)
                             (NewCCClient node) quiet))
    = (posts quiet ++ [req])%list
    /\ Body req = quoted "{'id':1,'jsonrpc':'2.0','method':'service_stop','params':[null]}".
Proof.
  exact (empty_arguments_on_the_wire (answering (quoted "{'result':null}")) node
           (NewCCClient node) (W_StopSwarmService None) quiet "[null]"
           (constructed_new _ node) eq_refl).
Defined.

(** ** The text of a remote error *)

(** X15. The text of a remote error determines the error: two errors with
    the same text have the same code and the same message. *)
Theorem rpcError_Error_injective e1 e2 :
  rpcError_Error e1 = rpcError_Error e2 -> e1 = e2.
Proof.
  unfold rpcError_Error. intros H.
  apply (append_inj_r "Error ") in H.
  apply (encodeInt_blank_inj (Code e1) (Code e2)) in H. destruct H as [Hc Hm].
  apply encodeInt_inj in Hc. cbn [append] in Hm. inversion Hm as [Hm'].
  apply (append_last_inj _ _ ")"%char) in Hm'.
  destruct e1, e2; cbn in *; congruence.
Qed.

(** The error of a refused passphrase. *)
Lemma rpcError_Error_injective_witness :
  {| Code := -32000; Message := "invalid passphrase" |}
  = {| Code := -32000; Message := "invalid passphrase" |}.
Proof.
  apply (rpcError_Error_injective {| Code := -32000; Message := "invalid passphrase" |}
           {| Code := -32000; Message := "invalid passphrase" |}).
  reflexivity.
Defined.

(** ** [UploadFile] *)



(** X17. [UploadFile] always returns to its caller: it never ends the
    process and never writes to the log. It keeps the URL and the [Debug]
    flag of the client and creates one multipart writer. With every error
    the body it returns is empty. It returns a nil error only when the file
    was read and the server answered the one POST issued, and the body is
    then the body of that response. The [Debug] flag has no effect on what
    it does. *)
Theorem UploadFile_frame W filename token c fx :
  exists body err c' fx',
    UploadFile W filename token c fx = Returns (body, err) c' fx'
    /\ upload_url c' = upload_url c /\ upload_Debug c' = upload_Debug c
    /\ logged fx' = logged fx
    /\ writers fx' = 1 + writers fx
    /\ (err <> None -> body = EmptyString)
    /\ (err = None ->
        exists data req,
          files W filename = Opened (FileData data)
          /\ posts fx' = (posts fx ++ [req])%list
          /\ server W (posts fx) req = PostResponse (BodyData body))
    /\ (forall d,
           UploadFile W filename token (withUploadDebug d c) fx
           = Returns (body, err) (withUploadDebug d c') fx').
Proof.
  assert (D : forall d,
             UploadFile W filename token (withUploadDebug d c) fx
             = match UploadFile W filename token c fx with
               | Returns r c' fx' => Returns r (withUploadDebug d c') fx'
               | Exits fx' => Exits fx'
               end).
  { intros d. rewrite !UploadFile_unfold. cbv zeta.
    cbn [withUploadDebug upload_url upload_Debug].
    destruct (files W filename) as [msg|[data|msg]]; reflexivity. }
  rewrite UploadFile_unfold. cbv zeta.
  destruct (files W filename) as [msg|[data|msg]] eqn:Hf.
  - eexists _, _, _, _. split; [reflexivity|]. cbn [upload_url upload_Debug logged writers].
    do 4 (split; [reflexivity|]). split; [reflexivity|].
    split; [intros H; discriminate H|].
    intros d. rewrite D, UploadFile_unfold, Hf. reflexivity.
  - match goal with
    | |- context [server W ?p ?r] => destruct (server W p r) as [m|[d|m]] eqn:HS
    end.
    + eexists _, _, _, _. split; [reflexivity|].
      cbn [upload_url upload_Debug logged writers sends].
      do 4 (split; [reflexivity|]). split; [reflexivity|].
      split; [intros H; discriminate H|].
      intros d. rewrite D, UploadFile_unfold, Hf. cbv zeta. rewrite HS. reflexivity.
    + eexists _, _, _, _. split; [reflexivity|].
      cbn [upload_url upload_Debug logged writers sends].
      do 4 (split; [reflexivity|]). split; [congruence|]. split.
      * intros _. eexists data, _. split; [reflexivity|]. split; [reflexivity | exact HS].
      * intros d0. rewrite D, UploadFile_unfold, Hf. cbv zeta. rewrite HS. reflexivity.
    + eexists _, _, _, _. split; [reflexivity|].
      cbn [upload_url upload_Debug logged writers sends].
      do 4 (split; [reflexivity|]). split; [reflexivity|].
      split; [intros H; discriminate H|].
      intros d. rewrite D, UploadFile_unfold, Hf. cbv zeta. rewrite HS. reflexivity.
  - eexists _, _, _, _. split; [reflexivity|]. cbn [upload_url upload_Debug logged writers].
    do 4 (split; [reflexivity|]). split; [reflexivity|].
    split; [intros H; discriminate H|].
    intros d. rewrite D, UploadFile_unfold, Hf. reflexivity.
Qed.
